(** * delPack: a shallow embedding of [main.go]

    delPack walks a directory tree, records every directory whose base
    name is one of the target names, sizes the recorded directories with a
    pool of workers, asks for confirmation and removes them with a second
    pool of workers.

    The model follows the program phase by phase:
    - [Int64]    [int64] addition with its wrap-around;
    - [FS]       the file system as [os.Stat] and [os.Lstat] see it;
    - [Walkers]  [filepath.WalkDir] and [filepath.Walk] with their callback
                 protocol ([nil] / [filepath.SkipDir] / an error);
    - [Remove]   [os.RemoveAll];
    - [Scan]     the callback of the scan phase, and [dirSize];
    - [Pool]     the worker pool (work channel, goroutines, result
                 channel) under an explicit scheduler;
    - [Prompt]   [fmt.Scanln] into one string and the affirmative test;
    - [Main]     [readTargets], the two collectors and [main].
    The second part states and proves the properties of the program.

    Conventions.  A path is the list of its components below the root that
    was given on the command line (the root itself is [[]]);
    [filepath.Join p name] is [p ++ [name]].  An [int64] is a [Z] kept in
    range by [wrap64].  Text is a string of bytes; [fmt.Scanln] and
    [strings.TrimSpace] are modelled on ASCII text, where a byte is a
    character and the white space is the six ASCII blanks, and the
    theorems that depend on what they do to a text assume that the text
    is ASCII ([isASCII]).  The standard library and the operating system
    are modelled after their documentation.  The entries of a directory
    are kept as [os.ReadDir] returns them, and are visited in that order:
    sorted by name, which [lexical] says of a tree.  [filepath.WalkDir]
    takes the type of an entry from the listing of its parent and does
    not [lstat] it, so that a directory whose [lstat] fails is still
    handed to the callback as a directory; [filepath.Walk] does [lstat]
    every entry.  [os.RemoveAll] acts at once.  The order in which
    goroutines run is not fixed by the program: every pool run takes a
    schedule (a list of choices among the goroutines that can move) and
    the theorems quantify over all schedules.  Printing, the progress bar
    and the clock are left out. *)

From Stdlib Require Import List ZArith Lia Bool String Ascii Permutation Arith.
Import ListNotations.

Local Open Scope string_scope.
Local Open Scope list_scope.

(* ------------------------------------------------------------------ *)
(** ** 64-bit signed arithmetic *)

Module Int64.

Definition modulus : Z := 2 ^ 64.
Definition half : Z := 2 ^ 63.

(** Two's complement reduction into [-2^63, 2^63). *)
Definition wrap64 (z : Z) : Z := ((z + half) mod modulus - half)%Z.

(** [a + b] on [int64] operands. *)
Definition add64 (a b : Z) : Z := wrap64 (a + b).

Definition in_range (z : Z) : Prop := (- half <= z < half)%Z.

Lemma wrap64_range z : in_range (wrap64 z).
Proof.
  unfold in_range, wrap64, half, modulus.
  pose proof (Z.mod_pos_bound (z + 2 ^ 63) (2 ^ 64) ltac:(lia)). lia.
Qed.

Lemma wrap64_small z : in_range z -> wrap64 z = z.
Proof.
  unfold in_range, wrap64, half, modulus. intros H.
  rewrite Z.mod_small; lia.
Qed.

Lemma wrap64_add_l a b : wrap64 (wrap64 a + b) = wrap64 (a + b).
Proof.
  unfold wrap64, half, modulus.
  replace ((a + 2 ^ 63) mod 2 ^ 64 - 2 ^ 63 + b + 2 ^ 63)%Z
    with ((a + 2 ^ 63) mod 2 ^ 64 + b)%Z by lia.
  rewrite Zplus_mod_idemp_l. f_equal. f_equal. lia.
Qed.

Lemma wrap64_add_r a b : wrap64 (a + wrap64 b) = wrap64 (a + b).
Proof. rewrite Z.add_comm, wrap64_add_l. f_equal. lia. Qed.

(** Mathematical sum of a list, before reduction. *)
Definition zsum (l : list Z) : Z := fold_right Z.add 0%Z l.

Lemma zsum_app l1 l2 : zsum (l1 ++ l2) = (zsum l1 + zsum l2)%Z.
Proof. induction l1 as [|x l1 IH]; simpl; lia. Qed.

Lemma zsum_perm l1 l2 : Permutation l1 l2 -> zsum l1 = zsum l2.
Proof. induction 1; simpl; lia. Qed.

(** Accumulating with [+=] from [acc] is the wrapped sum. *)
Lemma fold_add64 l acc :
  wrap64 (fold_left add64 l acc) = wrap64 (acc + zsum l).
Proof.
  revert acc. induction l as [|x l IH]; intros acc; simpl.
  - f_equal. lia.
  - rewrite IH. unfold add64. rewrite wrap64_add_l. f_equal. lia.
Qed.

(** Accumulating from 0 gives the sum reduced to 64 bits. *)
Lemma fold_add64_zero l : fold_left add64 l 0%Z = wrap64 (zsum l).
Proof.
  rewrite <- (wrap64_small (fold_left add64 l 0%Z)).
  - rewrite fold_add64. reflexivity.
  - destruct l as [|x l] using rev_ind.
    + unfold in_range, half. simpl. lia.
    + rewrite fold_left_app. simpl. apply wrap64_range.
Qed.

End Int64.
Import Int64.

(* ------------------------------------------------------------------ *)
(** ** The file system *)

Module FS.

(** Error numbers the operating system may report. *)
Inductive errno := ENOENT | EACCES | ENOTDIR | ENOTEMPTY | EBUSY | EIO.

Definition errno_eqb (a b : errno) : bool :=
  match a, b with
  | ENOENT, ENOENT | EACCES, EACCES | ENOTDIR, ENOTDIR
  | ENOTEMPTY, ENOTEMPTY | EBUSY, EBUSY | EIO, EIO => true
  | _, _ => false
  end.

(** [os.IsNotExist]; [None] is the [nil] error. *)
Definition IsNotExist (err : option errno) : bool :=
  match err with
  | Some e => errno_eqb e ENOENT
  | None => false
  end.

Definition path := list string.

(** What [lstat] reports for an entry, and whether unlinking it fails. *)
Record attrs := { a_size : Z; a_rm : option errno }.

(** A node of the tree.
    - [File a]: anything that is not a directory.
    - [Dir a rd es]: a directory; [rd] is the error of reading it (if
      any) and [es] the entries the read returned, in the order returned.
    - [Broken d e]: an entry that is listed by its parent, as a directory
      when [d] holds, but whose [lstat] fails with [e], as for an entry
      of a directory that may be read and not searched; when it is a
      directory, reading it fails with [e] as well. *)
Local Unset Elimination Schemes.
Inductive node :=
| File (a : attrs)
| Dir (a : attrs) (rd : option errno) (es : list (string * node))
| Broken (d : bool) (e : errno).
Local Set Elimination Schemes.

(** The induction principle that reaches the entries of a directory. *)
Lemma node_ind' (P : node -> Prop)
    (HF : forall a, P (File a))
    (HB : forall d e, P (Broken d e))
    (HD : forall a rd es, Forall (fun e => P (snd e)) es -> P (Dir a rd es))
    (n : node) : P n.
Proof.
  revert n. fix IH 1. intros [a|a rd es|d e].
  - apply HF.
  - apply HD. induction es as [|[nm c] es IHes]; constructor.
    + simpl. apply IH.
    + exact IHes.
  - apply HB.
Qed.

Definition isDir (n : node) : bool :=
  match n with Dir _ _ _ => true | _ => false end.

(** The type under which the parent lists the entry. *)
Definition listedDir (n : node) : bool :=
  match n with
  | Dir _ _ _ => true
  | Broken d _ => d
  | File _ => false
  end.

(** The error of reading an entry as a directory, if it is listed as one
    and the read fails. *)
Definition readError (n : node) : option errno :=
  match n with
  | Dir _ rd _ => rd
  | Broken true e => Some e
  | _ => None
  end.

(** The state of the file system at the root path: [None] when nothing
    is there. *)
Definition fs := option node.

(** First entry called [nm]. *)
Fixpoint find_entry (nm : string) (es : list (string * node)) : option node :=
  match es with
  | [] => None
  | (nm', c) :: tl => if String.eqb nm nm' then Some c else find_entry nm tl
  end.

(** [os.Lstat] of the path [p] below a node that exists. *)
Fixpoint lstat_at (p : path) (n : node) : errno + node :=
  match n with
  | Broken _ e => inl e
  | _ =>
      match p with
      | [] => inr n
      | nm :: q =>
          match n with
          | Dir _ _ es =>
              match find_entry nm es with
              | Some c => lstat_at q c
              | None => inl ENOENT
              end
          | _ => inl ENOTDIR
          end
      end
  end.

Definition lstat (p : path) (w : fs) : errno + node :=
  match w with
  | None => inl ENOENT
  | Some n => lstat_at p n
  end.

(** The entry the listings name by the path [q] below a node, whatever
    [lstat] says of it. *)
Fixpoint entry_at (q : path) (n : node) : option node :=
  match q with
  | [] => Some n
  | nm :: q' =>
      match n with
      | Dir _ _ es =>
          match find_entry nm es with
          | Some c => entry_at q' c
          | None => None
          end
      | _ => None
      end
  end.

(** Names in the order [os.ReadDir] returns them: ascending, byte by
    byte, without repetition. *)
Fixpoint ascending (l : list string) : bool :=
  match l with
  | [] => true
  | x :: tl =>
      match tl with
      | [] => true
      | y :: _ => String.ltb x y && ascending tl
      end
  end.

(** Every directory of the tree lists its entries in that order. *)
Fixpoint lexical (n : node) : bool :=
  match n with
  | Dir _ _ es =>
      ascending (map fst es) &&
      (fix each (l : list (string * node)) : bool :=
         match l with
         | [] => true
         | (_, c) :: tl => lexical c && each tl
         end) es
  | _ => true
  end.

Definition lexicalFs (w : fs) : bool :=
  match w with
  | None => true
  | Some n => lexical n
  end.

(** Base name of a path below the root, whose own base name is
    [rootName]. *)
Definition baseName (rootName : string) (p : path) : string := last p rootName.

(** The error of [os.Stat] / [os.Lstat], [None] when it succeeds. *)
Definition statErr (p : path) (w : fs) : option errno :=
  match lstat p w with
  | inl e => Some e
  | inr _ => None
  end.

(** The path names nothing: [lstat] answers "no such file or directory". *)
Definition absent (p : path) (w : fs) : Prop := lstat p w = inl ENOENT.

End FS.
Import FS.


(* ------------------------------------------------------------------ *)
(** ** [filepath.WalkDir] and [filepath.Walk] *)

Module Walkers.

(** What a callback sees of an entry: [Name()], [IsDir()], [Size()]. *)
Record info := { i_name : string; i_isDir : bool; i_size : Z }.

Definition info_of (name : string) (n : node) : info :=
  match n with
  | File a => {| i_name := name; i_isDir := false; i_size := a_size a |}
  | Dir a _ _ => {| i_name := name; i_isDir := true; i_size := a_size a |}
  | Broken d _ => {| i_name := name; i_isDir := d; i_size := 0 |}
  end.

(** A non-nil value returned by a callback: [filepath.SkipDir] or an
    error that stops the walk.  ([filepath.SkipAll] is not used by the
    program.) *)
Inductive ctl := SkipDir | Stop (e : errno).

(** A callback [func(path, d, err) error] that updates the variables it
    closes over, here the state [S]; [None] is the [nil] return. *)
Definition WalkFunc (S : Type) : Type :=
  path -> option info -> option errno -> S -> S * option ctl.

Section Walk.
Context {S : Type} (fn : WalkFunc S).

(** [walkDir(path, d, fn)]: the callback is called on the entry, with the
    type under which its parent lists it; a directory is then read, the
    callback is called a second time when the read failed, and the
    entries the read returned are walked in order.  [SkipDir] from a
    directory skips it; [SkipDir] from anything else leaves the loop of
    the parent. *)
Fixpoint walkDir (p : path) (name : string) (n : node) (s : S) : S * option ctl :=
  let d := info_of name n in
  let '(s1, r1) := fn p (Some d) None s in
  match n with
  | Dir _ rd es =>
      match r1 with
      | Some SkipDir => (s1, None)
      | Some (Stop e) => (s1, Some (Stop e))
      | None =>
          let '(s2, r2) :=
            match rd with
            | Some e => fn p (Some d) (Some e) s1
            | None => (s1, None)
            end in
          match r2 with
          | Some SkipDir => (s2, None)
          | Some (Stop e) => (s2, Some (Stop e))
          | None =>
              (fix loop (l : list (string * node)) (s : S) : S * option ctl :=
                 match l with
                 | [] => (s, None)
                 | (nm, c) :: tl =>
                     let '(s', r) := walkDir (p ++ [nm]) nm c s in
                     match r with
                     | None => loop tl s'
                     | Some SkipDir => (s', None)
                     | Some (Stop e) => (s', Some (Stop e))
                     end
                 end) es s2
          end
      end
  | Broken true e =>
      match r1 with
      | Some SkipDir => (s1, None)
      | Some (Stop e') => (s1, Some (Stop e'))
      | None =>
          let '(s2, r2) := fn p (Some d) (Some e) s1 in
          (s2, match r2 with Some (Stop e') => Some (Stop e') | _ => None end)
      end
  | _ => (s1, r1)
  end.

(** The loop over the entries of a directory in [walkDir]. *)
Fixpoint walkDirEntries (p : path) (l : list (string * node)) (s : S) : S * option ctl :=
  match l with
  | [] => (s, None)
  | (nm, c) :: tl =>
      let '(s', r) := walkDir (p ++ [nm]) nm c s in
      match r with
      | None => walkDirEntries p tl s'
      | Some SkipDir => (s', None)
      | Some (Stop e) => (s', Some (Stop e))
      end
  end.

(** [filepath.WalkDir(root, fn)]: [Lstat] the root; on failure the
    callback is called once with the error; [SkipDir] is turned into
    [nil]. *)
Definition WalkDir (rootName : string) (root : path) (w : fs) (s : S) : S * option errno :=
  let '(s', r) :=
    match lstat root w with
    | inl e => fn root None (Some e) s
    | inr n => walkDir root (baseName rootName root) n s
    end in
  (s', match r with Some (Stop e) => Some e | _ => None end).

(** [walk(path, info, fn)] of [filepath.Walk], together with the [lstat]
    that precedes each call of it: an entry whose [lstat] failed is handed
    to the callback with the error; a non-directory is handed to the
    callback; a directory is read first and handed to the callback with
    the error of the read; when the read succeeded and the callback
    returned [nil], its entries are visited in order.  [SkipDir] returned
    for a directory or for a failed [lstat] is absorbed by the loop;
    returned for a file it ends the loop of the parent. *)
Fixpoint walk (p : path) (name : string) (n : node) (s : S) : S * option ctl :=
  match n with
  | Dir _ rd es =>
      let '(s1, r1) := fn p (Some (info_of name n)) rd s in
      match rd, r1 with
      | Some _, _ => (s1, r1)
      | None, Some c => (s1, Some c)
      | None, None =>
          (fix loop (l : list (string * node)) (s : S) : S * option ctl :=
             match l with
             | [] => (s, None)
             | (nm, c) :: tl =>
                 match c with
                 | Broken _ e =>
                     let '(s', r) := fn (p ++ [nm]) None (Some e) s in
                     match r with
                     | Some (Stop e') => (s', Some (Stop e'))
                     | _ => loop tl s'
                     end
                 | _ =>
                     let '(s', r) := walk (p ++ [nm]) nm c s in
                     match r with
                     | None => loop tl s'
                     | Some SkipDir =>
                         if isDir c then loop tl s' else (s', Some SkipDir)
                     | Some (Stop e') => (s', Some (Stop e'))
                     end
                 end
             end) es s1
      end
  | File _ => fn p (Some (info_of name n)) None s
  | Broken _ e => fn p None (Some e) s
  end.

(** The loop over the names of a directory in [walk]. *)
Fixpoint walkEntries (p : path) (l : list (string * node)) (s : S) : S * option ctl :=
  match l with
  | [] => (s, None)
  | (nm, c) :: tl =>
      match c with
      | Broken _ e =>
          let '(s', r) := fn (p ++ [nm]) None (Some e) s in
          match r with
          | Some (Stop e') => (s', Some (Stop e'))
          | _ => walkEntries p tl s'
          end
      | _ =>
          let '(s', r) := walk (p ++ [nm]) nm c s in
          match r with
          | None => walkEntries p tl s'
          | Some SkipDir =>
              if isDir c then walkEntries p tl s' else (s', Some SkipDir)
          | Some (Stop e') => (s', Some (Stop e'))
          end
      end
  end.

(** [filepath.Walk(root, fn)]: [Lstat] the root; on failure the callback
    is called once with the error; [SkipDir] is turned into [nil]. *)
Definition Walk (rootName : string) (root : path) (w : fs) (s : S) : S * option errno :=
  let '(s', c) :=
    match lstat root w with
    | inl e => fn root None (Some e) s
    | inr n => walk root (baseName rootName root) n s
    end in
  (s', match c with Some (Stop e) => Some e | _ => None end).

(** The local loops are the named ones. *)
Lemma walkDir_Dir p name a rd es s :
  walkDir p name (Dir a rd es) s =
  let d := info_of name (Dir a rd es) in
  let '(s1, r1) := fn p (Some d) None s in
  match r1 with
  | Some SkipDir => (s1, None)
  | Some (Stop e) => (s1, Some (Stop e))
  | None =>
      let '(s2, r2) :=
        match rd with
        | Some e => fn p (Some d) (Some e) s1
        | None => (s1, None)
        end in
      match r2 with
      | Some SkipDir => (s2, None)
      | Some (Stop e) => (s2, Some (Stop e))
      | None => walkDirEntries p es s2
      end
  end.
Proof.
  simpl. destruct (fn p _ None s) as [s1 [[|e]|]]; try reflexivity.
  destruct (match rd with Some e => _ | None => _ end) as [s2 [[|e]|]];
    try reflexivity.
  generalize s2. induction es as [|[nm c] tl IH]; intros s0; simpl.
  - reflexivity.
  - destruct (walkDir (p ++ [nm]) nm c s0) as [s' [[|e]|]]; auto.
Qed.

Lemma walk_Dir p name a rd es s :
  walk p name (Dir a rd es) s =
  let '(s1, r1) := fn p (Some (info_of name (Dir a rd es))) rd s in
  match rd, r1 with
  | Some _, _ => (s1, r1)
  | None, Some c => (s1, Some c)
  | None, None => walkEntries p es s1
  end.
Proof.
  simpl. destruct (fn p _ rd s) as [s1 r1].
  destruct rd; [reflexivity|]. destruct r1; [reflexivity|].
  generalize s1. induction es as [|[nm c] tl IH]; intros s0.
  - reflexivity.
  - destruct c as [a'|a' rd' es'|d' e']; cbn -[walk].
    + destruct (walk _ _ _ _) as [s' [[|e]|]]; auto.
    + destruct (walk _ _ _ _) as [s' [[|e]|]]; auto.
    + destruct (fn (p ++ [nm]) None _ s0) as [s' [[|e]|]]; auto.
Qed.

End Walk.

End Walkers.
Import Walkers.


(* ------------------------------------------------------------------ *)
(** ** [os.RemoveAll] *)

Module Remove.

(** Removing a whole entry: everything that can be removed is removed,
    the first error met is returned, and the entry stays (with what is
    left in it) when something beneath it, or the entry itself, could not
    be removed; a directory in which entries are left fails with the
    first error met or, without one, as not empty.  The result is what is
    left of the entry ([None]: nothing) and the error.  A directory that
    still has entries and cannot be read is left as it is; an entry whose
    [lstat] fails is left as it is, and it is an error unless the failure
    is "no such file". *)
Fixpoint rmTree (n : node) : option node * option errno :=
  match n with
  | File a =>
      match a_rm a with
      | None => (None, None)
      | Some e => (Some n, Some e)
      end
  | Broken _ e => (Some n, if IsNotExist (Some e) then None else Some e)
  | Dir a rd es =>
      match es, rd with
      | _ :: _, Some e => (Some n, Some e)
      | _, _ =>
          let '(es', err) :=
            (fix each (l : list (string * node)) : list (string * node) * option errno :=
               match l with
               | [] => ([], None)
               | (nm, c) :: tl =>
                   let '(c', e1) := rmTree c in
                   let '(tl', e2) := each tl in
                   (match c' with Some k => (nm, k) :: tl' | None => tl' end,
                    match e1 with Some e => Some e | None => e2 end)
               end) es in
          match es' with
          | [] =>
              match a_rm a with
              | None => (None, None)
              | Some e => (Some (Dir a rd []), Some e)
              end
          | _ :: _ =>
              (Some (Dir a rd es'),
               match err with Some e => Some e | None => Some ENOTEMPTY end)
          end
      end
  end.

(** [os.RemoveAll] of the path [p] below the node [n]: a missing
    component is no error. *)
Fixpoint rmAt (p : path) (n : node) : option node * option errno :=
  match p with
  | [] => rmTree n
  | nm :: q =>
      match n with
      | File _ => (Some n, Some ENOTDIR)
      | Broken _ e => (Some n, if IsNotExist (Some e) then None else Some e)
      | Dir a rd es =>
          let '(es', err) :=
            (fix seek (l : list (string * node)) : list (string * node) * option errno :=
               match l with
               | [] => ([], None)
               | (nm', c) :: tl =>
                   if String.eqb nm nm' then
                     let '(c', e) := rmAt q c in
                     (match c' with Some k => (nm', k) :: tl | None => tl end, e)
                   else
                     let '(tl', e) := seek tl in ((nm', c) :: tl', e)
               end) es in
          (Some (Dir a rd es'), err)
      end
  end.

Definition RemoveAll (p : path) (w : fs) : fs * option errno :=
  match w with
  | None => (None, None)
  | Some n => rmAt p n
  end.

End Remove.
Import Remove.

(* ------------------------------------------------------------------ *)
(** ** The scan callback and [dirSize] *)

Module Scan.

(** The variables the scan callback appends to.  A scan notice is kept as
    the path and the error it is formatted from. *)
Record scanState := {
  dirsToDelete : list path;
  scanErrors : list (path * errno)
}.

Definition scan0 : scanState := {| dirsToDelete := []; scanErrors := [] |}.

(** [for _, target := range targets { if name == target {...} }] *)
Fixpoint isTarget (targets : list string) (name : string) : bool :=
  match targets with
  | [] => false
  | target :: rest => if String.eqb name target then true else isTarget rest name
  end.

(** The function literal handed to [filepath.WalkDir] in [main].  ([d] is
    [nil] only together with an error, so the branch for a [nil] entry
    without error is never taken.) *)
Definition scanFn (verbose : bool) (targets : list string) : WalkFunc scanState :=
  fun p d err s =>
    match err with
    | Some e =>
        (if verbose
         then {| dirsToDelete := dirsToDelete s;
                 scanErrors := scanErrors s ++ [(p, e)] |}
         else s,
         None)
    | None =>
        match d with
        | None => (s, None)
        | Some d =>
            if negb (i_isDir d) then (s, None)
            else if isTarget targets (i_name d)
                 then ({| dirsToDelete := dirsToDelete s ++ [p];
                          scanErrors := scanErrors s |},
                       Some SkipDir)
                 else (s, None)
        end
    end.

(** The scan phase: [filepath.WalkDir(absRoot, ...)]. *)
Definition scan (verbose : bool) (targets : list string)
    (rootName : string) (w : fs) : scanState * option errno :=
  WalkDir (scanFn verbose targets) rootName [] w scan0.

(** The function literal handed to [filepath.Walk] in [dirSize]; the state
    is the local [size]. *)
Definition sizeFn : WalkFunc Z :=
  fun _ i err size =>
    match err with
    | Some _ => (size, None)
    | None =>
        match i with
        | Some i => if negb (i_isDir i) then (add64 size (i_size i), None)
                    else (size, None)
        | None => (size, None)
        end
    end.

(** [dirSize(path)]. *)
Definition dirSize (rootName : string) (p : path) (w : fs) : Z * option errno :=
  Walk sizeFn rootName p w 0%Z.

(** The errors a walk hands to a callback that, like [sizeFn], always
    returns [nil]. *)
Definition errFn : WalkFunc (list errno) :=
  fun _ _ err l =>
    match err with
    | Some e => (l ++ [e], None)
    | None => (l, None)
    end.

Definition traversalErrors (rootName : string) (p : path) (w : fs) : list errno :=
  fst (Walk errFn rootName p w []).

(** Sizes of the non-directory entries that can be reached below a node:
    an unreadable directory and an entry whose [lstat] fails contribute
    nothing. *)
Fixpoint accessibleSizes (n : node) : list Z :=
  match n with
  | File a => [a_size a]
  | Broken _ _ => []
  | Dir _ (Some _) _ => []
  | Dir _ None es =>
      (fix each (l : list (string * node)) : list Z :=
         match l with
         | [] => []
         | (_, c) :: tl => accessibleSizes c ++ each tl
         end) es
  end.

Definition accessibleSizesOf (r : errno + node) : list Z :=
  match r with
  | inl _ => []
  | inr n => accessibleSizes n
  end.

End Scan.
Import Scan.


(* ------------------------------------------------------------------ *)
(** ** The worker pool *)

Module Pool.

Section Pool.
Context {A R W : Type}.

(** What a worker does with one item, on the state the workers share;
    [None] when the goroutine panics. *)
Variable process : A -> W -> option (W * R).

(** The two channels (both buffered with room for every item, so that no
    send blocks), what each goroutine holds, and the shared state.
    - [workChan]: items sent and not yet received, oldest first;
    - [workers]: per goroutine, the item it received and has not answered;
    - [resultsChan]: results sent, oldest first. *)
Record pool := {
  workChan : list A;
  workers : list (option A);
  resultsChan : list R;
  world : W;
  panicked : bool
}.

(** [for i := 0; i < maxWorkers; i++ { go ... }], every item sent, the
    work channel closed. *)
Definition start (maxWorkers : Z) (items : list A) (w : W) : pool :=
  {| workChan := items;
     workers := repeat None (Z.to_nat maxWorkers);
     resultsChan := [];
     world := w;
     panicked := false |}.

Definition set_nth {X : Type} (i : nat) (x : X) (l : list X) : list X :=
  firstn i l ++ x :: skipn (S i) l.

(** A goroutine can move when it holds an item, or when it waits on a
    work channel that is not empty.  (On the closed empty channel its
    [range] loop ends.) *)
Definition ready (q : list A) (slot : option A) : bool :=
  match slot, q with
  | Some _, _ => true
  | None, _ :: _ => true
  | None, [] => false
  end.

Fixpoint readyFrom (q : list A) (i : nat) (l : list (option A)) : list nat :=
  match l with
  | [] => []
  | slot :: tl =>
      if ready q slot then i :: readyFrom q (S i) tl else readyFrom q (S i) tl
  end.

Definition enabled (st : pool) : list nat :=
  if panicked st then [] else readyFrom (workChan st) 0 (workers st).

(** One move of goroutine [i]: receive the oldest item, or process the
    item held and send its result. *)
Definition step (i : nat) (st : pool) : pool :=
  match nth_error (workers st) i with
  | Some (Some x) =>
      match process x (world st) with
      | Some (w', r) =>
          {| workChan := workChan st;
             workers := set_nth i None (workers st);
             resultsChan := resultsChan st ++ [r];
             world := w';
             panicked := panicked st |}
      | None =>
          {| workChan := workChan st;
             workers := workers st;
             resultsChan := resultsChan st;
             world := world st;
             panicked := true |}
      end
  | Some None =>
      match workChan st with
      | x :: q =>
          {| workChan := q;
             workers := set_nth i (Some x) (workers st);
             resultsChan := resultsChan st;
             world := world st;
             panicked := panicked st |}
      | [] => st
      end
  | None => st
  end.

(** The scheduler: each number of the schedule picks one of the goroutines
    that can move (a schedule that runs out picks the first). *)
Definition pick (k : nat) (en : list nat) : nat :=
  nth (k mod List.length en) en 0%nat.

Fixpoint run (fuel : nat) (sched : list nat) (st : pool) : pool :=
  match fuel with
  | O => st
  | S fuel' =>
      match enabled st with
      | [] => st
      | en => run fuel' (tl sched) (step (pick (hd 0%nat sched) en) st)
      end
  end.

(** Every item is received once and answered once: two moves per item. *)
Definition runPool (maxWorkers : Z) (items : list A) (w : W)
    (sched : list nat) : pool :=
  run (2 * List.length items) sched (start maxWorkers items w).

(** Processing a list of items one after the other. *)
Fixpoint serial (l : list A) (w : W) : option (W * list R) :=
  match l with
  | [] => Some (w, [])
  | x :: tl =>
      match process x w with
      | None => None
      | Some (w1, r) =>
          match serial tl w1 with
          | None => None
          | Some (w2, rs) => Some (w2, r :: rs)
          end
      end
  end.

End Pool.

End Pool.
Import Pool.

(* ------------------------------------------------------------------ *)
(** ** The confirmation prompt *)

Module Prompt.

Local Open Scope char_scope.

(** A text all of whose bytes are below 128. *)
Fixpoint isASCII (s : string) : bool :=
  match s with
  | EmptyString => true
  | String c rest => (nat_of_ascii c <? 128)%nat && isASCII rest
  end.

(** [isSpace] of package [fmt] and of [strings.TrimSpace], on the bytes of
    an ASCII text: tab, newline, vertical tab, form feed, carriage return
    and space. *)
Definition isSpace (c : ascii) : bool :=
  match nat_of_ascii c with
  | 9 | 10 | 11 | 12 | 13 | 32 => true
  | _ => false
  end%nat.

Definition isNewline (c : ascii) : bool := Ascii.eqb c "010".

(** [SkipSpace] under [Scanln]: blanks are skipped, a newline is an error
    ([None]); the rest of the input is returned. *)
Fixpoint SkipSpace (s : string) : option string :=
  match s with
  | EmptyString => Some EmptyString
  | String c rest =>
      if isNewline c then None
      else if isSpace c then SkipSpace rest
      else Some s
  end.

(** The next word: the bytes up to the next blank. *)
Fixpoint token (s : string) : string :=
  match s with
  | EmptyString => EmptyString
  | String c rest => if isSpace c then EmptyString else String c (token rest)
  end.

(** [var response string; fmt.Scanln(&response)]: the value of [response]
    afterwards.  The errors of [Scanln] (a newline or the end of the input
    before any word; more words on the line) are dropped by [main]; in the
    first two cases [response] is still empty, in the third the first word
    has been stored. *)
Definition Scanln (stdin : string) : string :=
  match SkipSpace stdin with
  | None => EmptyString
  | Some rest => token rest
  end.

(** [strings.ToLower] on an ASCII text: the letters A to Z. *)
Definition lower (c : ascii) : ascii :=
  let n := nat_of_ascii c in
  if ((65 <=? n) && (n <=? 90))%nat then ascii_of_nat (n + 32) else c.

Fixpoint ToLower (s : string) : string :=
  match s with
  | EmptyString => EmptyString
  | String c rest => String (lower c) (ToLower rest)
  end.

(** [strings.ToLower(response) != "y"] is false. *)
Definition affirmative (stdin : string) : bool :=
  String.eqb (ToLower (Scanln stdin)) "y"%string.

(** The line the user typed: the input up to the first newline. *)
Fixpoint firstLine (s : string) : string :=
  match s with
  | EmptyString => EmptyString
  | String c rest => if isNewline c then EmptyString else String c (firstLine rest)
  end.

Fixpoint dropBlanks (s : string) : string :=
  match s with
  | EmptyString => EmptyString
  | String c rest => if isSpace c then dropBlanks rest else s
  end.

(** The first blank-delimited word of a line ([""] when it has none). *)
Definition firstWord (line : string) : string := token (dropBlanks line).

End Prompt.
Import Prompt.


(* ------------------------------------------------------------------ *)
(** ** [readTargets] and [main] *)

Module Main.

(** The flags [main] reads. *)
Record config := {
  dryRun : bool;
  skipPrompt : bool;
  verbose : bool;
  maxWorkers : Z
}.

(** What the run finds around it: whether [filepath.Abs] fails, the base
    name of the root, the file system below the root, the targets file
    (the error of opening it, or its lines and the error the line scanner
    ended with), the standard input, and the scheduling of the goroutines
    of the two pools. *)
Record env := {
  absErr : option errno;
  rootName : string;
  disk : fs;
  targetsFile : errno + (list string * option errno);
  stdin : string;
  sizeSched : list nat;
  deleteSched : list nat
}.

Definition revString (s : string) : string :=
  string_of_list_ascii (rev (list_ascii_of_string s)).

(** [strings.TrimSpace] on an ASCII text. *)
Definition TrimSpace (s : string) : string :=
  revString (dropBlanks (revString (dropBlanks s))).

Inductive targetsError :=
| CannotOpen (e : errno)
| CannotRead (e : errno)
| NoValidTargets.

(** [readTargets(filename)]. *)
Definition readTargets (file : errno + (list string * option errno))
    : targetsError + list string :=
  match file with
  | inl e => inl (CannotOpen e)
  | inr (lines, scanErr) =>
      let targets :=
        filter (fun line => negb (String.eqb line "") && negb (String.prefix "#" line))
               (map TrimSpace lines) in
      match scanErr with
      | Some e => inl (CannotRead e)
      | None =>
          match targets with
          | [] => inl NoValidTargets
          | _ :: _ => inr targets
          end
      end
  end.

(** *** Size phase *)

Record sizeResult := { sr_path : path; sr_size : Z; sr_err : option errno }.

(** The body of the [range workChan] loop of a size worker. *)
Definition sizeWorker (rootName : string) (p : path) (w : fs)
    : option (fs * sizeResult) :=
  let '(size, err) := dirSize rootName p w in
  match err with
  | Some e => Some (w, {| sr_path := p; sr_size := 0; sr_err := Some e |})
  | None => Some (w, {| sr_path := p; sr_size := size; sr_err := None |})
  end.

Record sizeTally := {
  totalSize : Z;
  dirSizes : list Z;
  sizeErrors : list (path * errno)
}.

Definition sizeTally0 : sizeTally :=
  {| totalSize := 0; dirSizes := []; sizeErrors := [] |}.

(** The body of the [range resultsChan] loop. *)
Definition collectSize (verbose : bool) (t : sizeTally) (r : sizeResult) : sizeTally :=
  let size := match sr_err r with Some _ => 0%Z | None => sr_size r end in
  {| totalSize := add64 (totalSize t) size;
     dirSizes := dirSizes t ++ [size];
     sizeErrors :=
       match sr_err r with
       | Some e => if verbose then sizeErrors t ++ [(sr_path r, e)] else sizeErrors t
       | None => sizeErrors t
       end |}.

Definition sizePhase (c : config) (rootName : string) (dirs : list path) (w : fs)
    (sched : list nat) : sizeTally :=
  fold_left (collectSize (verbose c))
            (resultsChan (runPool (sizeWorker rootName) (maxWorkers c) dirs w sched))
            sizeTally0.

(** *** Deletion phase *)

(** The file system together with the calls of [os.RemoveAll] made so
    far. *)
Record traced := { t_fs : fs; t_calls : list path }.

Record deleteResult := { dr_index : nat; dr_err : option errno }.

(** The body of the [range deleteWorkChan] loop of a deletion worker;
    [dirsToDelete[index]] out of range is a panic. *)
Definition deleteWorker (dirs : list path) (index : nat) (w : traced)
    : option (traced * deleteResult) :=
  match nth_error dirs index with
  | None => None
  | Some dir =>
      let '(w', err) := RemoveAll dir (t_fs w) in
      Some ({| t_fs := w'; t_calls := t_calls w ++ [dir] |},
            {| dr_index := index; dr_err := err |})
  end.

Record deleteTally := {
  deletedSize : Z;
  deletedCount : nat;
  deleteErrors : list (path * errno)
}.

Definition deleteTally0 : deleteTally :=
  {| deletedSize := 0; deletedCount := 0; deleteErrors := [] |}.

(** The body of the [range deleteResultsChan] loop; an index out of range
    of [dirsToDelete] or [dirSizes] is a panic. *)
Definition collectDelete (dirs : list path) (sizes : list Z)
    (t : deleteTally) (r : deleteResult) : option deleteTally :=
  match nth_error dirs (dr_index r) with
  | None => None
  | Some dir =>
      match dr_err r with
      | Some e =>
          Some {| deletedSize := deletedSize t;
                  deletedCount := deletedCount t;
                  deleteErrors := deleteErrors t ++ [(dir, e)] |}
      | None =>
          match nth_error sizes (dr_index r) with
          | None => None
          | Some size =>
              Some {| deletedSize := add64 (deletedSize t) size;
                      deletedCount := S (deletedCount t);
                      deleteErrors := deleteErrors t |}
          end
      end
  end.

Fixpoint collectDeletes (dirs : list path) (sizes : list Z)
    (rs : list deleteResult) (t : deleteTally) : option deleteTally :=
  match rs with
  | [] => Some t
  | r :: rest =>
      match collectDelete dirs sizes t r with
      | None => None
      | Some t' => collectDeletes dirs sizes rest t'
      end
  end.

(** The pool of the deletion phase, over the indices of [dirsToDelete]. *)
Definition deletePool (c : config) (dirs : list path) (w : fs) (sched : list nat)
    : pool (A := nat) (R := deleteResult) (W := traced) :=
  runPool (deleteWorker dirs) (maxWorkers c) (seq 0 (List.length dirs))
          {| t_fs := w; t_calls := [] |} sched.

(** *** [main] *)

Inductive fatal :=
| InvalidPath (e : errno)
| PathDoesNotExist
| TargetsUnusable (e : targetsError)
| WalkFailed (e : errno).

(** How the run ends: [log.Fatalf], one of the four [return]s of [main],
    or a panic. *)
Inductive terminal :=
| Fatal (f : fatal)
| NoneFound
| DryRunDone
| Cancelled
| Reported
| Panic.

Record outcome := {
  exit : terminal;
  after : fs;
  removeCalls : list path;
  found : list path;
  notices : list (path * errno);
  sized : sizeTally;
  deleted : deleteTally
}.

Definition stopped (t : terminal) (w : fs) (s : scanState) (z : sizeTally) : outcome :=
  {| exit := t; after := w; removeCalls := [];
     found := dirsToDelete s; notices := scanErrors s;
     sized := z; deleted := deleteTally0 |}.

(** [main] from the scan on (line 96), once the root and the targets are
    accepted. *)
Definition proceed (c : config) (e : env) (targets : list string) : outcome :=
  let '(s, werr) := scan (verbose c) targets (rootName e) (disk e) in
  match werr with
  | Some err => stopped (Fatal (WalkFailed err)) (disk e) s sizeTally0
  | None =>
  match dirsToDelete s with
  | [] => stopped NoneFound (disk e) s sizeTally0
  | _ :: _ =>
  let z := sizePhase c (rootName e) (dirsToDelete s) (disk e) (sizeSched e) in
  if dryRun c then stopped DryRunDone (disk e) s z
  else if negb (skipPrompt c) && negb (affirmative (stdin e))
  then stopped Cancelled (disk e) s z
  else
    let p := deletePool c (dirsToDelete s) (disk e) (deleteSched e) in
    let w' := t_fs (world p) in
    let calls := t_calls (world p) in
    match (if panicked p then None
           else collectDeletes (dirsToDelete s) (dirSizes z) (resultsChan p) deleteTally0) with
    | None =>
        {| exit := Panic; after := w'; removeCalls := calls;
           found := dirsToDelete s; notices := scanErrors s;
           sized := z; deleted := deleteTally0 |}
    | Some d =>
        {| exit := Reported; after := w'; removeCalls := calls;
           found := dirsToDelete s; notices := scanErrors s;
           sized := z; deleted := d |}
    end
  end end.

(** [main]: the root is made absolute and checked with [os.Stat] and
    [os.IsNotExist], the targets are read, and the run proceeds. *)
Definition main (c : config) (e : env) : outcome :=
  match absErr e with
  | Some err => stopped (Fatal (InvalidPath err)) (disk e) scan0 sizeTally0
  | None =>
      if IsNotExist (statErr [] (disk e))
      then stopped (Fatal PathDoesNotExist) (disk e) scan0 sizeTally0
      else
        match readTargets (targetsFile e) with
        | inl err => stopped (Fatal (TargetsUnusable err)) (disk e) scan0 sizeTally0
        | inr targets => proceed c e targets
        end
  end.

End Main.
Import Main.


(* ------------------------------------------------------------------ *)
(** ** Sample runs *)

Module Samples.

Definition plain (size : Z) : attrs := {| a_size := size; a_rm := None |}.
Definition busy (size : Z) : attrs := {| a_size := size; a_rm := Some EBUSY |}.
Definition folder (es : list (string * node)) : node := Dir (plain 4096) None es.

(** [/proj/node_modules] with 5000 bytes, [/proj/sub/dist] with 200 bytes
    and a directory [inner/dist] in it. *)
Definition project : fs :=
  Some (folder
    [("node_modules", folder [("index.js", File (plain 5000))]);
     ("sub", folder
        [("dist", folder [("inner", folder [("dist", folder [])]);
                          ("out.js", File (plain 200))])])]).

(** Two candidates of different sizes; the first in the order of the
    walk, [dist], cannot be removed. *)
Definition twoSizes : fs :=
  Some (folder
    [("dist", folder [("out.js", File (busy 20))]);
     ("node_modules", folder [("index.js", File (plain 10))])]).

(** A candidate next to a directory that cannot be read. *)
Definition unreadable : fs :=
  Some (folder
    [("dist", folder [("out.js", File (plain 7))]);
     ("secret", Dir (plain 4096) (Some EACCES) [])]).

(** A directory [locked] that may be read and not searched: it lists a
    directory [cache], a directory [dist] and a file [notes], and the
    [lstat] of each of them is refused. *)
Definition locked : fs :=
  Some (folder
    [("locked", folder [("cache", Broken true EACCES);
                        ("dist", Broken true EACCES);
                        ("notes", Broken false EACCES)]);
     ("node_modules", folder [("index.js", File (plain 10))])]).

Definition flags (dry yes loud : bool) (workers : Z) : config :=
  {| dryRun := dry; skipPrompt := yes; verbose := loud; maxWorkers := workers |}.

Definition surroundings (w : fs) (input : string) (s1 s2 : list nat) : env :=
  {| absErr := None;
     rootName := "proj";
     disk := w;
     targetsFile := inr (["# build output"; "node_modules"; " dist "; ""], None);
     stdin := input;
     sizeSched := s1;
     deleteSched := s2 |}.

(** Two size workers of which the second answers first. *)
Definition secondFirst : list nat := [0; 1; 1; 0]%nat.

Definition newline : string := String "010"%char EmptyString.

End Samples.

(* ================================================================== *)
(** * Properties *)

(** The sample trees list their entries in the order of [os.ReadDir]. *)
Lemma samples_in_listing_order :
  lexicalFs Samples.project = true /\
  lexicalFs Samples.twoSizes = true /\
  lexicalFs Samples.unreadable = true /\
  lexicalFs Samples.locked = true.
Proof. repeat split. Qed.

(* ------------------------------------------------------------------ *)
(** ** [dirSize] *)

Module SizeFacts.

(** Sizes reachable through the entries of a readable directory. *)
Fixpoint accessibleEntries (l : list (string * node)) : list Z :=
  match l with
  | [] => []
  | (_, c) :: tl => accessibleSizes c ++ accessibleEntries tl
  end.

Lemma accessibleSizes_Dir a es :
  accessibleSizes (Dir a None es) = accessibleEntries es.
Proof.
  simpl. induction es as [|[nm c] tl IH]; simpl; [reflexivity|].
  now rewrite IH.
Qed.

(** Walking with [sizeFn] adds every reachable size to the accumulator and
    never returns a non-nil value. *)
Lemma walk_sizeFn n : forall p name s,
  walk sizeFn p name n s = (fold_left add64 (accessibleSizes n) s, None).
Proof.
  induction n as [a|d e|a rd es IH] using node_ind'; intros p name s.
  - reflexivity.
  - reflexivity.
  - rewrite walk_Dir. destruct rd as [e|]; [reflexivity|].
    cbn [sizeFn info_of i_isDir negb]. rewrite accessibleSizes_Dir.
    revert s. induction IH as [|[nm c] tl Hc _ IHtl]; intros s.
    + reflexivity.
    + cbn [walkEntries accessibleEntries]. rewrite fold_left_app.
      simpl in Hc. destruct c as [a'|a' rd' es'|d' e'].
      * rewrite Hc. cbn [isDir]. apply IHtl.
      * rewrite Hc. apply IHtl.
      * cbn [sizeFn accessibleSizes fold_left]. apply IHtl.
Qed.

(** Walking with [errFn] never returns a non-nil value either. *)
Lemma walk_errFn n : forall p name s, snd (walk errFn p name n s) = None.
Proof.
  induction n as [a|d e|a rd es IH] using node_ind'; intros p name s.
  - reflexivity.
  - reflexivity.
  - rewrite walk_Dir. destruct rd as [e|]; [reflexivity|].
    cbn [errFn]. generalize s.
    induction IH as [|[nm c] tl Hc _ IHtl]; intros s0.
    + reflexivity.
    + cbn [walkEntries]. simpl in Hc. destruct c as [a'|a' rd' es'|d' e'].
      * specialize (Hc (p ++ [nm]) nm s0).
        destruct (walk errFn _ _ (File a') s0) as [s' r]. simpl in Hc. subst r.
        apply IHtl.
      * specialize (Hc (p ++ [nm]) nm s0).
        destruct (walk errFn _ _ (Dir a' rd' es') s0) as [s' r]. simpl in Hc.
        subst r. apply IHtl.
      * cbn [errFn]. apply IHtl.
Qed.

Lemma dirSize_spec rootName p w :
  dirSize rootName p w =
  (fold_left add64 (accessibleSizesOf (lstat p w)) 0%Z, None).
Proof.
  unfold dirSize, Walk. destruct (lstat p w) as [e|n].
  - reflexivity.
  - rewrite walk_sizeFn. reflexivity.
Qed.

(** The specification's wording: the error returned is the first error of the
    traversal, [nil] when there was none. *)
Definition dirSize_returns_first_error (rootName : string) (p : path) (w : fs) : Prop :=
  snd (dirSize rootName p w) = hd_error (traversalErrors rootName p w).

Definition plain (size : Z) : attrs := {| a_size := size; a_rm := None |}.

(** A directory with a file of 5 bytes and an entry that cannot be
    [lstat]ed. *)
Definition partlyBroken : fs :=
  Some (Dir (plain 4096) None
          [("a", File (plain 5)); ("b", Broken false EACCES)]).

(** Without overflow the [int64] sum is the sum. *)
Lemma fold_add64_exact l :
  in_range (zsum l) -> in_range (fold_left add64 l 0%Z) ->
  fold_left add64 l 0%Z = zsum l.
Proof.
  intros H1 H2. rewrite <- (wrap64_small _ H2), fold_add64.
  simpl. now apply wrap64_small.
Qed.

End SizeFacts.

(** C4 (as the code has it): [dirSize] never aborts early, whatever errors
    the traversal meets: it returns the [int64] sum (the sum reduced to 64
    bits, the sum itself when that fits) of the sizes of all non-directory
    entries that can be reached, entries that cannot be read counting for
    nothing; and the error it returns is always [nil], also when entries
    could not be read. *)
Theorem dirSize_sums_reachable_and_returns_nil :
  forall (rootName : string) (p : path) (w : fs),
    dirSize rootName p w =
      (wrap64 (zsum (accessibleSizesOf (lstat p w))), None) /\
    (in_range (zsum (accessibleSizesOf (lstat p w))) ->
     fst (dirSize rootName p w) = zsum (accessibleSizesOf (lstat p w))).
Proof.
  intros rootName p w. rewrite SizeFacts.dirSize_spec.
  set (sizes := accessibleSizesOf (lstat p w)).
  pose proof (fold_add64_zero sizes) as Hsum.
  split.
  - now rewrite Hsum.
  - intros Hfit. cbn [fst]. rewrite Hsum. now apply wrap64_small.
Qed.

Lemma dirSize_sums_reachable_and_returns_nil_witness :
  in_range (zsum (accessibleSizesOf (lstat ["sub"; "dist"] Samples.project))) /\
  dirSize "proj" ["sub"; "dist"] Samples.project =
    (wrap64 (zsum (accessibleSizesOf (lstat ["sub"; "dist"] Samples.project))), None) /\
  fst (dirSize "proj" ["sub"; "dist"] Samples.project) =
    zsum (accessibleSizesOf (lstat ["sub"; "dist"] Samples.project)).
Proof.
  assert (Hfit : in_range (zsum (accessibleSizesOf (lstat ["sub"; "dist"] Samples.project))))
    by (unfold in_range, half; simpl; lia).
  split; [exact Hfit|].
  destruct (dirSize_sums_reachable_and_returns_nil "proj" ["sub"; "dist"] Samples.project)
    as [Hsum Hexact].
  split; [exact Hsum|exact (Hexact Hfit)].
Defined.

(** C4 fails as stated: a traversal that met an error ([EACCES] on entry
    [b]) still returns the sum 5 with a [nil] error, not the first error. *)
Lemma dirSize_first_error_dropped :
  traversalErrors "proj" [] SizeFacts.partlyBroken = [EACCES] /\
  dirSize "proj" [] SizeFacts.partlyBroken = (5%Z, None) /\
  ~ SizeFacts.dirSize_returns_first_error "proj" [] SizeFacts.partlyBroken.
Proof.
  split; [reflexivity|]. split; [reflexivity|].
  unfold SizeFacts.dirSize_returns_first_error. simpl. discriminate.
Qed.

(* ------------------------------------------------------------------ *)
(** ** The confirmation prompt *)

Module PromptFacts.

Lemma isNewline_isSpace c : isNewline c = true -> isSpace c = true.
Proof.
  unfold isNewline. intros H. apply Ascii.eqb_eq in H. subst c. reflexivity.
Qed.

Lemma token_firstLine s : token (firstLine s) = token s.
Proof.
  induction s as [|c s IH]; simpl; [reflexivity|].
  destruct (isNewline c) eqn:Hn.
  - now rewrite (isNewline_isSpace c Hn).
  - simpl. destruct (isSpace c); [reflexivity|]. now rewrite IH.
Qed.

(** What [Scanln] stores is the first word of the line typed. *)
Lemma Scanln_firstWord stdin : Scanln stdin = firstWord (firstLine stdin).
Proof.
  unfold Scanln, firstWord.
  induction stdin as [|c s IH]; simpl; [reflexivity|].
  destruct (isNewline c) eqn:Hn; [reflexivity|].
  simpl. destruct (isSpace c) eqn:Hs; [exact IH|].
  simpl. rewrite Hs. now rewrite token_firstLine.
Qed.

Lemma lower_y c : lower c = "y"%char -> c = "y"%char \/ c = "Y"%char.
Proof.
  destruct c as [[] [] [] [] [] [] [] []]; vm_compute; intros H;
    (discriminate H || auto).
Qed.

Lemma ToLower_y s : ToLower s = "y" <-> s = "y" \/ s = "Y".
Proof.
  split.
  - destruct s as [|c [|c' s']]; simpl; try discriminate.
    intros H. injection H as H. destruct (lower_y c H); subst; auto.
  - intros [->| ->]; reflexivity.
Qed.

End PromptFacts.

(* ------------------------------------------------------------------ *)
(** ** The worker pool *)

Module PoolFacts.

Section Facts.
Context {A R W : Type}.
Variable process : A -> W -> option (W * R).

(** The items the goroutines hold. *)
Fixpoint held (l : list (option A)) : list A :=
  match l with
  | [] => []
  | Some x :: tl => x :: held tl
  | None :: tl => held tl
  end.

(** Moves still to be made: two per queued item, one per item held. *)
Definition moves (st : @pool A R W) : nat :=
  2 * List.length (workChan st) + List.length (held (workers st)).

Lemma held_app l1 l2 : held (l1 ++ l2) = held l1 ++ held l2.
Proof.
  induction l1 as [|[x|] l1 IH]; simpl; [reflexivity| |]; now rewrite IH.
Qed.

Lemma nth_error_split {X : Type} (l : list X) i y :
  nth_error l i = Some y -> l = firstn i l ++ y :: skipn (S i) l.
Proof.
  revert i. induction l as [|x l IH]; intros [|i] H; simpl in *;
    try discriminate.
  - now inversion H.
  - f_equal. now apply IH.
Qed.

Lemma held_set_nth l i slot slot' :
  nth_error l i = Some slot ->
  exists h1 h2,
    held l = h1 ++ held [slot] ++ h2 /\
    held (set_nth i slot' l) = h1 ++ held [slot'] ++ h2.
Proof.
  intros H. exists (held (firstn i l)), (held (skipn (S i) l)). split.
  - rewrite (nth_error_split l i slot H) at 1.
    rewrite held_app. f_equal. destruct slot; reflexivity.
  - unfold set_nth. rewrite held_app. f_equal. destruct slot'; reflexivity.
Qed.

Lemma readyFrom_In (q : list A) : forall l k i,
  In i (readyFrom q k l) ->
  exists slot, nth_error l (i - k) = Some slot /\ k <= i /\ ready q slot = true.
Proof.
  induction l as [|slot l IH]; intros k i H; simpl in H; [contradiction|].
  assert (Hrec : In i (readyFrom q (S k) l) ->
                 exists slot0, nth_error (slot :: l) (i - k) = Some slot0 /\
                               k <= i /\ ready q slot0 = true).
  { intros H'. destruct (IH _ _ H') as (s0 & Hn & Hle & Hr).
    exists s0. split; [|split; [lia|assumption]].
    replace (i - k) with (S (i - S k)) by lia. exact Hn. }
  destruct (ready q slot) eqn:Hr.
  - destruct H as [<-|H]; [|auto].
    exists slot. rewrite Nat.sub_diag. auto.
  - auto.
Qed.

Lemma readyFrom_nil (q : list A) : forall l k,
  readyFrom q k l = [] -> forall slot, In slot l -> ready q slot = false.
Proof.
  induction l as [|s l IH]; intros k H slot Hin; [contradiction|].
  simpl in H. destruct (ready q s) eqn:Hr; [discriminate|].
  destruct Hin as [<-|Hin]; [assumption|]. eapply IH; eauto.
Qed.

Lemma held_idle (q : list A) l :
  (forall slot, In slot l -> ready q slot = false) -> held l = [].
Proof.
  induction l as [|slot l IH]; intros H; [reflexivity|].
  pose proof (H slot (or_introl eq_refl)) as Hs.
  destruct slot; [discriminate|]. simpl. apply IH.
  intros s Hin. apply H. now right.
Qed.

Lemma pick_In k i en : In (pick k (i :: en)) (i :: en).
Proof.
  unfold pick. apply nth_In. apply Nat.mod_upper_bound. simpl. lia.
Qed.

(** The theorems below are about a pool whose items do not make a worker
    panic. *)
Variable items : list A.
Variable w0 : W.
Hypothesis safe : forall x w, In x items -> process x w <> None.

(** What holds between two moves: nothing has panicked, every item is
    answered, held or queued, and the results sent and the shared state
    are those of processing the answered items one after the other, in
    the order their results were sent. *)
Definition Inv (st : @pool A R W) : Prop :=
  panicked st = false /\
  exists done,
    Permutation (done ++ held (workers st) ++ workChan st) items /\
    serial process done w0 = Some (world st, resultsChan st).

Lemma serial_snoc done x w rs w1 r :
  serial process done w0 = Some (w, rs) ->
  process x w = Some (w1, r) ->
  serial process (done ++ [x]) w0 = Some (w1, rs ++ [r]).
Proof.
  generalize w0 as v. revert rs.
  induction done as [|y done IH]; intros rs v H Hp; simpl in *.
  - inversion H; subst. rewrite Hp. reflexivity.
  - destruct (process y v) as [[v1 r1]|]; [|discriminate].
    destruct (serial process done v1) as [[v2 rs2]|] eqn:Hs; [|discriminate].
    inversion H; subst. erewrite IH; eauto. reflexivity.
Qed.

Lemma Inv_start maxWorkers : Inv (start maxWorkers items w0).
Proof.
  split; [reflexivity|]. exists []. split; [|reflexivity].
  simpl. replace (held (repeat None (Z.to_nat maxWorkers))) with (@nil A).
  - apply Permutation_refl.
  - induction (Z.to_nat maxWorkers); simpl; auto.
Qed.

(** A move of a goroutine that can move keeps the invariant and uses up
    one move. *)
Lemma step_Inv (st : @pool A R W) i :
  Inv st -> In i (enabled st) ->
  Inv (step process i st) /\ S (moves (step process i st)) = moves st.
Proof.
  intros (Hp & done & Hperm & Hser) Hin.
  unfold enabled in Hin. rewrite Hp in Hin.
  destruct (readyFrom_In _ _ _ _ Hin) as (slot & Hnth & _ & Hready).
  rewrite Nat.sub_0_r in Hnth. unfold step. rewrite Hnth.
  destruct slot as [x|].
  - (* process and send *)
    destruct (held_set_nth _ _ _ None Hnth) as (h1 & h2 & Hh & Hh').
    assert (Hx : In x items).
    { eapply Permutation_in; [exact Hperm|]. rewrite Hh.
      apply in_or_app. right. apply in_or_app. left.
      apply in_or_app. right. simpl. auto. }
    destruct (process x (world st)) as [[w1 r]|] eqn:Hpx;
      [|exfalso; eapply safe; eauto].
    split.
    + split; [exact Hp|]. exists (done ++ [x]). split.
      * cbn [workers workChan]. rewrite Hh'. rewrite Hh in Hperm.
        simpl in *. rewrite <- Hperm. rewrite <- !app_assoc. simpl.
        apply Permutation_app_head. apply Permutation_middle.
      * eapply serial_snoc; eauto.
    + unfold moves. cbn [workers workChan]. rewrite Hh, Hh'.
      rewrite !length_app. simpl. lia.
  - (* receive *)
    destruct (workChan st) as [|x q] eqn:Hq; [discriminate|].
    destruct (held_set_nth _ _ _ (Some x) Hnth) as (h1 & h2 & Hh & Hh').
    split.
    + split; [exact Hp|]. exists done. split; [|exact Hser].
      cbn [workers workChan]. rewrite Hh'. rewrite Hh in Hperm.
      simpl in *. rewrite <- Hperm. apply Permutation_app_head.
      rewrite <- !app_assoc. apply Permutation_app_head. simpl.
      apply Permutation_middle.
    + unfold moves. cbn [workers workChan]. rewrite Hh, Hh', Hq.
      rewrite !length_app. simpl. lia.
Qed.

(** With fuel for every move left, the run ends in a state where no
    goroutine can move, and the invariant still holds. *)
Lemma run_Inv fuel : forall sched st,
  Inv st -> moves st <= fuel ->
  Inv (run process fuel sched st) /\ enabled (run process fuel sched st) = [].
Proof.
  induction fuel as [|fuel IH]; intros sched st HI Hm.
  - split; [exact HI|]. simpl.
    destruct (enabled st) as [|i en] eqn:He; [reflexivity|].
    assert (Hin : In i (enabled st)) by (rewrite He; left; reflexivity).
    destruct (step_Inv st i HI Hin) as [_ Hs]. lia.
  - simpl. destruct (enabled st) as [|i en] eqn:He.
    + split; [exact HI|exact He].
    + assert (Hin : In (pick (hd 0 sched) (i :: en)) (enabled st))
        by (rewrite He; apply pick_In).
      destruct (step_Inv st _ HI Hin) as [HI' Hs].
      apply IH; [exact HI'|lia].
Qed.

Lemma moves_start maxWorkers :
  moves (start maxWorkers items w0) = 2 * List.length items.
Proof.
  unfold moves. simpl.
  replace (held (repeat None (Z.to_nat maxWorkers))) with (@nil A).
  - simpl. lia.
  - induction (Z.to_nat maxWorkers); simpl; auto.
Qed.

Lemma workers_length_step i (st : @pool A R W) :
  List.length (workers (step process i st)) = List.length (workers st).
Proof.
  unfold step. destruct (nth_error (workers st) i) as [slot|] eqn:Hn; [|reflexivity].
  assert (Hlen : forall y, List.length (set_nth i y (workers st)) =
                           List.length (workers st)).
  { intros y. rewrite (nth_error_split _ _ _ Hn) at 2. unfold set_nth.
    rewrite !length_app. reflexivity. }
  destruct slot as [x|].
  - destruct (process x (world st)) as [[w1 r]|]; simpl; auto.
  - destruct (workChan st); simpl; auto.
Qed.

Lemma workers_length_run fuel : forall sched st,
  List.length (workers (run process fuel sched st)) = List.length (workers st).
Proof.
  induction fuel as [|fuel IH]; intros sched st; simpl; [reflexivity|].
  destruct (enabled st); [reflexivity|].
  rewrite IH. apply workers_length_step.
Qed.

(** The pool drains: with at least one worker, when no goroutine can move
    every item has been answered; the results and the final shared state
    are those of processing the items one after the other in some order. *)
Lemma runPool_serial maxWorkers sched :
  (1 <= maxWorkers)%Z ->
  let final := runPool process maxWorkers items w0 sched in
  panicked final = false /\
  enabled final = [] /\
  exists order,
    Permutation order items /\
    serial process order w0 = Some (world final, resultsChan final).
Proof.
  intros HW final.
  destruct (run_Inv (2 * List.length items) sched (start maxWorkers items w0)
              (Inv_start maxWorkers)) as [(Hp & done & Hperm & Hser) Hen].
  { rewrite moves_start. lia. }
  fold (runPool process maxWorkers items w0 sched) in *. fold final in Hp, Hperm, Hser, Hen.
  split; [exact Hp|]. split; [exact Hen|].
  exists done. split; [|exact Hser].
  unfold enabled in Hen. rewrite Hp in Hen.
  assert (Hlen : List.length (workers final) = Z.to_nat maxWorkers).
  { unfold final, runPool. rewrite workers_length_run. simpl.
    apply repeat_length. }
  pose proof (readyFrom_nil _ _ _ Hen) as Hnone.
  assert (Hq : workChan final = []).
  { destruct (workers final) as [|slot l] eqn:Hw; [simpl in Hlen; lia|].
    specialize (Hnone slot (or_introl eq_refl)).
    destruct slot; [discriminate|]. simpl in Hnone.
    destruct (workChan final); [reflexivity|discriminate]. }
  assert (Hh : held (workers final) = []) by (eapply held_idle; eauto).
  rewrite Hq, Hh, !app_nil_r in Hperm. exact Hperm.
Qed.

End Facts.

(** Without a worker nothing moves: the results channel is closed empty
    and the shared state is untouched. *)
Lemma runPool_no_worker {A R W : Type} (process : A -> W -> option (W * R))
    maxWorkers items w sched :
  (maxWorkers <= 0)%Z ->
  runPool process maxWorkers items w sched = start maxWorkers items w.
Proof.
  intros H. unfold runPool.
  assert (He : enabled (@start A R W maxWorkers items w) = []).
  { unfold enabled, start. simpl.
    replace (Z.to_nat maxWorkers) with 0%nat by lia. reflexivity. }
  destruct (2 * List.length items)%nat; simpl; [reflexivity|].
  now rewrite He.
Qed.

Lemma serial_length {A R W : Type} (process : A -> W -> option (W * R)) l :
  forall w w' rs, serial process l w = Some (w', rs) ->
                  List.length rs = List.length l.
Proof.
  induction l as [|x l IH]; intros w w' rs H; simpl in H.
  - inversion H. reflexivity.
  - destruct (process x w) as [[w1 r]|]; [|discriminate].
    destruct (serial process l w1) as [[w2 rs2]|] eqn:Hs; [|discriminate].
    inversion H; subst. simpl. f_equal. eauto.
Qed.

End PoolFacts.

(* ------------------------------------------------------------------ *)
(** ** The scan phase *)

Module ScanFacts.

Section Targets.
Variable targets : list string.

(** Exact comparison of a name with the targets, as membership. *)
Lemma isTarget_iff name : isTarget targets name = true <-> In name targets.
Proof.
  induction targets as [|t ts IH]; simpl.
  - split; [discriminate|contradiction].
  - destruct (String.eqb_spec name t) as [->|Hne].
    + split; auto.
    + rewrite IH. split; [auto|]. intros [Heq|H]; [congruence|exact H].
Qed.

Lemma isTarget_not name : isTarget targets name = false <-> ~ In name targets.
Proof.
  rewrite <- isTarget_iff. destruct (isTarget targets name); split;
    congruence || (intros H; now elim H) || auto.
Qed.

(** The directories the walk is to report, read off the tree: an entry
    listed as a directory with a target name is reported and not entered;
    any other directory is entered. *)
Fixpoint matched (p : path) (name : string) (n : node) : list path :=
  match n with
  | Dir _ _ es =>
      if isTarget targets name then [p]
      else (fix each (l : list (string * node)) : list path :=
              match l with
              | [] => []
              | (nm, c) :: tl => matched (p ++ [nm]) nm c ++ each tl
              end) es
  | Broken true _ => if isTarget targets name then [p] else []
  | _ => []
  end.

Fixpoint matchedEntries (p : path) (l : list (string * node)) : list path :=
  match l with
  | [] => []
  | (nm, c) :: tl => matched (p ++ [nm]) nm c ++ matchedEntries p tl
  end.

(** The access errors the walk meets, read off the tree: a directory that
    is entered and cannot be read (completely). *)
Fixpoint accessErrors (p : path) (name : string) (n : node) : list (path * errno) :=
  match n with
  | Dir _ rd es =>
      if isTarget targets name then []
      else match rd with Some e => [(p, e)] | None => [] end ++
           (fix each (l : list (string * node)) : list (path * errno) :=
              match l with
              | [] => []
              | (nm, c) :: tl => accessErrors (p ++ [nm]) nm c ++ each tl
              end) es
  | Broken true e => if isTarget targets name then [] else [(p, e)]
  | _ => []
  end.

Fixpoint accessErrorsEntries (p : path) (l : list (string * node)) : list (path * errno) :=
  match l with
  | [] => []
  | (nm, c) :: tl => accessErrors (p ++ [nm]) nm c ++ accessErrorsEntries p tl
  end.

Lemma matched_Dir p name a rd es :
  matched p name (Dir a rd es) =
  if isTarget targets name then [p] else matchedEntries p es.
Proof.
  simpl. destruct (isTarget targets name); [reflexivity|].
  induction es as [|[nm c] tl IH]; simpl; [reflexivity|]. now rewrite IH.
Qed.

Lemma accessErrors_Dir p name a rd es :
  accessErrors p name (Dir a rd es) =
  if isTarget targets name then []
  else match rd with Some e => [(p, e)] | None => [] end ++ accessErrorsEntries p es.
Proof.
  simpl. destruct (isTarget targets name); [reflexivity|]. f_equal.
  induction es as [|[nm c] tl IH]; simpl; [reflexivity|]. now rewrite IH.
Qed.

(** Candidates and access errors of a whole walk from the root. *)
Definition matchedFrom (rootName : string) (w : fs) : list path :=
  match lstat [] w with
  | inl _ => []
  | inr n => matched [] rootName n
  end.

Definition accessErrorsFrom (rootName : string) (w : fs) : list (path * errno) :=
  match lstat [] w with
  | inl e => [([], e)]
  | inr n => accessErrors [] rootName n
  end.

Definition record (verbose : bool) (s : scanState)
    (ds : list path) (es : list (path * errno)) : scanState :=
  {| dirsToDelete := dirsToDelete s ++ ds;
     scanErrors := scanErrors s ++ (if verbose then es else []) |}.

Lemma record_nil verbose s : record verbose s [] [] = s.
Proof.
  destruct s as [ds es]. unfold record.
  destruct verbose; simpl; now rewrite !app_nil_r.
Qed.

Lemma record_record verbose s d1 e1 d2 e2 :
  record verbose (record verbose s d1 e1) d2 e2 =
  record verbose s (d1 ++ d2) (e1 ++ e2).
Proof.
  unfold record. simpl. rewrite <- !app_assoc. destruct verbose; reflexivity.
Qed.

(** The walk with the scan callback appends exactly the candidates and
    (in verbose mode only) the access errors read off the tree, and it
    never returns a non-nil value. *)
Lemma walkDir_scanFn verbose n : forall p name s,
  walkDir (scanFn verbose targets) p name n s =
  (record verbose s (matched p name n) (accessErrors p name n), None).
Proof.
  induction n as [a|d e|a rd es IH] using node_ind'; intros p name s.
  - cbn [walkDir scanFn info_of i_isDir negb matched accessErrors].
    now rewrite record_nil.
  - destruct d.
    + cbn [walkDir scanFn info_of i_isDir i_name negb matched accessErrors].
      destruct (isTarget targets name) eqn:Ht.
      * unfold record. destruct verbose; simpl; now rewrite app_nil_r.
      * unfold record. destruct s as [ds ers].
        destruct verbose; simpl; now rewrite !app_nil_r.
    + cbn [walkDir scanFn info_of i_isDir negb matched accessErrors].
      now rewrite record_nil.
  - rewrite walkDir_Dir, matched_Dir, accessErrors_Dir.
    cbn [scanFn info_of i_isDir i_name negb].
    destruct (isTarget targets name) eqn:Ht.
    + unfold record. destruct verbose; simpl; now rewrite app_nil_r.
    + assert (Hes : forall s0,
        walkDirEntries (scanFn verbose targets) p es s0 =
        (record verbose s0 (matchedEntries p es) (accessErrorsEntries p es), None)).
      { induction IH as [|[nm c] tl Hc _ IHtl]; intros s0.
        - simpl. now rewrite record_nil.
        - cbn [walkDirEntries matchedEntries accessErrorsEntries].
          simpl in Hc. rewrite Hc, IHtl, record_record. reflexivity. }
      destruct rd as [e|].
      * cbn [scanFn]. rewrite Hes. f_equal.
        replace (if verbose then _ else s)
          with (record verbose s [] [(p, e)]).
        -- now rewrite record_record.
        -- unfold record. destruct s as [ds ers]. simpl.
           rewrite app_nil_r. destruct verbose; [reflexivity|].
           now rewrite app_nil_r.
      * rewrite Hes. reflexivity.
Qed.

(** The scan phase as a whole. *)
Lemma scan_spec verbose rootName w :
  scan verbose targets rootName w =
  ({| dirsToDelete := matchedFrom rootName w;
      scanErrors := if verbose then accessErrorsFrom rootName w else [] |},
   None).
Proof.
  unfold scan, WalkDir, matchedFrom, accessErrorsFrom.
  destruct (lstat [] w) as [e|n].
  - simpl. destruct verbose; reflexivity.
  - rewrite walkDir_scanFn. reflexivity.
Qed.

(** *** What is reported, in terms of the tree alone *)

(** Entries of one directory have distinct names. *)
Fixpoint distinct (l : list string) : bool :=
  match l with
  | [] => true
  | x :: tl => negb (existsb (String.eqb x) tl) && distinct tl
  end.

Fixpoint uniqueNames (n : node) : bool :=
  match n with
  | Dir _ _ es =>
      distinct (map fst es) &&
      (fix each (l : list (string * node)) : bool :=
         match l with
         | [] => true
         | (_, c) :: tl => uniqueNames c && each tl
         end) es
  | _ => true
  end.

Definition uniqueNamesFs (w : fs) : bool :=
  match w with
  | None => true
  | Some n => uniqueNames n
  end.

(** [q'] is a proper ancestor of [q]. *)
Definition above (q' q : path) : Prop := exists r, r <> [] /\ q = q' ++ r.

(** The directories that are to be reported: [q] names an entry that is
    listed as a directory, its base name is one of the targets, and no
    directory above it has the name of a target. *)
Definition reportable (rootName : string) (w : fs) (q : path) : Prop :=
  (exists n c, lstat [] w = inr n /\ entry_at q n = Some c /\ listedDir c = true) /\
  In (baseName rootName q) targets /\
  forall q', above q' q -> ~ In (baseName rootName q') targets.

(** The same below one entry, as a derivation. *)
Inductive topmatch : string -> node -> path -> Prop :=
| top_here name n :
    listedDir n = true -> isTarget targets name = true -> topmatch name n []
| top_below name a rd es nm c q :
    isTarget targets name = false -> In (nm, c) es -> topmatch nm c q ->
    topmatch name (Dir a rd es) (nm :: q).

Lemma distinct_NoDup l : distinct l = true -> NoDup l.
Proof.
  induction l as [|x l IH]; simpl; intros H; constructor;
    apply andb_prop in H as [Hx Hl]; [|auto].
  intros Hin.
  assert (Hex : existsb (String.eqb x) l = true).
  { apply existsb_exists. exists x. split; [assumption|apply String.eqb_refl]. }
  rewrite Hex in Hx. discriminate.
Qed.

Lemma uniqueNames_Dir a rd es :
  uniqueNames (Dir a rd es) = true ->
  NoDup (map fst es) /\ Forall (fun e => uniqueNames (snd e) = true) es.
Proof.
  simpl. intros H. apply andb_prop in H as [Hd He].
  split; [now apply distinct_NoDup|]. clear Hd.
  induction es as [|[nm c] tl IH]; constructor;
    apply andb_prop in He as [Hc Ht]; auto.
Qed.

Lemma find_entry_In nm c es :
  NoDup (map fst es) -> In (nm, c) es -> find_entry nm es = Some c.
Proof.
  induction es as [|[nm' c'] tl IH]; simpl; intros Hnd Hin; [contradiction|].
  inversion Hnd as [|? ? Hnot Hnd']; subst.
  destruct Hin as [Heq|Hin].
  - inversion Heq; subst. now rewrite String.eqb_refl.
  - destruct (String.eqb_spec nm nm') as [->|Hne]; [|auto].
    exfalso. apply Hnot. apply (in_map fst) in Hin. exact Hin.
Qed.

Lemma In_find_entry nm c es : find_entry nm es = Some c -> In (nm, c) es.
Proof.
  induction es as [|[nm' c'] tl IH]; simpl; intros H; [discriminate|].
  destruct (String.eqb_spec nm nm') as [->|Hne].
  - inversion H; subst. now left.
  - right. auto.
Qed.

Lemma last_cons (x d : string) l : last (x :: l) d = last l x.
Proof.
  revert x d. induction l as [|y l IH]; intros x d; [reflexivity|].
  change (last (x :: y :: l) d) with (last (y :: l) d).
  now rewrite !IH.
Qed.

(** What [matched] lists is what [topmatch] derives. *)
Lemma matched_topmatch n : forall p name r,
  In r (matched p name n) <-> exists q, r = p ++ q /\ topmatch name n q.
Proof.
  induction n as [a|d e|a rd es IH] using node_ind'; intros p name r.
  - simpl. split; [contradiction|]. intros (q & _ & H).
    inversion H; subst; discriminate.
  - assert (Hnone : (exists q, r = p ++ q /\ topmatch name (Broken d e) q) ->
                    d = true /\ isTarget targets name = true /\ r = p).
    { intros (q & -> & H). inversion H; subst. rewrite app_nil_r. auto. }
    destruct d; simpl.
    + destruct (isTarget targets name) eqn:Ht.
      * split.
        -- intros [<-|[]]. exists []. rewrite app_nil_r. split; [reflexivity|].
           now constructor.
        -- intros H. apply Hnone in H as (_ & _ & ->). now left.
      * split; [contradiction|]. intros H. apply Hnone in H as (_ & H & _).
        discriminate.
    + split; [contradiction|]. intros H. apply Hnone in H as (H & _).
      discriminate.
  - rewrite matched_Dir. destruct (isTarget targets name) eqn:Ht.
    + split.
      * intros [<-|[]]. exists []. rewrite app_nil_r. split; [reflexivity|].
        now constructor.
      * intros (q & -> & H). inversion H; subst; [|congruence].
        rewrite app_nil_r. now left.
    + assert (Hes : In r (matchedEntries p es) <->
                    exists nm c q, In (nm, c) es /\ r = p ++ nm :: q /\ topmatch nm c q).
      { clear Ht. induction IH as [|[nm c] tl Hc _ IHtl].
        - simpl. split; [contradiction|]. intros (? & ? & ? & [] & _).
        - cbn [matchedEntries]. rewrite in_app_iff, IHtl. simpl in Hc.
          rewrite Hc. split.
          + intros [(q & -> & Hq)|(nm' & c' & q & Hin & -> & Hq)].
            * exists nm, c, q. rewrite <- app_assoc. simpl. auto.
            * exists nm', c', q. simpl. auto.
          + intros (nm' & c' & q & [Heq|Hin] & -> & Hq).
            * inversion Heq; subst. left. exists q.
              rewrite <- app_assoc. auto.
            * right. exists nm', c', q. auto. }
      rewrite Hes. split.
      * intros (nm & c & q & Hin & -> & Hq). exists (nm :: q).
        split; [reflexivity|]. now apply top_below with (c := c).
      * intros (q & -> & H). inversion H; subst; [congruence|].
        eauto 8.
Qed.

(** Under distinct names, a derivation is the same as a description by
    the listings and the base names. *)
Lemma topmatch_entry n : forall name q,
  uniqueNames n = true ->
  (topmatch name n q <->
   (exists c, entry_at q n = Some c /\ listedDir c = true) /\
   In (last q name) targets /\
   forall q', above q' q -> ~ In (last q' name) targets).
Proof.
  intros name q. revert n name.
  induction q as [|nm q IH]; intros n name Hu.
  - split.
    + intros H. inversion H; subst. split; [simpl; eauto|].
      split; [now apply isTarget_iff|].
      intros q' (r & Hr & Heq). symmetry in Heq.
      apply app_eq_nil in Heq as [_ ->]. congruence.
    + intros ((c & Hc & Hl) & Ht & _). simpl in Hc. inversion Hc; subst c.
      constructor; [exact Hl|now apply isTarget_iff].
  - split.
    + intros H. inversion H as [|? a rd es ? c ? Hn Hin Hc]; subst.
      destruct (uniqueNames_Dir _ _ _ Hu) as [Hnd Hall].
      assert (Huc : uniqueNames c = true).
      { rewrite Forall_forall in Hall. apply (Hall (nm, c) Hin). }
      apply (IH c nm Huc) in Hc as (Hdir & Ht & Habove).
      split; [|split].
      * cbn [entry_at]. now rewrite (find_entry_In nm c es Hnd Hin).
      * now rewrite last_cons.
      * intros q' (r & Hr & Heq). destruct q' as [|x q'].
        -- now apply isTarget_not.
        -- simpl in Heq. inversion Heq; subst. rewrite last_cons.
           apply Habove. exists r. auto.
    + intros ((k & Hk & Hl) & Ht & Habove).
      destruct n as [a'|a' rd' es'|d' e']; cbn [entry_at] in Hk; try discriminate.
      destruct (find_entry nm es') as [c|] eqn:Hf; [|discriminate].
      destruct (uniqueNames_Dir _ _ _ Hu) as [Hnd Hall].
      pose proof (In_find_entry _ _ _ Hf) as Hin.
      assert (Huc : uniqueNames c = true).
      { rewrite Forall_forall in Hall. apply (Hall (nm, c) Hin). }
      apply top_below with (c := c); [|exact Hin|].
      * apply isTarget_not. apply (Habove []).
        exists (nm :: q). split; [discriminate|reflexivity].
      * apply (IH c nm Huc). split; [eauto|]. split.
        -- now rewrite last_cons in Ht.
        -- intros q' (r & Hr & ->). rewrite <- (last_cons nm name).
           apply Habove. exists r. auto.
Qed.

(** Under distinct names, nothing is listed twice. *)
Lemma matched_NoDup n : forall p name,
  uniqueNames n = true -> NoDup (matched p name n).
Proof.
  induction n as [a|d e|a rd es IH] using node_ind'; intros p name Hu.
  - constructor.
  - destruct d; simpl; [|constructor].
    destruct (isTarget targets name); [|constructor].
    constructor; [intros []|constructor].
  - rewrite matched_Dir. destruct (isTarget targets name).
    + constructor; [intros []|constructor].
    + destruct (uniqueNames_Dir _ _ _ Hu) as [Hnd Hall]. clear Hu.
      induction es as [|[nm c] tl IHtl]; [constructor|].
      cbn [matchedEntries]. inversion IH as [|? ? Hc IH']; subst.
      inversion Hall as [|? ? Huc Hall']; subst.
      inversion Hnd as [|? ? Hnot Hnd']; subst.
      simpl in Hc, Huc.
      assert (Htl : forall r, In r (matchedEntries p tl) ->
                exists nm' c' q, In (nm', c') tl /\ r = p ++ nm' :: q).
      { clear. induction tl as [|[nm' c'] tl IHt]; simpl; [contradiction|].
        intros r Hr. apply in_app_iff in Hr as [Hr|Hr].
        - apply matched_topmatch in Hr as (q & -> & _).
          exists nm', c', q. rewrite <- app_assoc. auto.
        - destruct (IHt r Hr) as (n1 & c1 & q & Hin & ->). eauto 8. }
      apply NoDup_app; [now apply Hc|now apply IHtl|].
      intros r Hr1 Hr2. apply matched_topmatch in Hr1 as (q1 & -> & _).
      destruct (Htl _ Hr2) as (nm' & c' & q2 & Hin & Heq).
      rewrite <- app_assoc in Heq. apply app_inv_head in Heq.
      simpl in Heq. inversion Heq; subst.
      apply Hnot. apply (in_map fst) in Hin. exact Hin.
Qed.

(** Under distinct names, the candidates of a walk from the root are the
    reportable directories. *)
Lemma matchedFrom_reportable rootName w q :
  uniqueNamesFs w = true ->
  (In q (matchedFrom rootName w) <-> reportable rootName w q).
Proof.
  intros Hu. unfold matchedFrom, reportable, baseName.
  destruct w as [n|]; cbn [lstat].
  - destruct (lstat_at [] n) as [e|m] eqn:Hl.
    + split; [contradiction|]. intros ((m & c & Hm & _) & _). discriminate.
    + assert (m = n) by (destruct n; simpl in Hl; congruence). subst m.
      simpl in Hu. rewrite matched_topmatch.
      split.
      * intros (q0 & Heq & H). simpl in Heq. subst q0. split; [|split].
        -- exists n. apply (topmatch_entry n rootName q Hu) in H as ((c & Hc) & _).
           eauto.
        -- now apply (topmatch_entry n rootName q Hu) in H.
        -- now apply (topmatch_entry n rootName q Hu) in H.
      * intros ((m & c & Hm & Hc) & Ht & Ha). exists q. split; [reflexivity|].
        apply (topmatch_entry n rootName q Hu). inversion Hm; subst m. eauto.
  - split; [contradiction|]. intros ((m & c & Hm & _) & _). discriminate.
Qed.

(** *** Access errors, in terms of the tree alone *)

(** The paths for which the walk is handed an error: the root when its
    [lstat] fails, and every directory the walk reads without success:
    an entry listed as a directory, without the name of a target, beneath
    no directory with the name of a target, whose reading fails. *)
Definition accessFailure (rootName : string) (w : fs) (q : path) (e : errno) : Prop :=
  (q = [] /\ lstat [] w = inl e) \/
  ((exists n c, lstat [] w = inr n /\ entry_at q n = Some c /\ readError c = Some e) /\
   ~ In (baseName rootName q) targets /\
   forall q', above q' q -> ~ In (baseName rootName q') targets).

Inductive entered : string -> node -> path -> errno -> Prop :=
| ent_here name n e :
    readError n = Some e -> isTarget targets name = false -> entered name n [] e
| ent_below name a rd es nm c q e :
    isTarget targets name = false -> In (nm, c) es -> entered nm c q e ->
    entered name (Dir a rd es) (nm :: q) e.

Lemma accessErrors_entered n : forall p name r e,
  In (r, e) (accessErrors p name n) <-> exists q, r = p ++ q /\ entered name n q e.
Proof.
  induction n as [a|d e0|a rd es IH] using node_ind'; intros p name r e.
  - simpl. split; [contradiction|]. intros (q & _ & H).
    inversion H; subst; discriminate.
  - assert (Hnone : (exists q, r = p ++ q /\ entered name (Broken d e0) q e) ->
                    d = true /\ e0 = e /\ isTarget targets name = false /\ r = p).
    { intros (q & -> & H). inversion H as [? ? ? Hre Ht|]; subst.
      rewrite app_nil_r. destruct d; simpl in Hre; [|discriminate].
      inversion Hre. auto. }
    destruct d; simpl.
    + destruct (isTarget targets name) eqn:Ht.
      * split; [contradiction|]. intros H. apply Hnone in H as (_ & _ & H & _).
        discriminate.
      * split.
        -- intros [Heq|[]]. inversion Heq; subst. exists [].
           rewrite app_nil_r. split; [reflexivity|]. now constructor.
        -- intros H. apply Hnone in H as (_ & -> & _ & ->). now left.
    + split; [contradiction|]. intros H. apply Hnone in H as (H & _).
      discriminate.
  - rewrite accessErrors_Dir. destruct (isTarget targets name) eqn:Ht.
    + split; [contradiction|]. intros (q & _ & H). inversion H; congruence.
    + assert (Hes : In (r, e) (accessErrorsEntries p es) <->
                    exists nm c q, In (nm, c) es /\ r = p ++ nm :: q /\ entered nm c q e).
      { clear Ht. induction IH as [|[nm c] tl Hc _ IHtl].
        - simpl. split; [contradiction|]. intros (? & ? & ? & [] & _).
        - cbn [accessErrorsEntries]. rewrite in_app_iff, IHtl. simpl in Hc.
          rewrite Hc. split.
          + intros [(q & -> & Hq)|(nm' & c' & q & Hin & -> & Hq)].
            * exists nm, c, q. rewrite <- app_assoc. simpl. auto.
            * exists nm', c', q. simpl. auto.
          + intros (nm' & c' & q & [Heq|Hin] & -> & Hq).
            * inversion Heq; subst. left. exists q.
              rewrite <- app_assoc. auto.
            * right. exists nm', c', q. auto. }
      rewrite in_app_iff, Hes. split.
      * intros [Hhere|(nm & c & q & Hin & -> & Hq)].
        -- destruct rd as [e1|]; [|contradiction].
           destruct Hhere as [Heq|[]]. inversion Heq; subst.
           exists []. rewrite app_nil_r. split; [reflexivity|].
           now constructor.
        -- exists (nm :: q). split; [reflexivity|].
           now apply ent_below with (c := c).
      * intros (q & -> & H). inversion H as [? ? ? Hre Ht'|]; subst.
        -- left. rewrite app_nil_r. simpl in Hre. subst rd. now left.
        -- right. eauto 8.
Qed.

Lemma entered_entry n : forall name q e,
  uniqueNames n = true ->
  (entered name n q e <->
   (exists c, entry_at q n = Some c /\ readError c = Some e) /\
   ~ In (last q name) targets /\
   forall q', above q' q -> ~ In (last q' name) targets).
Proof.
  intros name q e. revert n name.
  induction q as [|nm q IH]; intros n name Hu.
  - split.
    + intros H. inversion H; subst. split; [simpl; eauto|].
      split; [now apply isTarget_not|].
      intros q' (r & Hr & Heq). symmetry in Heq.
      apply app_eq_nil in Heq as [_ ->]. congruence.
    + intros ((c & Hc & Hl) & Ht & _). simpl in Hc. inversion Hc; subst c.
      constructor; [exact Hl|now apply isTarget_not].
  - split.
    + intros H. inversion H as [|? a rd es ? c ? ? Hn Hin Hc]; subst.
      destruct (uniqueNames_Dir _ _ _ Hu) as [Hnd Hall].
      assert (Huc : uniqueNames c = true).
      { rewrite Forall_forall in Hall. apply (Hall (nm, c) Hin). }
      apply (IH c nm Huc) in Hc as (Hdir & Ht & Habove).
      split; [|split].
      * cbn [entry_at]. now rewrite (find_entry_In nm c es Hnd Hin).
      * now rewrite last_cons.
      * intros q' (r & Hr & Heq). destruct q' as [|x q'].
        -- now apply isTarget_not.
        -- simpl in Heq. inversion Heq; subst. rewrite last_cons.
           apply Habove. exists r. auto.
    + intros ((k & Hk & Hl) & Ht & Habove).
      destruct n as [a'|a' rd' es'|d' e']; cbn [entry_at] in Hk; try discriminate.
      destruct (find_entry nm es') as [c|] eqn:Hf; [|discriminate].
      destruct (uniqueNames_Dir _ _ _ Hu) as [Hnd Hall].
      pose proof (In_find_entry _ _ _ Hf) as Hin.
      assert (Huc : uniqueNames c = true).
      { rewrite Forall_forall in Hall. apply (Hall (nm, c) Hin). }
      apply ent_below with (c := c); [|exact Hin|].
      * apply isTarget_not. apply (Habove []).
        exists (nm :: q). split; [discriminate|reflexivity].
      * apply (IH c nm Huc). split; [eauto|]. split.
        -- now rewrite last_cons in Ht.
        -- intros q' (r & Hr & ->). rewrite <- (last_cons nm name).
           apply Habove. exists r. auto.
Qed.

(** Under distinct names, the access errors of a walk from the root are
    the access failures. *)
Lemma accessErrorsFrom_failure rootName w q e :
  uniqueNamesFs w = true ->
  (In (q, e) (accessErrorsFrom rootName w) <-> accessFailure rootName w q e).
Proof.
  intros Hu. unfold accessErrorsFrom, accessFailure, baseName.
  destruct w as [n|]; cbn [lstat].
  - destruct (lstat_at [] n) as [e0|m] eqn:Hl.
    + split.
      * intros [Heq|[]]. inversion Heq; subst. left. auto.
      * intros [[-> Heq]|((m & c & Hm & _) & _)]; [|discriminate].
        inversion Heq; subst. now left.
    + assert (m = n) by (destruct n; simpl in Hl; congruence). subst m.
      simpl in Hu. rewrite accessErrors_entered. split.
      * intros (q0 & Heq & H). simpl in Heq. subst q0. right.
        apply (entered_entry n rootName q e Hu) in H as ((c & Hc) & Ht & Ha).
        split; [exists n; eauto|]. auto.
      * intros [[-> Heq]|((m & c & Hm & Hc) & Ht & Ha)]; [discriminate|].
        exists q. split; [reflexivity|].
        apply (entered_entry n rootName q e Hu). inversion Hm; subst m. eauto.
  - split.
    + intros [Heq|[]]. inversion Heq; subst. left. auto.
    + intros [[-> Heq]|((m & c & Hm & _) & _)]; [|discriminate].
      inversion Heq; subst. now left.
Qed.

End Targets.

End ScanFacts.

(* ------------------------------------------------------------------ *)
(** ** The two phases and [main] *)

Module MainFacts.

(** The size [dirSize] computes for a candidate, and the result a size
    worker sends for it. *)
Definition sizeOf (rootName : string) (w : fs) (p : path) : Z :=
  fst (dirSize rootName p w).

Definition answer (rootName : string) (w : fs) (p : path) : sizeResult :=
  {| sr_path := p; sr_size := sizeOf rootName w p; sr_err := None |}.

Lemma sizeWorker_answer rootName p w :
  sizeWorker rootName p w = Some (w, answer rootName w p).
Proof.
  unfold sizeWorker, answer, sizeOf.
  rewrite SizeFacts.dirSize_spec. reflexivity.
Qed.

Lemma sizeWorker_serial rootName w order :
  serial (sizeWorker rootName) order w = Some (w, map (answer rootName w) order).
Proof.
  induction order as [|p order IH]; simpl; [reflexivity|].
  rewrite sizeWorker_answer, IH. reflexivity.
Qed.

Lemma collectSize_answers verbose rootName w order : forall t,
  fold_left (collectSize verbose) (map (answer rootName w) order) t =
  {| totalSize := fold_left add64 (map (sizeOf rootName w) order) (totalSize t);
     dirSizes := dirSizes t ++ map (sizeOf rootName w) order;
     sizeErrors := sizeErrors t |}.
Proof.
  induction order as [|p order IH]; intros t; simpl.
  - rewrite app_nil_r. now destruct t.
  - rewrite IH. simpl. rewrite <- app_assoc. reflexivity.
Qed.

(** With at least one worker the size phase records, in the order of
    arrival, the size of every candidate. *)
Lemma sizePhase_workers c rootName dirs w sched :
  (1 <= maxWorkers c)%Z ->
  exists order,
    Permutation order dirs /\
    sizePhase c rootName dirs w sched =
    {| totalSize := fold_left add64 (map (sizeOf rootName w) order) 0%Z;
       dirSizes := map (sizeOf rootName w) order;
       sizeErrors := [] |}.
Proof.
  intros HW.
  destruct (PoolFacts.runPool_serial (sizeWorker rootName) dirs w
              (fun x w' _ => ltac:(rewrite sizeWorker_answer; discriminate))
              (maxWorkers c) sched HW) as (_ & _ & order & Hperm & Hser).
  exists order. split; [exact Hperm|].
  rewrite sizeWorker_serial in Hser. inversion Hser as [[Hw Hrs]].
  unfold sizePhase. rewrite <- Hrs. now rewrite collectSize_answers.
Qed.

Lemma sizePhase_idle c rootName dirs w sched :
  (maxWorkers c <= 0)%Z -> sizePhase c rootName dirs w sched = sizeTally0.
Proof.
  intros HW. unfold sizePhase.
  now rewrite PoolFacts.runPool_no_worker.
Qed.

Lemma deleteWorker_safe dirs x w :
  In x (seq 0 (List.length dirs)) -> deleteWorker dirs x w <> None.
Proof.
  intros Hin. apply in_seq in Hin. unfold deleteWorker.
  destruct (nth_error dirs x) as [dir|] eqn:Hn.
  - destruct (RemoveAll dir (t_fs w)). discriminate.
  - apply nth_error_None in Hn. lia.
Qed.

Lemma delete_serial_index dirs order : forall w w' rs,
  serial (deleteWorker dirs) order w = Some (w', rs) -> map dr_index rs = order.
Proof.
  induction order as [|x order IH]; intros w w' rs H; simpl in H.
  - inversion H. reflexivity.
  - destruct (deleteWorker dirs x w) as [[w1 r]|] eqn:Hd; [|discriminate].
    destruct (serial _ order w1) as [[w2 rs2]|] eqn:Hs; [|discriminate].
    inversion H; subst. simpl. f_equal; [|eauto].
    unfold deleteWorker in Hd. destruct (nth_error dirs x); [|discriminate].
    destruct (RemoveAll _ _). inversion Hd. reflexivity.
Qed.

Lemma collectDeletes_safe dirs sizes rs : forall t,
  List.length sizes = List.length dirs ->
  Forall (fun r => dr_index r < List.length dirs) rs ->
  exists t', collectDeletes dirs sizes rs t = Some t'.
Proof.
  induction rs as [|r rs IH]; intros t Hlen Hall; simpl; [eauto|].
  inversion Hall as [|? ? Hr Hrs]; subst.
  unfold collectDelete.
  destruct (nth_error dirs (dr_index r)) as [dir|] eqn:Hd;
    [|apply nth_error_None in Hd; lia].
  destruct (dr_err r); [now apply IH|].
  destruct (nth_error sizes (dr_index r)) as [size|] eqn:Hz;
    [now apply IH|apply nth_error_None in Hz; lia].
Qed.

(** With at least one worker the deletion pool answers every index once,
    and nothing panics. *)
Lemma deletePool_workers c dirs w sched :
  (1 <= maxWorkers c)%Z ->
  let p := deletePool c dirs w sched in
  panicked p = false /\
  exists order,
    Permutation order (seq 0 (List.length dirs)) /\
    map dr_index (resultsChan p) = order /\
    serial (deleteWorker dirs) order {| t_fs := w; t_calls := [] |} =
    Some (world p, resultsChan p).
Proof.
  intros HW p.
  destruct (PoolFacts.runPool_serial (deleteWorker dirs)
              (seq 0 (List.length dirs)) {| t_fs := w; t_calls := [] |}
              (fun x w' Hin => deleteWorker_safe dirs x w' Hin)
              (maxWorkers c) sched HW) as (Hp & _ & order & Hperm & Hser).
  split; [exact Hp|]. exists order. split; [exact Hperm|].
  split; [|exact Hser]. eapply delete_serial_index; eauto.
Qed.

Lemma deletePool_idle c dirs w sched :
  (maxWorkers c <= 0)%Z ->
  deletePool c dirs w sched =
  start (maxWorkers c) (seq 0 (List.length dirs)) {| t_fs := w; t_calls := [] |}.
Proof. intros HW. unfold deletePool. now apply PoolFacts.runPool_no_worker. Qed.

(** The collector of the deletion phase never indexes out of range. *)
Lemma collect_safe c rootName dirs w sched sched' :
  let z := sizePhase c rootName dirs w sched in
  let p := deletePool c dirs w sched' in
  panicked p = false /\
  exists d, collectDeletes dirs (dirSizes z) (resultsChan p) deleteTally0 = Some d.
Proof.
  intros z p. destruct (Z_le_gt_dec 1 (maxWorkers c)) as [HW|HW].
  - destruct (deletePool_workers c dirs w sched' HW)
      as (Hp & order & Hperm & Hidx & _).
    split; [exact Hp|]. apply collectDeletes_safe.
    + destruct (sizePhase_workers c rootName dirs w sched HW)
        as (order' & Hperm' & Hz).
      unfold z. rewrite Hz. simpl. rewrite length_map.
      now apply Permutation_length.
    + fold p in Hidx. apply Forall_forall. intros r Hr.
      assert (Hin : In (dr_index r) order)
        by (rewrite <- Hidx; now apply in_map).
      apply (Permutation_in _ Hperm) in Hin. apply in_seq in Hin. lia.
  - unfold p. rewrite deletePool_idle by lia. simpl. eauto.
Qed.

(** [proceed], with the scan phase replaced by what it computes. *)
Lemma proceed_eq c e targets :
  proceed c e targets =
  let s := {| dirsToDelete := ScanFacts.matchedFrom targets (rootName e) (disk e);
              scanErrors := if verbose c
                            then ScanFacts.accessErrorsFrom targets (rootName e) (disk e)
                            else [] |} in
  match dirsToDelete s with
  | [] => stopped NoneFound (disk e) s sizeTally0
  | _ :: _ =>
      let z := sizePhase c (rootName e) (dirsToDelete s) (disk e) (sizeSched e) in
      if dryRun c then stopped DryRunDone (disk e) s z
      else if negb (skipPrompt c) && negb (affirmative (stdin e))
      then stopped Cancelled (disk e) s z
      else
        let p := deletePool c (dirsToDelete s) (disk e) (deleteSched e) in
        match collectDeletes (dirsToDelete s) (dirSizes z) (resultsChan p) deleteTally0 with
        | None =>
            {| exit := Panic; after := t_fs (world p); removeCalls := t_calls (world p);
               found := dirsToDelete s; notices := scanErrors s;
               sized := z; deleted := deleteTally0 |}
        | Some d =>
            {| exit := Reported; after := t_fs (world p); removeCalls := t_calls (world p);
               found := dirsToDelete s; notices := scanErrors s;
               sized := z; deleted := d |}
        end
  end.
Proof.
  unfold proceed. rewrite ScanFacts.scan_spec. cbv zeta.
  cbn [dirsToDelete scanErrors].
  destruct (ScanFacts.matchedFrom targets (rootName e) (disk e)) as [|d ds] eqn:Hm;
    [reflexivity|].
  destruct (dryRun c); [reflexivity|].
  destruct (negb (skipPrompt c) && negb (affirmative (stdin e))); [reflexivity|].
  destruct (collect_safe c (rootName e) (d :: ds) (disk e) (sizeSched e) (deleteSched e))
    as [Hp _].
  now rewrite Hp.
Qed.

End MainFacts.

(* ------------------------------------------------------------------ *)
(** ** [os.RemoveAll] *)

Module RemoveFacts.

(** The search of [rmAt] for the entry called [nm]. *)
Fixpoint seek (nm : string) (q : path) (l : list (string * node))
    : list (string * node) * option errno :=
  match l with
  | [] => ([], None)
  | (nm', c) :: tl =>
      if String.eqb nm nm' then
        let '(c', e) := rmAt q c in
        (match c' with Some k => (nm', k) :: tl | None => tl end, e)
      else
        let '(tl', e) := seek nm q tl in ((nm', c) :: tl', e)
  end.

Lemma rmAt_Dir nm q a rd es :
  rmAt (nm :: q) (Dir a rd es) =
  let '(es', err) := seek nm q es in (Some (Dir a rd es'), err).
Proof.
  cbn [rmAt].
  match goal with
  | |- (let '(_, _) := ?f es in _) = _ =>
      assert (H : forall l, f l = seek nm q l)
  end.
  { induction l as [|[nm' c] tl IH]; cbn [seek]; [reflexivity|].
    destruct (String.eqb nm nm'); [reflexivity|]. now rewrite IH. }
  now rewrite H.
Qed.

(** Removing a path that names nothing changes nothing and is no error. *)
Lemma rmAt_absent p : forall n,
  lstat_at p n = inl ENOENT -> rmAt p n = (Some n, None).
Proof.
  induction p as [|nm q IH]; intros n H.
  - destruct n as [a|a rd es|d e]; simpl in H; try discriminate.
    inversion H; subst. reflexivity.
  - destruct n as [a|a rd es|d e]; cbn [lstat_at] in H; try discriminate.
    + rewrite rmAt_Dir.
      assert (Hs : seek nm q es = (es, None)).
      { induction es as [|[nm' c] tl IHtl]; cbn [seek find_entry] in *;
          [reflexivity|].
        destruct (String.eqb nm nm').
        - now rewrite (IH c H).
        - now rewrite (IHtl H). }
      now rewrite Hs.
    + inversion H; subst. reflexivity.
Qed.

Lemma RemoveAll_absent p w : absent p w -> RemoveAll p w = (w, None).
Proof.
  unfold absent, lstat, RemoveAll. destruct w as [n|]; [|reflexivity].
  apply rmAt_absent.
Qed.

End RemoveFacts.

(* ------------------------------------------------------------------ *)
(** ** Facts about whole runs *)

Module RunFacts.

Import MainFacts.

(** A run that found candidates passed the checks on the root and on the
    targets. *)
Lemma found_proceeds c e :
  found (main c e) <> [] ->
  exists targets,
    absErr e = None /\
    IsNotExist (statErr [] (disk e)) = false /\
    readTargets (targetsFile e) = inr targets /\
    main c e = proceed c e targets.
Proof.
  unfold main. intros H.
  destruct (absErr e); [now elim H|].
  destruct (IsNotExist (statErr [] (disk e))); [now elim H|].
  destruct (readTargets (targetsFile e)) as [err|targets]; [now elim H|].
  exists targets. auto.
Qed.

(** How [proceed] ends. *)
Lemma proceed_exit c e targets :
  exit (proceed c e targets) =
  match ScanFacts.matchedFrom targets (rootName e) (disk e) with
  | [] => NoneFound
  | _ :: _ =>
      if dryRun c then DryRunDone
      else if negb (skipPrompt c) && negb (affirmative (stdin e)) then Cancelled
      else Reported
  end.
Proof.
  rewrite proceed_eq. cbv zeta. cbn [dirsToDelete].
  destruct (ScanFacts.matchedFrom targets (rootName e) (disk e)) as [|d ds];
    [reflexivity|].
  destruct (dryRun c); [reflexivity|].
  destruct (negb (skipPrompt c) && negb (affirmative (stdin e))); [reflexivity|].
  destruct (collect_safe c (rootName e) (d :: ds) (disk e) (sizeSched e) (deleteSched e))
    as (_ & t & Ht).
  now rewrite Ht.
Qed.

Lemma proceed_found c e targets :
  found (proceed c e targets) =
  ScanFacts.matchedFrom targets (rootName e) (disk e).
Proof.
  rewrite proceed_eq. cbv zeta. cbn [dirsToDelete].
  destruct (ScanFacts.matchedFrom targets (rootName e) (disk e)) as [|d ds];
    [reflexivity|].
  destruct (dryRun c); [reflexivity|].
  destruct (negb (skipPrompt c) && negb (affirmative (stdin e))); [reflexivity|].
  destruct (collectDeletes _ _ _ _); reflexivity.
Qed.

(** A run that does not reach the deletion phase leaves the file system
    alone. *)
Lemma proceed_untouched c e targets :
  exit (proceed c e targets) <> Reported ->
  after (proceed c e targets) = disk e /\
  removeCalls (proceed c e targets) = [] /\
  deleted (proceed c e targets) = deleteTally0.
Proof.
  rewrite proceed_exit. rewrite proceed_eq. cbv zeta. cbn [dirsToDelete].
  destruct (ScanFacts.matchedFrom targets (rootName e) (disk e)) as [|d ds];
    [now auto|].
  destruct (dryRun c); [now auto|].
  destruct (negb (skipPrompt c) && negb (affirmative (stdin e))); [now auto|].
  intros H. now elim H.
Qed.

(** The size phase of [proceed]. *)
Lemma proceed_sized c e targets :
  found (proceed c e targets) <> [] ->
  sized (proceed c e targets) =
  sizePhase c (rootName e) (found (proceed c e targets)) (disk e) (sizeSched e).
Proof.
  rewrite proceed_found. rewrite proceed_eq. cbv zeta. cbn [dirsToDelete].
  destruct (ScanFacts.matchedFrom targets (rootName e) (disk e)) as [|d ds];
    [intros H; now elim H|intros _].
  destruct (dryRun c); [reflexivity|].
  destruct (negb (skipPrompt c) && negb (affirmative (stdin e))); [reflexivity|].
  destruct (collectDeletes _ _ _ _); reflexivity.
Qed.

(** Without workers the deletion phase of [proceed] does nothing. *)
Lemma proceed_idle c e targets :
  (maxWorkers c <= 0)%Z ->
  after (proceed c e targets) = disk e /\
  removeCalls (proceed c e targets) = [] /\
  deleted (proceed c e targets) = deleteTally0.
Proof.
  intros HW. rewrite proceed_eq. cbv zeta. cbn [dirsToDelete].
  destruct (ScanFacts.matchedFrom targets (rootName e) (disk e)) as [|d ds];
    [now auto|].
  destruct (dryRun c); [now auto|].
  destruct (negb (skipPrompt c) && negb (affirmative (stdin e))); [now auto|].
  rewrite deletePool_idle by assumption. simpl. auto.
Qed.

End RunFacts.


(* ------------------------------------------------------------------ *)
(** ** The properties as the specification words them *)

Module Stated.

(** The run is fatal unless the root is a directory. *)
Definition fails_fast_unless_directory (c : config) (e : env) : Prop :=
  (forall a rd es, lstat [] (disk e) <> inr (Dir a rd es)) ->
  exists f, exit (main c e) = Fatal f.

(** Every access error of the walk is recorded as a notice, whatever the
    verbosity. *)
Definition notice_for_every_access_error
    (verbose : bool) (targets : list string) (rootName : string) (w : fs) : Prop :=
  scanErrors (fst (scan verbose targets rootName w)) =
  ScanFacts.accessErrorsFrom targets rootName w.

(** Deleting a candidate that is no longer there is answered with an
    error. *)
Definition absent_candidate_fails (dirs : list path) (index : nat) (w : traced) : Prop :=
  forall dir, nth_error dirs index = Some dir -> absent dir (t_fs w) ->
  exists w' r, deleteWorker dirs index w = Some (w', r) /\ dr_err r <> None.

(** The response cancels the run: nothing is deleted. *)
Definition cancels (c : config) (e : env) : Prop :=
  exit (main c e) = Cancelled /\ removeCalls (main c e) = [].

(** The candidates whose deletion was reported as a success: those with no
    entry in the list of deletion errors. *)
Definition path_eqb (p q : path) : bool :=
  if list_eq_dec string_dec p q then true else false.

Definition succeeded (o : outcome) : list path :=
  filter (fun p => negb (existsb (path_eqb p) (map fst (deleteErrors (deleted o)))))
         (found o).

(** Bytes freed are the sizes, as computed in the size phase, of the
    candidates deleted with success. *)
Definition freed_is_size_of_deleted (c : config) (e : env) : Prop :=
  deletedSize (deleted (main c e)) =
  fold_left add64
    (map (MainFacts.sizeOf (rootName e) (disk e)) (succeeded (main c e))) 0%Z.

(** The aggregated sizes are those of the candidates, index by index. *)
Definition sizes_follow_index (c : config) (e : env) : Prop :=
  dirSizes (sized (main c e)) =
  map (MainFacts.sizeOf (rootName e) (disk e)) (found (main c e)).

End Stated.

(* ------------------------------------------------------------------ *)
(** ** C3: validation of the root *)

Lemma IsNotExist_iff err : IsNotExist err = true <-> err = Some ENOENT.
Proof.
  destruct err as [[]|]; simpl; split; intros H; try discriminate; reflexivity.
Qed.

(** C3 (as the code has it): with a root path that can be made absolute,
    the run aborts with "Path does not exist" exactly when [os.Stat]
    reports that the root does not exist; a root that exists but is a
    regular file passes the check: the scan runs, finds no candidate, and
    the run ends with "No target directories found". *)
Theorem root_check_is_existence_only :
  forall (c : config) (e : env),
    absErr e = None ->
    (exit (main c e) = Fatal PathDoesNotExist <->
     statErr [] (disk e) = Some ENOENT) /\
    (forall a targets,
        disk e = Some (File a) ->
        readTargets (targetsFile e) = inr targets ->
        exit (main c e) = NoneFound /\ found (main c e) = [] /\
        after (main c e) = disk e).
Proof.
  intros c e Habs. unfold main. rewrite Habs. split.
  - destruct (IsNotExist (statErr [] (disk e))) eqn:Hne.
    + apply IsNotExist_iff in Hne. simpl. split; auto.
    + split.
      * intros H. exfalso.
        destruct (readTargets (targetsFile e)) as [err|targets];
          [discriminate H|].
        rewrite RunFacts.proceed_exit in H.
        destruct (ScanFacts.matchedFrom _ _ _); [discriminate|].
        destruct (dryRun c); [discriminate|].
        destruct (negb _ && negb _); discriminate.
      * intros H. apply IsNotExist_iff in H. congruence.
  - intros a targets Hd Ht. rewrite Ht.
    assert (Hst : IsNotExist (statErr [] (disk e)) = false)
      by (rewrite Hd; reflexivity).
    assert (Hm : ScanFacts.matchedFrom targets (rootName e) (disk e) = [])
      by (unfold ScanFacts.matchedFrom; rewrite Hd; reflexivity).
    rewrite Hst, RunFacts.proceed_exit, RunFacts.proceed_found, Hm.
    split; [reflexivity|]. split; [reflexivity|].
    apply RunFacts.proceed_untouched. rewrite RunFacts.proceed_exit, Hm.
    discriminate.
Qed.

Lemma root_check_is_existence_only_witness :
  absErr (Samples.surroundings (Some (File (Samples.plain 3))) "" [] []) = None /\
  ((exit (main (Samples.flags false true false 4)
            (Samples.surroundings (Some (File (Samples.plain 3))) "" [] []))
    = Fatal PathDoesNotExist <->
    statErr [] (disk (Samples.surroundings (Some (File (Samples.plain 3))) "" [] []))
    = Some ENOENT) /\
   (forall a targets,
       disk (Samples.surroundings (Some (File (Samples.plain 3))) "" [] [])
       = Some (File a) ->
       readTargets (targetsFile (Samples.surroundings (Some (File (Samples.plain 3))) "" [] []))
       = inr targets ->
       exit (main (Samples.flags false true false 4)
               (Samples.surroundings (Some (File (Samples.plain 3))) "" [] []))
       = NoneFound /\
       found (main (Samples.flags false true false 4)
                (Samples.surroundings (Some (File (Samples.plain 3))) "" [] []))
       = [] /\
       after (main (Samples.flags false true false 4)
                (Samples.surroundings (Some (File (Samples.plain 3))) "" [] []))
       = disk (Samples.surroundings (Some (File (Samples.plain 3))) "" [] []))).
Proof.
  split; [reflexivity|].
  apply (root_check_is_existence_only
           (Samples.flags false true false 4)
           (Samples.surroundings (Some (File (Samples.plain 3))) "" [] [])).
  reflexivity.
Defined.

(** C3 fails as stated: a root that is a regular file is not fatal; the
    run ends with "No target directories found". *)
Lemma regular_file_root_is_not_fatal :
  exit (main (Samples.flags false true false 4)
          (Samples.surroundings (Some (File (Samples.plain 3))) "" [] []))
  = NoneFound /\
  ~ Stated.fails_fast_unless_directory
      (Samples.flags false true false 4)
      (Samples.surroundings (Some (File (Samples.plain 3))) "" [] []).
Proof.
  split; [reflexivity|].
  intros H. destruct H as [f Hf].
  - intros a rd es. discriminate.
  - vm_compute in Hf. discriminate.
Qed.

(* ------------------------------------------------------------------ *)
(** ** C5: what the walk reports *)

Lemma lstat_root_fails w e q : lstat [] w = inl e -> exists e', lstat q w = inl e'.
Proof.
  destruct w as [n|]; simpl; [|eauto].
  destruct n as [a|a rd es|d0 e0]; simpl; intros H; try discriminate H.
  exists e0. destruct q; reflexivity.
Qed.

Lemma lstat_root_ok w n : lstat [] w = inr n -> w = Some n.
Proof.
  destruct w as [m|]; simpl; [|discriminate].
  destruct m; simpl; intros H; inversion H; reflexivity.
Qed.

(** C5: on a tree whose directories list each name once, the scan reports
    exactly once every directory whose base name is one of the targets
    and that lies beneath no directory with the name of a target; it
    reports nothing else (a name matches when it is equal to a target);
    and no reported path lies beneath another reported path: a matched
    directory is recorded and not entered.  A directory is what the
    listing of its parent calls one, whether or not its [lstat]
    succeeds. *)
Theorem scan_reports_each_top_target_once :
  forall (verbose : bool) (targets : list string) (rootName : string) (w : fs),
    ScanFacts.uniqueNamesFs w = true ->
    (forall q, ScanFacts.reportable targets rootName w q ->
               count_occ (list_eq_dec string_dec)
                 (dirsToDelete (fst (scan verbose targets rootName w))) q = 1) /\
    (forall q, In q (dirsToDelete (fst (scan verbose targets rootName w))) ->
               ScanFacts.reportable targets rootName w q) /\
    (forall q q',
        In q (dirsToDelete (fst (scan verbose targets rootName w))) ->
        In q' (dirsToDelete (fst (scan verbose targets rootName w))) ->
        ~ ScanFacts.above q q').
Proof.
  intros verbose targets rootName w Hu.
  rewrite ScanFacts.scan_spec. cbn [fst dirsToDelete].
  pose proof (fun q => ScanFacts.matchedFrom_reportable targets rootName w q Hu)
    as Hiff.
  assert (Hnd : NoDup (ScanFacts.matchedFrom targets rootName w)).
  { unfold ScanFacts.matchedFrom. destruct (lstat [] w) as [e|n] eqn:Hl.
    - constructor.
    - apply lstat_root_ok in Hl. subst w. now apply ScanFacts.matched_NoDup. }
  split; [|split].
  - intros q Hq. apply NoDup_count_occ'; [exact Hnd|]. now apply Hiff.
  - intros q Hq. now apply Hiff.
  - intros q q' Hq Hq' Habove.
    apply Hiff in Hq. apply Hiff in Hq'.
    destruct Hq as (_ & Ht & _). destruct Hq' as (_ & _ & Hnone).
    exact (Hnone q Habove Ht).
Qed.

Lemma scan_reports_each_top_target_once_witness :
  ScanFacts.uniqueNamesFs Samples.locked = true /\
  dirsToDelete (fst (scan true ["node_modules"; "dist"] "proj" Samples.locked))
  = [["locked"; "dist"]; ["node_modules"]] /\
  ((forall q, ScanFacts.reportable ["node_modules"; "dist"] "proj" Samples.locked q ->
              count_occ (list_eq_dec string_dec)
                (dirsToDelete (fst (scan true ["node_modules"; "dist"] "proj" Samples.locked))) q = 1) /\
   (forall q, In q (dirsToDelete (fst (scan true ["node_modules"; "dist"] "proj" Samples.locked))) ->
              ScanFacts.reportable ["node_modules"; "dist"] "proj" Samples.locked q) /\
   (forall q q',
       In q (dirsToDelete (fst (scan true ["node_modules"; "dist"] "proj" Samples.locked))) ->
       In q' (dirsToDelete (fst (scan true ["node_modules"; "dist"] "proj" Samples.locked))) ->
       ~ ScanFacts.above q q')).
Proof.
  split; [reflexivity|]. split; [reflexivity|].
  apply (scan_reports_each_top_target_once
           true ["node_modules"; "dist"] "proj" Samples.locked).
  reflexivity.
Defined.

(* ------------------------------------------------------------------ *)
(** ** C6: scan notices *)

(** C6 (as the code has it): the walk never stops on an access error and
    never fails, and the candidates it finds are the same with and without
    the verbose flag.  Without the verbose flag no notice is recorded,
    whatever could not be accessed.  With the verbose flag (and entries
    of distinct names in every directory) the notices are exactly the
    errors the walk is handed, each with its path: that of the [lstat]
    of the root, and that of reading a directory the walk enters, one
    that is no candidate and lies beneath none.  The walk does not
    [lstat] the entries it is listed, so that an entry that is no
    directory leaves no notice even when its [lstat] would fail. *)
Theorem scan_notices_only_when_verbose :
  forall (targets : list string) (rootName : string) (w : fs),
    (forall verbose, snd (scan verbose targets rootName w) = None) /\
    dirsToDelete (fst (scan true targets rootName w)) =
      dirsToDelete (fst (scan false targets rootName w)) /\
    scanErrors (fst (scan false targets rootName w)) = [] /\
    (ScanFacts.uniqueNamesFs w = true ->
     forall q e,
       In (q, e) (scanErrors (fst (scan true targets rootName w))) <->
       ScanFacts.accessFailure targets rootName w q e).
Proof.
  intros targets rootName w.
  split; [intros verbose; now rewrite ScanFacts.scan_spec|].
  rewrite !ScanFacts.scan_spec. cbn [fst dirsToDelete scanErrors].
  split; [reflexivity|]. split; [reflexivity|].
  intros Hu q e. now apply ScanFacts.accessErrorsFrom_failure.
Qed.

Lemma scan_notices_only_when_verbose_witness :
  ScanFacts.uniqueNamesFs Samples.locked = true /\
  scanErrors (fst (scan true ["node_modules"; "dist"] "proj" Samples.locked))
  = [(["locked"; "cache"], EACCES)] /\
  (forall verbose,
      snd (scan verbose ["node_modules"; "dist"] "proj" Samples.locked) = None) /\
  dirsToDelete (fst (scan true ["node_modules"; "dist"] "proj" Samples.locked)) =
    dirsToDelete (fst (scan false ["node_modules"; "dist"] "proj" Samples.locked)) /\
  scanErrors (fst (scan false ["node_modules"; "dist"] "proj" Samples.locked)) = [] /\
  (forall q e,
      In (q, e) (scanErrors (fst (scan true ["node_modules"; "dist"] "proj"
                                    Samples.locked))) <->
      ScanFacts.accessFailure ["node_modules"; "dist"] "proj" Samples.locked q e).
Proof.
  split; [reflexivity|]. split; [reflexivity|].
  destruct (scan_notices_only_when_verbose
              ["node_modules"; "dist"] "proj" Samples.locked)
    as (Hnil & Hsame & Hquiet & Hloud).
  split; [exact Hnil|]. split; [exact Hsame|]. split; [exact Hquiet|].
  exact (Hloud eq_refl).
Defined.

(** C6 fails as stated: without the verbose flag the directory [secret],
    which cannot be read, leaves no notice, neither in the scan nor in
    the run. *)
Lemma quiet_scan_records_no_notice :
  ScanFacts.accessErrorsFrom ["node_modules"; "dist"] "proj" Samples.unreadable
  = [(["secret"], EACCES)] /\
  notices (main (Samples.flags true true false 4)
             (Samples.surroundings Samples.unreadable "" [] [])) = [] /\
  ~ Stated.notice_for_every_access_error
      false ["node_modules"; "dist"] "proj" Samples.unreadable.
Proof.
  split; [reflexivity|]. split; [reflexivity|].
  unfold Stated.notice_for_every_access_error. vm_compute. discriminate.
Qed.

(* ------------------------------------------------------------------ *)
(** ** C7: deleting a candidate that is gone *)

(** C7 (as the code has it): when the candidate at an index names nothing
    at the time its worker runs, [os.RemoveAll] changes nothing and returns
    [nil]; the worker sends a result without error, and the collector
    counts the candidate as deleted and adds its recorded size to the
    bytes freed. *)
Theorem absent_candidate_counts_as_deleted :
  forall (dirs : list path) (sizes : list Z) (index : nat)
         (dir : path) (size : Z) (w : traced) (t : deleteTally),
    nth_error dirs index = Some dir ->
    nth_error sizes index = Some size ->
    absent dir (t_fs w) ->
    deleteWorker dirs index w =
      Some ({| t_fs := t_fs w; t_calls := t_calls w ++ [dir] |},
            {| dr_index := index; dr_err := None |}) /\
    collectDelete dirs sizes t {| dr_index := index; dr_err := None |} =
      Some {| deletedSize := add64 (deletedSize t) size;
              deletedCount := S (deletedCount t);
              deleteErrors := deleteErrors t |}.
Proof.
  intros dirs sizes index dir size w t Hd Hz Ha. split.
  - unfold deleteWorker. rewrite Hd.
    now rewrite (RemoveFacts.RemoveAll_absent dir (t_fs w) Ha).
  - unfold collectDelete. cbn [dr_index dr_err]. now rewrite Hd, Hz.
Qed.

Lemma absent_candidate_counts_as_deleted_witness :
  nth_error [["dist"]] 0 = Some ["dist"] /\
  nth_error [7%Z] 0 = Some 7%Z /\
  absent ["dist"] (t_fs {| t_fs := Some (Samples.folder []); t_calls := [] |}) /\
  deleteWorker [["dist"]] 0 {| t_fs := Some (Samples.folder []); t_calls := [] |} =
    Some ({| t_fs := t_fs {| t_fs := Some (Samples.folder []); t_calls := [] |};
             t_calls := t_calls {| t_fs := Some (Samples.folder []); t_calls := [] |}
                        ++ [["dist"]] |},
          {| dr_index := 0; dr_err := None |}) /\
  collectDelete [["dist"]] [7%Z] deleteTally0 {| dr_index := 0; dr_err := None |} =
    Some {| deletedSize := add64 (deletedSize deleteTally0) 7;
            deletedCount := S (deletedCount deleteTally0);
            deleteErrors := deleteErrors deleteTally0 |}.
Proof.
  split; [reflexivity|]. split; [reflexivity|]. split; [reflexivity|].
  apply (absent_candidate_counts_as_deleted
           [["dist"]] [7%Z] 0 ["dist"] 7%Z
           {| t_fs := Some (Samples.folder []); t_calls := [] |} deleteTally0);
    reflexivity.
Defined.

(** C7 fails as stated: the candidate [dist] is gone when its worker runs,
    and the deletion is answered without error and counted as a success
    with its 7 bytes. *)
Lemma absent_candidate_reported_deleted :
  absent ["dist"] (Some (Samples.folder [])) /\
  resultsChan (deletePool (Samples.flags false true false 4) [["dist"]]
                 (Some (Samples.folder [])) [])
  = [{| dr_index := 0; dr_err := None |}] /\
  collectDeletes [["dist"]] [7%Z]
    (resultsChan (deletePool (Samples.flags false true false 4) [["dist"]]
                    (Some (Samples.folder [])) []))
    deleteTally0
  = Some {| deletedSize := 7; deletedCount := 1; deleteErrors := [] |} /\
  ~ Stated.absent_candidate_fails [["dist"]] 0
      {| t_fs := Some (Samples.folder []); t_calls := [] |}.
Proof.
  split; [reflexivity|]. split; [reflexivity|]. split; [reflexivity|].
  intros H. destruct (H ["dist"] eq_refl eq_refl) as (w' & r & Hw & Hr).
  vm_compute in Hw. inversion Hw; subst. now apply Hr.
Qed.

(* ------------------------------------------------------------------ *)
(** ** C8: the dry run *)

(** C8: in dry-run mode the run never reaches the deletion phase:
    [os.RemoveAll] is never called and the file system after the run is
    the file system before it; when candidates were found the run ends
    right after the summary ("Dry run completed"). *)
Theorem dry_run_changes_nothing :
  forall (c : config) (e : env),
    dryRun c = true ->
    after (main c e) = disk e /\
    removeCalls (main c e) = [] /\
    deleted (main c e) = deleteTally0 /\
    exit (main c e) <> Reported /\
    (found (main c e) <> [] -> exit (main c e) = DryRunDone).
Proof.
  intros c e Hdry. unfold main.
  destruct (absErr e);
    [simpl; repeat split; try discriminate; intros H; now elim H|].
  destruct (IsNotExist (statErr [] (disk e)));
    [simpl; repeat split; try discriminate; intros H; now elim H|].
  destruct (readTargets (targetsFile e)) as [err|targets];
    [simpl; repeat split; try discriminate; intros H; now elim H|].
  assert (Hexit : exit (proceed c e targets) <> Reported).
  { rewrite RunFacts.proceed_exit, Hdry.
    destruct (ScanFacts.matchedFrom _ _ _); discriminate. }
  destruct (RunFacts.proceed_untouched c e targets Hexit) as (Ha & Hr & Hd).
  repeat split; try assumption.
  rewrite RunFacts.proceed_found, RunFacts.proceed_exit, Hdry.
  destruct (ScanFacts.matchedFrom _ _ _); [intros H; now elim H|reflexivity].
Qed.

Lemma dry_run_changes_nothing_witness :
  dryRun (Samples.flags true false true 4) = true /\
  after (main (Samples.flags true false true 4)
           (Samples.surroundings Samples.project "y" [] []))
  = disk (Samples.surroundings Samples.project "y" [] []) /\
  removeCalls (main (Samples.flags true false true 4)
                 (Samples.surroundings Samples.project "y" [] [])) = [] /\
  deleted (main (Samples.flags true false true 4)
             (Samples.surroundings Samples.project "y" [] [])) = deleteTally0 /\
  exit (main (Samples.flags true false true 4)
          (Samples.surroundings Samples.project "y" [] [])) <> Reported /\
  (found (main (Samples.flags true false true 4)
            (Samples.surroundings Samples.project "y" [] [])) <> [] ->
   exit (main (Samples.flags true false true 4)
           (Samples.surroundings Samples.project "y" [] [])) = DryRunDone).
Proof.
  split; [reflexivity|].
  apply (dry_run_changes_nothing
           (Samples.flags true false true 4)
           (Samples.surroundings Samples.project "y" [] [])).
  reflexivity.
Defined.

(* ------------------------------------------------------------------ *)
(** ** C9: the confirmation prompt *)

(** C9 (as the code has it): when the prompt is shown (candidates found,
    no dry run, confirmation not skipped) and the response is ASCII text,
    the deletion phase runs if and only if the first blank-delimited word
    of the line typed, lowercased, is exactly "y"; any other response
    cancels the run and nothing is deleted.  Words after the first are
    not looked at. *)
Theorem prompt_reads_first_word :
  forall (c : config) (e : env),
    isASCII (stdin e) = true ->
    skipPrompt c = false ->
    dryRun c = false ->
    found (main c e) <> [] ->
    affirmative (stdin e) =
      String.eqb (ToLower (firstWord (firstLine (stdin e)))) "y" /\
    (ToLower (firstWord (firstLine (stdin e))) = "y" ->
     exit (main c e) = Reported) /\
    (ToLower (firstWord (firstLine (stdin e))) <> "y" ->
     exit (main c e) = Cancelled /\
     removeCalls (main c e) = [] /\
     after (main c e) = disk e).
Proof.
  intros c e _ Hskip Hdry Hfound.
  destruct (RunFacts.found_proceeds c e Hfound) as (targets & _ & _ & _ & Hmain).
  rewrite Hmain in *.
  assert (Haff : affirmative (stdin e) =
                 String.eqb (ToLower (firstWord (firstLine (stdin e)))) "y")
    by (unfold affirmative; now rewrite PromptFacts.Scanln_firstWord).
  split; [exact Haff|].
  assert (Hexit : exit (proceed c e targets) =
                  if affirmative (stdin e) then Reported else Cancelled).
  { rewrite RunFacts.proceed_exit. rewrite RunFacts.proceed_found in Hfound.
    destruct (ScanFacts.matchedFrom _ _ _); [now elim Hfound|].
    rewrite Hdry, Hskip. simpl. now destruct (affirmative (stdin e)). }
  split.
  - intros Hy. rewrite Hexit, Haff, Hy. reflexivity.
  - intros Hn. apply String.eqb_neq in Hn. rewrite <- Haff in Hn.
    rewrite Hn in Hexit. split; [exact Hexit|].
    destruct (RunFacts.proceed_untouched c e targets) as (Ha & Hr & _);
      [rewrite Hexit; discriminate|auto].
Qed.

Lemma prompt_reads_first_word_witness :
  isASCII (stdin (Samples.surroundings Samples.project "yes" [] [])) = true /\
  skipPrompt (Samples.flags false false false 4) = false /\
  dryRun (Samples.flags false false false 4) = false /\
  found (main (Samples.flags false false false 4)
           (Samples.surroundings Samples.project "yes" [] [])) <> [] /\
  affirmative (stdin (Samples.surroundings Samples.project "yes" [] [])) =
    String.eqb
      (ToLower (firstWord (firstLine (stdin (Samples.surroundings Samples.project "yes" [] [])))))
      "y" /\
  (ToLower (firstWord (firstLine (stdin (Samples.surroundings Samples.project "yes" [] []))))
   = "y" ->
   exit (main (Samples.flags false false false 4)
           (Samples.surroundings Samples.project "yes" [] [])) = Reported) /\
  (ToLower (firstWord (firstLine (stdin (Samples.surroundings Samples.project "yes" [] []))))
   <> "y" ->
   exit (main (Samples.flags false false false 4)
           (Samples.surroundings Samples.project "yes" [] [])) = Cancelled /\
   removeCalls (main (Samples.flags false false false 4)
                  (Samples.surroundings Samples.project "yes" [] [])) = [] /\
   after (main (Samples.flags false false false 4)
            (Samples.surroundings Samples.project "yes" [] []))
   = disk (Samples.surroundings Samples.project "yes" [] [])).
Proof.
  split; [reflexivity|]. split; [reflexivity|]. split; [reflexivity|].
  split; [vm_compute; discriminate|].
  apply (prompt_reads_first_word
           (Samples.flags false false false 4)
           (Samples.surroundings Samples.project "yes" [] []));
    [reflexivity|reflexivity|reflexivity|vm_compute; discriminate].
Defined.

(** C9 fails as stated: the response "Y es" is no cancellation.  Its first
    word is "Y", [Scanln] stores it before it complains about the rest of
    the line, and both candidates are deleted.  (An empty line and "yes"
    do cancel.) *)
Lemma first_word_Y_is_accepted :
  isASCII ("Y es" ++ Samples.newline) = true /\
  Scanln ("Y es" ++ Samples.newline) = "Y" /\
  affirmative Samples.newline = false /\
  affirmative ("yes" ++ Samples.newline) = false /\
  exit (main (Samples.flags false false false 4)
          (Samples.surroundings Samples.project ("Y es" ++ Samples.newline) [] []))
  = Reported /\
  removeCalls (main (Samples.flags false false false 4)
                 (Samples.surroundings Samples.project ("Y es" ++ Samples.newline) [] []))
  = [["node_modules"]; ["sub"; "dist"]] /\
  ~ Stated.cancels (Samples.flags false false false 4)
      (Samples.surroundings Samples.project ("Y es" ++ Samples.newline) [] []).
Proof.
  split; [reflexivity|].
  split; [reflexivity|]. split; [reflexivity|]. split; [reflexivity|].
  split; [reflexivity|]. split; [reflexivity|].
  intros [H _]. vm_compute in H. discriminate.
Qed.

(* ------------------------------------------------------------------ *)
(** ** C10: no workers *)

(** C10: with a worker count of zero or less and candidates found, neither
    pool starts a goroutine and both result channels are closed empty:
    the total size is 0, no size is recorded, [os.RemoveAll] is never
    called, nothing is counted as deleted, and the run ends where the mode
    and the prompt send it, with the final report when the deletion phase
    is reached. *)
Theorem no_worker_run_reports_nothing :
  forall (c : config) (e : env),
    (maxWorkers c <= 0)%Z ->
    found (main c e) <> [] ->
    workers (runPool (sizeWorker (rootName e)) (maxWorkers c)
               (found (main c e)) (disk e) (sizeSched e)) = [] /\
    resultsChan (runPool (sizeWorker (rootName e)) (maxWorkers c)
                   (found (main c e)) (disk e) (sizeSched e)) = [] /\
    workers (deletePool c (found (main c e)) (disk e) (deleteSched e)) = [] /\
    resultsChan (deletePool c (found (main c e)) (disk e) (deleteSched e)) = [] /\
    sized (main c e) = sizeTally0 /\
    removeCalls (main c e) = [] /\
    after (main c e) = disk e /\
    deleted (main c e) = deleteTally0 /\
    exit (main c e) =
      (if dryRun c then DryRunDone
       else if negb (skipPrompt c) && negb (affirmative (stdin e)) then Cancelled
       else Reported).
Proof.
  intros c e HW Hfound.
  destruct (RunFacts.found_proceeds c e Hfound) as (targets & _ & _ & _ & Hmain).
  rewrite Hmain in *.
  assert (H0 : Z.to_nat (maxWorkers c) = 0%nat) by lia.
  rewrite MainFacts.deletePool_idle by assumption.
  rewrite PoolFacts.runPool_no_worker by assumption.
  unfold start. cbn [workers resultsChan]. rewrite H0.
  repeat (split; [reflexivity|]).
  split.
  { rewrite RunFacts.proceed_sized by assumption.
    now apply MainFacts.sizePhase_idle. }
  destruct (RunFacts.proceed_idle c e targets HW) as (Ha & Hr & Hd).
  repeat (split; [assumption|]).
  rewrite RunFacts.proceed_exit. rewrite RunFacts.proceed_found in Hfound.
  destruct (ScanFacts.matchedFrom _ _ _); [now elim Hfound|reflexivity].
Qed.

Lemma no_worker_run_reports_nothing_witness :
  (maxWorkers (Samples.flags false true false 0) <= 0)%Z /\
  found (main (Samples.flags false true false 0)
           (Samples.surroundings Samples.project "" [] [])) <> [] /\
  workers (runPool (sizeWorker (rootName (Samples.surroundings Samples.project "" [] [])))
             (maxWorkers (Samples.flags false true false 0))
             (found (main (Samples.flags false true false 0)
                       (Samples.surroundings Samples.project "" [] [])))
             (disk (Samples.surroundings Samples.project "" [] []))
             (sizeSched (Samples.surroundings Samples.project "" [] []))) = [] /\
  resultsChan (runPool (sizeWorker (rootName (Samples.surroundings Samples.project "" [] [])))
                 (maxWorkers (Samples.flags false true false 0))
                 (found (main (Samples.flags false true false 0)
                           (Samples.surroundings Samples.project "" [] [])))
                 (disk (Samples.surroundings Samples.project "" [] []))
                 (sizeSched (Samples.surroundings Samples.project "" [] []))) = [] /\
  workers (deletePool (Samples.flags false true false 0)
             (found (main (Samples.flags false true false 0)
                       (Samples.surroundings Samples.project "" [] [])))
             (disk (Samples.surroundings Samples.project "" [] []))
             (deleteSched (Samples.surroundings Samples.project "" [] []))) = [] /\
  resultsChan (deletePool (Samples.flags false true false 0)
                 (found (main (Samples.flags false true false 0)
                           (Samples.surroundings Samples.project "" [] [])))
                 (disk (Samples.surroundings Samples.project "" [] []))
                 (deleteSched (Samples.surroundings Samples.project "" [] []))) = [] /\
  sized (main (Samples.flags false true false 0)
           (Samples.surroundings Samples.project "" [] [])) = sizeTally0 /\
  removeCalls (main (Samples.flags false true false 0)
                 (Samples.surroundings Samples.project "" [] [])) = [] /\
  after (main (Samples.flags false true false 0)
           (Samples.surroundings Samples.project "" [] []))
  = disk (Samples.surroundings Samples.project "" [] []) /\
  deleted (main (Samples.flags false true false 0)
             (Samples.surroundings Samples.project "" [] [])) = deleteTally0 /\
  exit (main (Samples.flags false true false 0)
          (Samples.surroundings Samples.project "" [] [])) =
    (if dryRun (Samples.flags false true false 0) then DryRunDone
     else if negb (skipPrompt (Samples.flags false true false 0))
             && negb (affirmative (stdin (Samples.surroundings Samples.project "" [] [])))
          then Cancelled
          else Reported).
Proof.
  split; [vm_compute; discriminate|].
  split; [vm_compute; discriminate|].
  apply (no_worker_run_reports_nothing
           (Samples.flags false true false 0)
           (Samples.surroundings Samples.project "" [] []));
    [vm_compute; discriminate|vm_compute; discriminate].
Defined.

(* ------------------------------------------------------------------ *)
(** ** C2 and C1: pairing results with candidates *)

(** X17: what does hold for both pools, with at least one worker and
    whatever the schedule: every item is answered exactly once and each result
    names its item (the path in the size phase, the index in the deletion
    phase); the results arrive in some order of the items. *)
Lemma pools_answer_every_item_once :
  forall (c : config) (rootName : string) (dirs : list path) (w : fs)
         (sched : list nat),
    (1 <= maxWorkers c)%Z ->
    (exists order,
        Permutation order dirs /\
        resultsChan (runPool (sizeWorker rootName) (maxWorkers c) dirs w sched) =
        map (MainFacts.answer rootName w) order) /\
    Permutation
      (map dr_index (resultsChan (deletePool c dirs w sched)))
      (seq 0 (List.length dirs)).
Proof.
  intros c rootName dirs w sched HW. split.
  - destruct (PoolFacts.runPool_serial (sizeWorker rootName) dirs w
                (fun x w' _ => ltac:(rewrite MainFacts.sizeWorker_answer; discriminate))
                (maxWorkers c) sched HW) as (_ & _ & order & Hperm & Hser).
    exists order. split; [exact Hperm|].
    rewrite MainFacts.sizeWorker_serial in Hser. now inversion Hser.
  - destruct (MainFacts.deletePool_workers c dirs w sched HW)
      as (_ & order & Hperm & Hidx & _).
    now rewrite Hidx.
Qed.

(** X18: the total of the summary does not depend on the schedule: with
    at least one worker it is the sum, reduced to 64 bits, of the sizes of
    all candidates, and the sizes recorded are those of the candidates in
    some order. *)
Lemma total_size_for_every_schedule :
  forall (c : config) (rootName : string) (dirs : list path) (w : fs)
         (sched : list nat),
    (1 <= maxWorkers c)%Z ->
    totalSize (sizePhase c rootName dirs w sched) =
      wrap64 (zsum (map (MainFacts.sizeOf rootName w) dirs)) /\
    Permutation (dirSizes (sizePhase c rootName dirs w sched))
                (map (MainFacts.sizeOf rootName w) dirs) /\
    sizeErrors (sizePhase c rootName dirs w sched) = [].
Proof.
  intros c rootName dirs w sched HW.
  destruct (MainFacts.sizePhase_workers c rootName dirs w sched HW)
    as (order & Hperm & Hz).
  rewrite Hz. cbn [totalSize dirSizes sizeErrors].
  split; [|split; [now apply Permutation_map|reflexivity]].
  rewrite fold_add64_zero. f_equal. apply zsum_perm.
  now apply Permutation_map.
Qed.

(** C2, at the failing input: a tree in the order of [os.ReadDir] whose
    walk finds [dist] (20 bytes) and then [node_modules] (10 bytes); two
    workers, the second of which, sizing [node_modules], answers first.
    The size results carry the path of their candidate, but the collector
    appends the sizes in the order of arrival: [dirSizes] is [10; 20]
    while the candidates, in the order of their indices, have sizes
    [20; 10]. *)
Lemma sizes_aggregated_in_arrival_order :
  lexicalFs Samples.twoSizes = true /\
  found (main (Samples.flags true true false 2)
           (Samples.surroundings Samples.twoSizes "" Samples.secondFirst []))
  = [["dist"]; ["node_modules"]] /\
  map sr_path
    (resultsChan (runPool (sizeWorker "proj") 2 [["dist"]; ["node_modules"]]
                    Samples.twoSizes Samples.secondFirst))
  = [["node_modules"]; ["dist"]] /\
  dirSizes (sized (main (Samples.flags true true false 2)
                     (Samples.surroundings Samples.twoSizes "" Samples.secondFirst [])))
  = [10%Z; 20%Z] /\
  map (MainFacts.sizeOf "proj" Samples.twoSizes) [["dist"]; ["node_modules"]]
  = [20%Z; 10%Z] /\
  ~ Stated.sizes_follow_index
      (Samples.flags true true false 2)
      (Samples.surroundings Samples.twoSizes "" Samples.secondFirst []).
Proof.
  split; [reflexivity|].
  split; [reflexivity|]. split; [reflexivity|]. split; [reflexivity|].
  split; [reflexivity|].
  unfold Stated.sizes_follow_index. vm_compute. discriminate.
Qed.

(** C1, at the failing input: the same run with the deletion confirmed.
    [dist] (index 0, 20 bytes) cannot be deleted, [node_modules] (index
    1, 10 bytes) is deleted; the collector adds [dirSizes[1]], which is
    the size of [dist]: 20 bytes are reported as freed instead of 10. *)
Lemma freed_bytes_of_the_wrong_candidate :
  lexicalFs Samples.twoSizes = true /\
  exit (main (Samples.flags false true false 2)
          (Samples.surroundings Samples.twoSizes "" Samples.secondFirst []))
  = Reported /\
  found (main (Samples.flags false true false 2)
           (Samples.surroundings Samples.twoSizes "" Samples.secondFirst []))
  = [["dist"]; ["node_modules"]] /\
  dirSizes (sized (main (Samples.flags false true false 2)
                     (Samples.surroundings Samples.twoSizes "" Samples.secondFirst [])))
  = [10%Z; 20%Z] /\
  deleteErrors (deleted (main (Samples.flags false true false 2)
                           (Samples.surroundings Samples.twoSizes "" Samples.secondFirst [])))
  = [(["dist"], EBUSY)] /\
  Stated.succeeded (main (Samples.flags false true false 2)
                      (Samples.surroundings Samples.twoSizes "" Samples.secondFirst []))
  = [["node_modules"]] /\
  absent ["node_modules"]
    (after (main (Samples.flags false true false 2)
              (Samples.surroundings Samples.twoSizes "" Samples.secondFirst []))) /\
  MainFacts.sizeOf "proj" Samples.twoSizes ["node_modules"] = 10%Z /\
  deletedSize (deleted (main (Samples.flags false true false 2)
                          (Samples.surroundings Samples.twoSizes "" Samples.secondFirst [])))
  = 20%Z /\
  ~ Stated.freed_is_size_of_deleted
      (Samples.flags false true false 2)
      (Samples.surroundings Samples.twoSizes "" Samples.secondFirst []).
Proof.
  split; [reflexivity|]. split; [reflexivity|].
  split; [reflexivity|]. split; [reflexivity|]. split; [reflexivity|].
  split; [reflexivity|]. split; [reflexivity|]. split; [reflexivity|].
  split; [reflexivity|].
  unfold Stated.freed_is_size_of_deleted. vm_compute. discriminate.
Qed.

(* ================================================================== *)
(** * Further properties of the program *)

(* ------------------------------------------------------------------ *)
(** ** [readTargets] *)

Module TargetsFacts.

(** Leading blanks of a list of bytes. *)
Fixpoint dropL (l : list ascii) : list ascii :=
  match l with
  | [] => []
  | c :: tl => if isSpace c then dropL tl else l
  end.

(** A text without leading blank, and without trailing blank. *)
Definition noLead (l : list ascii) : Prop :=
  match l with
  | [] => True
  | c :: _ => isSpace c = false
  end.

Definition trimmed (l : list ascii) : Prop := noLead l /\ noLead (rev l).

Lemma dropBlanks_dropL s :
  list_ascii_of_string (dropBlanks s) = dropL (list_ascii_of_string s).
Proof.
  induction s as [|c s IH]; simpl; [reflexivity|].
  destruct (isSpace c); [exact IH|reflexivity].
Qed.

Lemma TrimSpace_list s :
  list_ascii_of_string (TrimSpace s) =
  rev (dropL (rev (dropL (list_ascii_of_string s)))).
Proof.
  unfold TrimSpace, revString.
  rewrite list_ascii_of_string_of_list_ascii, dropBlanks_dropL.
  rewrite list_ascii_of_string_of_list_ascii, dropBlanks_dropL.
  reflexivity.
Qed.

Lemma dropL_noLead l : noLead (dropL l).
Proof.
  induction l as [|c l IH]; simpl; [exact I|].
  destruct (isSpace c) eqn:Hc; [exact IH|exact Hc].
Qed.

Lemma noLead_dropL l : noLead l -> dropL l = l.
Proof. destruct l as [|c l]; simpl; [reflexivity|]. now intros ->. Qed.

Lemma dropL_app l y : noLead y -> dropL (l ++ y) = dropL l ++ y.
Proof.
  intros Hy. induction l as [|c l IH]; simpl.
  - now apply noLead_dropL.
  - destruct (isSpace c); [exact IH|reflexivity].
Qed.

Lemma noLead_app l y : noLead l -> noLead y -> noLead (l ++ y).
Proof. destruct l; simpl; auto. Qed.

(** What [TrimSpace] returns has a blank at neither end. *)
Lemma trimmed_trim l : trimmed (rev (dropL (rev (dropL l)))).
Proof.
  unfold trimmed. rewrite rev_involutive. split; [|apply dropL_noLead].
  pose proof (dropL_noLead l) as Hm.
  destruct (dropL l) as [|c m]; [exact I|]. simpl in Hm.
  simpl rev. rewrite dropL_app by exact Hm.
  rewrite rev_app_distr. simpl. exact Hm.
Qed.

(** A text with a blank at neither end is left as it is. *)
Lemma trim_trimmed l : trimmed l -> rev (dropL (rev (dropL l))) = l.
Proof.
  intros [H1 H2]. rewrite (noLead_dropL l H1), (noLead_dropL _ H2).
  apply rev_involutive.
Qed.

Definition clean (s : string) : Prop := trimmed (list_ascii_of_string s).

Lemma TrimSpace_clean s : clean (TrimSpace s).
Proof. unfold clean. rewrite TrimSpace_list. apply trimmed_trim. Qed.

Lemma clean_TrimSpace s : clean s -> TrimSpace s = s.
Proof.
  intros H. rewrite <- (string_of_list_ascii_of_string (TrimSpace s)).
  rewrite TrimSpace_list, (trim_trimmed _ H).
  apply string_of_list_ascii_of_string.
Qed.

Lemma TrimSpace_idempotent s : TrimSpace (TrimSpace s) = TrimSpace s.
Proof. apply clean_TrimSpace, TrimSpace_clean. Qed.

(** The test of the loop of [readTargets] on a trimmed line. *)
Definition kept (line : string) : bool :=
  negb (String.eqb line "") && negb (String.prefix "#" line).

(** A line that [readTargets] skips: blank, or a comment. *)
Definition skipped (line : string) : Prop := kept (TrimSpace line) = false.

Lemma readTargets_lines lines :
  readTargets (inr (lines, None)) =
  match filter kept (map TrimSpace lines) with
  | [] => inl NoValidTargets
  | _ :: _ => inr (filter kept (map TrimSpace lines))
  end.
Proof. reflexivity. Qed.

Lemma skipped_all ls :
  Forall skipped ls -> filter kept (map TrimSpace ls) = [].
Proof.
  induction 1 as [|l ls Hl _ IH]; [reflexivity|].
  simpl. unfold skipped in Hl. now rewrite Hl.
Qed.

(** The lines of a targets file are ASCII text. *)
Definition asciiLines (file : errno + (list string * option errno)) : Prop :=
  match file with
  | inl _ => True
  | inr (lines, _) => Forall (fun line => isASCII line = true) lines
  end.

(** A text of blanks only. *)
Definition blank (s : string) : Prop :=
  Forall (fun c => isSpace c = true) (list_ascii_of_string s).

(** The first byte of a line that is no blank, if it has one. *)
Fixpoint firstInk (line : string) : option ascii :=
  match line with
  | EmptyString => None
  | String c rest => if isSpace c then firstInk rest else Some c
  end.

(** A line that carries no name: it has blanks only, or the first byte
    that is no blank is [#]. *)
Definition ignorable (line : string) : bool :=
  match firstInk line with
  | None => true
  | Some c => Ascii.eqb c "#"
  end.

Definition named (line : string) : bool := negb (ignorable line).

Lemma string_of_list_ascii_app l1 l2 :
  string_of_list_ascii (l1 ++ l2) =
  (string_of_list_ascii l1 ++ string_of_list_ascii l2)%string.
Proof. induction l1 as [|c l1 IH]; simpl; [reflexivity|]. now rewrite IH. Qed.

(** The blanks [dropL] removes. *)
Lemma dropL_split l :
  exists b, l = b ++ dropL l /\ Forall (fun c => isSpace c = true) b.
Proof.
  induction l as [|c l (b & Hb & Hall)]; simpl.
  - exists []. split; [reflexivity|constructor].
  - destruct (isSpace c) eqn:Hc.
    + exists (c :: b). split; [simpl; now rewrite <- Hb|now constructor].
    + exists []. split; [reflexivity|constructor].
Qed.

(** A line is what [TrimSpace] returns for it, between blanks. *)
Lemma TrimSpace_split line :
  exists l r,
    line = (l ++ TrimSpace line ++ r)%string /\ blank l /\ blank r.
Proof.
  destruct (dropL_split (list_ascii_of_string line)) as (b & Hb & Hbl).
  destruct (dropL_split (rev (dropL (list_ascii_of_string line))))
    as (b' & Hb' & Hbl').
  exists (string_of_list_ascii b), (string_of_list_ascii (rev b')).
  split; [|split].
  - rewrite <- (string_of_list_ascii_of_string (TrimSpace line)), TrimSpace_list.
    rewrite <- !string_of_list_ascii_app.
    rewrite <- (string_of_list_ascii_of_string line) at 1. f_equal.
    rewrite Hb at 1. f_equal.
    rewrite <- rev_app_distr, <- Hb'. symmetry. apply rev_involutive.
  - unfold blank. now rewrite list_ascii_of_string_of_list_ascii.
  - unfold blank. rewrite list_ascii_of_string_of_list_ascii.
    now apply Forall_rev.
Qed.

(** The first byte of a string, if it has one. *)
Definition headOf (s : string) : option ascii :=
  match s with
  | EmptyString => None
  | String c _ => Some c
  end.

Lemma headOf_list s : headOf s = hd_error (list_ascii_of_string s).
Proof. destruct s; reflexivity. Qed.

Lemma firstInk_list s : firstInk s = hd_error (dropL (list_ascii_of_string s)).
Proof.
  induction s as [|c s IH]; simpl; [reflexivity|].
  destruct (isSpace c); [exact IH|reflexivity].
Qed.

(** Trimming keeps the first byte that is no blank in front. *)
Lemma headOf_TrimSpace line : headOf (TrimSpace line) = firstInk line.
Proof.
  rewrite headOf_list, firstInk_list, TrimSpace_list.
  pose proof (dropL_noLead (list_ascii_of_string line)) as Hm.
  destruct (dropL (list_ascii_of_string line)) as [|c m]; [reflexivity|].
  simpl in Hm. simpl rev. rewrite dropL_app by exact Hm.
  rewrite rev_app_distr. reflexivity.
Qed.

Lemma kept_headOf s :
  kept s = match headOf s with
           | None => false
           | Some c => negb (Ascii.eqb c "#")
           end.
Proof.
  destruct s as [|c s]; [reflexivity|].
  unfold kept. cbn [String.eqb String.prefix headOf negb andb].
  destruct (ascii_dec "#" c) as [<-|Hne].
  - destruct s; reflexivity.
  - destruct (Ascii.eqb_spec c "#") as [->|_]; [now elim Hne|reflexivity].
Qed.

(** The test of the loop keeps exactly the lines that carry a name. *)
Lemma kept_named line : kept (TrimSpace line) = named line.
Proof.
  rewrite kept_headOf, headOf_TrimSpace. unfold named, ignorable.
  destruct (firstInk line); reflexivity.
Qed.

Lemma filter_kept_named lines :
  filter kept (map TrimSpace lines) = map TrimSpace (filter named lines).
Proof.
  induction lines as [|l ls IH]; [reflexivity|].
  simpl. rewrite kept_named. destruct (named l); simpl; now rewrite IH.
Qed.

Lemma filter_idem {X : Type} (f : X -> bool) l : filter f (filter f l) = filter f l.
Proof.
  induction l as [|x l IH]; [reflexivity|]. simpl.
  destruct (f x) eqn:Hx; [|exact IH]. simpl. now rewrite Hx, IH.
Qed.

End TargetsFacts.

(** X1: for a targets file of ASCII lines, the targets [readTargets]
    returns are never an empty list, and each of them is a line of the
    file without the blanks at its ends: the line is the target between
    two runs of blanks, and the target is not empty, does not start with
    [#], and neither begins nor ends with a blank. *)
Theorem readTargets_returns_clean_names :
  forall (file : errno + (list string * option errno)) (targets : list string),
    TargetsFacts.asciiLines file ->
    readTargets file = inr targets ->
    targets <> [] /\
    forall t, In t targets ->
      t <> "" /\
      String.prefix "#" t = false /\
      TargetsFacts.clean t /\
      exists lines line l r,
        file = inr (lines, None) /\ In line lines /\
        line = (l ++ t ++ r)%string /\
        TargetsFacts.blank l /\ TargetsFacts.blank r.
Proof.
  intros file targets _ H.
  destruct file as [e|[lines [e|]]]; try discriminate H.
  rewrite TargetsFacts.readTargets_lines in H.
  destruct (filter TargetsFacts.kept (map TrimSpace lines)) as [|t0 ts] eqn:Hf;
    [discriminate|].
  inversion H; subst targets. split; [discriminate|].
  intros t Ht. rewrite <- Hf in Ht. apply filter_In in Ht as [Hin Hk].
  apply in_map_iff in Hin as (line & <- & Hline).
  unfold TargetsFacts.kept in Hk. apply andb_prop in Hk as [Hne Hc].
  apply negb_true_iff in Hne, Hc. apply String.eqb_neq in Hne.
  split; [exact Hne|]. split; [exact Hc|].
  split; [apply TargetsFacts.TrimSpace_clean|].
  destruct (TargetsFacts.TrimSpace_split line) as (l & r & Heq & Hl & Hr).
  exists lines, line, l, r. auto.
Qed.

Lemma readTargets_returns_clean_names_witness :
  TargetsFacts.asciiLines
    (inr (["# build output"; "node_modules"; " dist "; ""], None)) /\
  readTargets (inr (["# build output"; "node_modules"; " dist "; ""], None))
  = inr ["node_modules"; "dist"] /\
  ["node_modules"; "dist"] <> [] /\
  forall t, In t ["node_modules"; "dist"] ->
    t <> "" /\
    String.prefix "#" t = false /\
    TargetsFacts.clean t /\
    exists lines line l r,
      inr (["# build output"; "node_modules"; " dist "; ""], None)
      = @inr errno _ (lines, @None errno) /\
      In line lines /\
      line = (l ++ t ++ r)%string /\
      TargetsFacts.blank l /\ TargetsFacts.blank r.
Proof.
  assert (Ha : TargetsFacts.asciiLines
                 (inr (["# build output"; "node_modules"; " dist "; ""], None)))
    by (repeat constructor).
  split; [exact Ha|]. split; [reflexivity|].
  apply (readTargets_returns_clean_names
           (inr (["# build output"; "node_modules"; " dist "; ""], None))
           ["node_modules"; "dist"] Ha).
  reflexivity.
Defined.

(** X2: a file that lists names in ASCII one per line, each without a
    blank at either end, not empty and not starting with [#], is read
    back as exactly that list, in the order of the file. *)
Theorem readTargets_reads_back_names :
  forall (names : list string),
    names <> [] ->
    (forall n, In n names ->
       isASCII n = true /\
       TargetsFacts.clean n /\ n <> "" /\ String.prefix "#" n = false) ->
    readTargets (inr (names, None)) = inr names.
Proof.
  intros names Hne Hall. rewrite TargetsFacts.readTargets_lines.
  assert (Hf : filter TargetsFacts.kept (map TrimSpace names) = names).
  { clear Hne. induction names as [|n names IH]; [reflexivity|].
    destruct (Hall n (or_introl eq_refl)) as (_ & Hc & Hn & Hp).
    simpl. rewrite (TargetsFacts.clean_TrimSpace n Hc).
    unfold TargetsFacts.kept at 1. rewrite Hp.
    apply String.eqb_neq in Hn. rewrite Hn. simpl.
    f_equal. apply IH. intros m Hm. apply Hall. now right. }
  rewrite Hf. destruct names; [now elim Hne|reflexivity].
Qed.

Lemma readTargets_reads_back_names_witness :
  ["node_modules"; ".cache"] <> [] /\
  (forall n, In n ["node_modules"; ".cache"] ->
     isASCII n = true /\
     TargetsFacts.clean n /\ n <> "" /\ String.prefix "#" n = false) /\
  readTargets (inr (["node_modules"; ".cache"], None))
  = inr ["node_modules"; ".cache"].
Proof.
  assert (Hall : forall n, In n ["node_modules"; ".cache"] ->
            isASCII n = true /\
            TargetsFacts.clean n /\ n <> "" /\ String.prefix "#" n = false).
  { intros n [<-|[<-|[]]];
      (split; [reflexivity|
       split; [split; exact eq_refl|split; [discriminate|reflexivity]]]). }
  split; [discriminate|]. split; [exact Hall|].
  apply (readTargets_reads_back_names ["node_modules"; ".cache"]);
    [discriminate|exact Hall].
Defined.

(** X3: in a targets file of ASCII lines, the lines that count are those
    with a byte that is no blank, the first of which is not [#].  The
    other lines (blanks only, or a comment) can be left out of the file
    without changing what [readTargets] returns, error included; every
    line that counts gives one target; and the file is refused for lack
    of targets exactly when no line counts. *)
Theorem readTargets_skips_blank_and_comment_lines :
  forall (lines : list string) (scanErr : option errno),
    Forall (fun line => isASCII line = true) lines ->
    readTargets (inr (lines, scanErr)) =
      readTargets (inr (filter TargetsFacts.named lines, scanErr)) /\
    match readTargets (inr (lines, None)) with
    | inr targets =>
        List.length targets = List.length (filter TargetsFacts.named lines)
    | inl err =>
        err = NoValidTargets /\ filter TargetsFacts.named lines = []
    end.
Proof.
  intros lines scanErr _. split.
  - destruct scanErr as [e|]; [reflexivity|].
    rewrite !TargetsFacts.readTargets_lines, !TargetsFacts.filter_kept_named.
    now rewrite TargetsFacts.filter_idem.
  - rewrite TargetsFacts.readTargets_lines, TargetsFacts.filter_kept_named.
    destruct (filter TargetsFacts.named lines) as [|l ls]; simpl.
    + split; reflexivity.
    + now rewrite length_map.
Qed.

Lemma readTargets_skips_blank_and_comment_lines_witness :
  Forall (fun line => isASCII line = true)
    ["dist"; "  # vendored code"; "   "; " vendor"] /\
  filter TargetsFacts.named ["dist"; "  # vendored code"; "   "; " vendor"]
  = ["dist"; " vendor"] /\
  readTargets (inr (["dist"; "  # vendored code"; "   "; " vendor"], None)) =
    readTargets
      (inr (filter TargetsFacts.named
              ["dist"; "  # vendored code"; "   "; " vendor"], None)) /\
  match readTargets (inr (["dist"; "  # vendored code"; "   "; " vendor"], None)) with
  | inr targets =>
      List.length targets =
      List.length (filter TargetsFacts.named
                     ["dist"; "  # vendored code"; "   "; " vendor"])
  | inl err =>
      err = NoValidTargets /\
      filter TargetsFacts.named ["dist"; "  # vendored code"; "   "; " vendor"] = []
  end.
Proof.
  assert (Ha : Forall (fun line => isASCII line = true)
                 ["dist"; "  # vendored code"; "   "; " vendor"])
    by (repeat constructor).
  split; [exact Ha|]. split; [reflexivity|].
  apply (readTargets_skips_blank_and_comment_lines
           ["dist"; "  # vendored code"; "   "; " vendor"] None Ha).
Defined.

(** X4: a targets file that cannot be opened, that the line scanner could
    not read to its end, or that has only blank and comment lines aborts
    the run before the scan: the run is fatal, nothing is searched, sized
    or removed.  The error of the scanner is reported even when valid
    names were read before it. *)
Theorem unusable_targets_abort_the_run :
  forall (c : config) (e : env),
    absErr e = None ->
    IsNotExist (statErr [] (disk e)) = false ->
    (match targetsFile e with
     | inl _ => True
     | inr (_, Some _) => True
     | inr (lines, None) => Forall TargetsFacts.skipped lines
     end) ->
    (exists err,
        readTargets (targetsFile e) = inl err /\
        exit (main c e) = Fatal (TargetsUnusable err) /\
        err = match targetsFile e with
              | inl o => CannotOpen o
              | inr (_, Some r) => CannotRead r
              | inr (_, None) => NoValidTargets
              end) /\
    found (main c e) = [] /\
    notices (main c e) = [] /\
    sized (main c e) = sizeTally0 /\
    removeCalls (main c e) = [] /\
    after (main c e) = disk e.
Proof.
  intros c e Habs Hroot Hfile. unfold main. rewrite Habs, Hroot.
  assert (Hr : exists err,
             readTargets (targetsFile e) = inl err /\
             err = match targetsFile e with
                   | inl o => CannotOpen o
                   | inr (_, Some r) => CannotRead r
                   | inr (_, None) => NoValidTargets
                   end).
  { destruct (targetsFile e) as [o|[lines [r|]]].
    - eexists. split; reflexivity.
    - eexists. split; reflexivity.
    - exists NoValidTargets. split; [|reflexivity].
      rewrite TargetsFacts.readTargets_lines.
      now rewrite (TargetsFacts.skipped_all _ Hfile). }
  destruct Hr as (err & Hread & Herr). rewrite Hread. simpl.
  split; [exists err; auto|]. repeat split; reflexivity.
Qed.

Lemma unusable_targets_abort_the_run_witness :
  absErr {| absErr := None; rootName := "proj"; disk := Samples.project;
            targetsFile := inr (["# nothing yet"; "   "], None);
            stdin := "y"; sizeSched := []; deleteSched := [] |} = None /\
  IsNotExist (statErr [] Samples.project) = false /\
  Forall TargetsFacts.skipped ["# nothing yet"; "   "] /\
  exit (main (Samples.flags false true true 4)
          {| absErr := None; rootName := "proj"; disk := Samples.project;
             targetsFile := inr (["# nothing yet"; "   "], None);
             stdin := "y"; sizeSched := []; deleteSched := [] |})
  = Fatal (TargetsUnusable NoValidTargets) /\
  removeCalls (main (Samples.flags false true true 4)
                 {| absErr := None; rootName := "proj"; disk := Samples.project;
                    targetsFile := inr (["# nothing yet"; "   "], None);
                    stdin := "y"; sizeSched := []; deleteSched := [] |}) = [].
Proof.
  assert (Hs : Forall TargetsFacts.skipped ["# nothing yet"; "   "])
    by (repeat constructor).
  split; [reflexivity|]. split; [reflexivity|]. split; [exact Hs|].
  destruct (unusable_targets_abort_the_run
              (Samples.flags false true true 4)
              {| absErr := None; rootName := "proj"; disk := Samples.project;
                 targetsFile := inr (["# nothing yet"; "   "], None);
                 stdin := "y"; sizeSched := []; deleteSched := [] |}
              eq_refl eq_refl Hs)
    as ((err & _ & Hexit & Herr) & _ & _ & _ & Hcalls & _).
  split; [|exact Hcalls]. rewrite Hexit, Herr. reflexivity.
Defined.

(* ------------------------------------------------------------------ *)
(** ** [formatBytes] *)

Module Format.

(** [const unit = 1024] *)
Definition unit : Z := 1024.

(** [a * b] and [i + 1] on 64-bit operands. *)
Definition mul64 (a b : Z) : Z := wrap64 (a * b).

(** [s[i]]: out of range is a panic ([None]). *)
Definition index (s : string) (i : Z) : option ascii :=
  if (i <? 0)%Z then None else String.get (Z.to_nat i) s.

(** The two calls of [fmt.Sprintf] the function ends with, kept with
    their arguments: [("%d B", bytes)] and
    [("%.1f %ciB", float64(bytes)/float64(div), c)]. *)
Inductive rendered :=
| Bytes (bytes : Z)
| Scaled (bytes div : Z) (c : ascii).

Inductive result :=
| Rendered (r : rendered)
| IndexOutOfRange.

(** [for n := bytes / unit; n >= unit; n /= unit { div *= unit; exp++ }],
    from the values of [n], [div] and [exp] at the test; [None] when the
    fuel runs out. *)
Fixpoint scale (fuel : nat) (n div exp : Z) : option (Z * Z) :=
  if (n >=? unit)%Z then
    match fuel with
    | O => None
    | S fuel' => scale fuel' (Z.quot n unit) (mul64 div unit) (add64 exp 1)
    end
  else Some (div, exp).

(** [formatBytes(bytes)]. *)
Definition formatBytes (fuel : nat) (bytes : Z) : option result :=
  if (bytes <? unit)%Z then Some (Rendered (Bytes bytes))
  else
    match scale fuel (Z.quot bytes unit) unit 0 with
    | None => None
    | Some (div, exp) =>
        match index "KMGTPE" exp with
        | None => Some IndexOutOfRange
        | Some c => Some (Rendered (Scaled bytes div c))
        end
    end.

(** The loop leaves after [k] rounds when [n] has [k] more factors of
    1024, with [div] multiplied [k] times and [exp] advanced by [k]. *)
Lemma scale_rounds (k : nat) : forall fuel n div exp,
  k <= fuel ->
  (0 <= n < 1024 ^ (Z.of_nat k + 1))%Z ->
  (1 <= k -> (1024 ^ Z.of_nat k <= n)%Z) ->
  (0 < div)%Z -> (div * 1024 ^ Z.of_nat k < half)%Z ->
  (0 <= exp)%Z -> (exp + Z.of_nat k < half)%Z ->
  scale fuel n div exp = Some ((div * 1024 ^ Z.of_nat k)%Z, (exp + Z.of_nat k)%Z).
Proof.
  induction k as [|k IH]; intros fuel n div exp Hfuel Hn Hlow Hd Hdk He Hek.
  - assert (Hstop : (n >=? unit)%Z = false)
      by (unfold unit; rewrite Z.geb_leb; apply Z.leb_gt; simpl in Hn; lia).
    destruct fuel; simpl; rewrite Hstop; f_equal; f_equal; simpl; lia.
  - assert (Hpow : (1024 ^ Z.of_nat (S k) = 1024 * 1024 ^ Z.of_nat k)%Z).
    { rewrite Nat2Z.inj_succ, Z.pow_succ_r by lia. reflexivity. }
    assert (Hpos : (0 < 1024 ^ Z.of_nat k)%Z) by (apply Z.pow_pos_nonneg; lia).
    assert (Hge : (1024 ^ Z.of_nat (S k) <= n)%Z) by (apply Hlow; lia).
    assert (Hgo : (n >=? unit)%Z = true).
    { unfold unit. rewrite Z.geb_leb. apply Z.leb_le. rewrite Hpow in Hge. lia. }
    destruct fuel as [|fuel]; [lia|]. simpl. rewrite Hgo.
    assert (Hq : Z.quot n unit = (n / 1024)%Z)
      by (unfold unit; apply Z.quot_div_nonneg; lia).
    assert (Hm : mul64 div unit = (div * 1024)%Z).
    { unfold mul64, unit. apply wrap64_small. unfold in_range.
      rewrite Hpow in Hdk. unfold half in *. nia. }
    assert (Hx : add64 exp 1 = (exp + 1)%Z).
    { unfold add64. apply wrap64_small. unfold in_range, half in *.
      rewrite Nat2Z.inj_succ in Hek. lia. }
    rewrite Hq, Hm, Hx, IH.
    + f_equal. f_equal; rewrite ?Hpow, ?Nat2Z.inj_succ; lia.
    + lia.
    + split.
      * apply Z.div_pos; lia.
      * apply Z.div_lt_upper_bound; [lia|].
        replace (Z.of_nat (S k) + 1)%Z with (Z.succ (Z.of_nat k + 1)) in Hn
          by (rewrite Nat2Z.inj_succ; lia).
        rewrite Z.pow_succ_r in Hn by lia. lia.
    + intros _. apply Z.div_le_lower_bound; [lia|]. rewrite Hpow in Hge. lia.
    + lia.
    + rewrite Hpow in Hdk. lia.
    + lia.
    + rewrite Nat2Z.inj_succ in Hek. lia.
Qed.

End Format.

(** X5: for every [int64] value, [formatBytes] ends within five rounds of
    its loop and never indexes the unit letters out of range.  Below 1024
    (negative values included) it prints the number of bytes as it is.
    From 1024 on it picks the [k]-th letter of "KMGTPE" and the divisor
    [1024^(k+1)] with [1024^(k+1) <= bytes < 1024^(k+2)]: the divisor
    never overflows.  (How [%.1f] rounds the quotient is not part of the
    statement.) *)
Theorem formatBytes_picks_the_unit :
  forall (bytes : Z) (fuel : nat),
    in_range bytes ->
    5 <= fuel ->
    ((bytes < 1024)%Z ->
     Format.formatBytes fuel bytes = Some (Format.Rendered (Format.Bytes bytes))) /\
    ((1024 <= bytes)%Z ->
     exists (k : nat) (c : ascii),
       k <= 5 /\
       String.get k "KMGTPE" = Some c /\
       Format.formatBytes fuel bytes =
         Some (Format.Rendered (Format.Scaled bytes (1024 ^ (Z.of_nat k + 1)) c)) /\
       (1024 ^ (Z.of_nat k + 1) <= bytes < 1024 ^ (Z.of_nat k + 2))%Z).
Proof.
  intros bytes fuel Hr Hfuel. split.
  - intros Hlt. unfold Format.formatBytes, Format.unit.
    apply Z.ltb_lt in Hlt. now rewrite Hlt.
  - intros Hge.
    assert (Hk : exists k, k <= 5 /\
              (1024 ^ (Z.of_nat k + 1) <= bytes < 1024 ^ (Z.of_nat k + 2))%Z).
    { unfold in_range, half in Hr.
      destruct (Z_lt_dec bytes (1024 ^ 2)); [exists 0; simpl; lia|].
      destruct (Z_lt_dec bytes (1024 ^ 3)); [exists 1; simpl; lia|].
      destruct (Z_lt_dec bytes (1024 ^ 4)); [exists 2; simpl; lia|].
      destruct (Z_lt_dec bytes (1024 ^ 5)); [exists 3; simpl; lia|].
      destruct (Z_lt_dec bytes (1024 ^ 6)); [exists 4; simpl; lia|].
      exists 5. simpl. lia. }
    destruct Hk as (k & Hk5 & Hlo & Hhi).
    assert (Hc : exists c, String.get k "KMGTPE" = Some c).
    { do 6 (destruct k as [|k]; [simpl; eauto|]). lia. }
    destruct Hc as [c Hc]. exists k, c.
    split; [exact Hk5|]. split; [exact Hc|]. split; [|lia].
    unfold Format.formatBytes.
    assert (Hnlt : (bytes <? Format.unit)%Z = false)
      by (unfold Format.unit; apply Z.ltb_ge; lia).
    rewrite Hnlt.
    assert (Hq : Z.quot bytes Format.unit = (bytes / 1024)%Z)
      by (unfold Format.unit; apply Z.quot_div_nonneg; lia).
    assert (Hp1 : (1024 ^ (Z.of_nat k + 1) = 1024 * 1024 ^ Z.of_nat k)%Z)
      by (rewrite Z.pow_add_r by lia; lia).
    assert (Hp2 : (1024 ^ (Z.of_nat k + 2) = 1024 * 1024 ^ (Z.of_nat k + 1))%Z)
      by (replace (Z.of_nat k + 2)%Z with (Z.succ (Z.of_nat k + 1)) by lia;
          rewrite Z.pow_succ_r by lia; reflexivity).
    assert (Hpos : (0 < 1024 ^ Z.of_nat k)%Z) by (apply Z.pow_pos_nonneg; lia).
    rewrite Hq, (Format.scale_rounds k fuel (bytes / 1024) Format.unit 0).
    + unfold Format.index. simpl (0 + Z.of_nat k)%Z.
      assert (Hneg : (Z.of_nat k <? 0)%Z = false) by (apply Z.ltb_ge; lia).
      rewrite Hneg, Nat2Z.id, Hc. unfold Format.unit.
      rewrite Hp1. reflexivity.
    + lia.
    + split.
      * apply Z.div_pos; lia.
      * apply Z.div_lt_upper_bound; [lia|]. rewrite Hp2 in Hhi. lia.
    + intros _. apply Z.div_le_lower_bound; [lia|]. rewrite Hp1 in Hlo. lia.
    + unfold Format.unit. lia.
    + unfold Format.unit, half. unfold in_range, half in Hr.
      rewrite Hp1 in Hlo. lia.
    + lia.
    + unfold half. lia.
Qed.

Lemma formatBytes_picks_the_unit_witness :
  in_range 5200 /\ 5 <= 5 /\ (1024 <= 5200)%Z /\
  exists (k : nat) (c : ascii),
    k <= 5 /\
    String.get k "KMGTPE" = Some c /\
    Format.formatBytes 5 5200 =
      Some (Format.Rendered (Format.Scaled 5200 (1024 ^ (Z.of_nat k + 1)) c)) /\
    (1024 ^ (Z.of_nat k + 1) <= 5200 < 1024 ^ (Z.of_nat k + 2))%Z.
Proof.
  assert (Hr : in_range 5200) by (unfold in_range, half; lia).
  split; [exact Hr|]. split; [lia|]. split; [lia|].
  destruct (formatBytes_picks_the_unit 5200 5 Hr (le_n 5)) as [_ Hbig].
  apply Hbig. lia.
Defined.

(* ------------------------------------------------------------------ *)
(** ** How runs end, and what a reported run did *)

Module ReportFacts.

Import MainFacts.

(** The ways [proceed] can end. *)
Lemma proceed_ends c e targets :
  exit (proceed c e targets) = NoneFound \/
  exit (proceed c e targets) = DryRunDone \/
  exit (proceed c e targets) = Cancelled \/
  exit (proceed c e targets) = Reported.
Proof.
  rewrite RunFacts.proceed_exit.
  destruct (ScanFacts.matchedFrom _ _ _); [auto|].
  destruct (dryRun c); [auto|].
  destruct (negb _ && negb _); auto.
Qed.

(** The size phase records no error, whatever the number of workers. *)
Lemma sizePhase_no_error c rootName dirs w sched :
  sizeErrors (sizePhase c rootName dirs w sched) = [].
Proof.
  destruct (Z_le_gt_dec 1 (maxWorkers c)) as [HW|HW].
  - destruct (sizePhase_workers c rootName dirs w sched HW) as (order & _ & Hz).
    now rewrite Hz.
  - rewrite sizePhase_idle by lia. reflexivity.
Qed.

Lemma proceed_sized_any c e targets :
  sized (proceed c e targets) = sizeTally0 \/
  sized (proceed c e targets) =
  sizePhase c (rootName e) (found (proceed c e targets)) (disk e) (sizeSched e).
Proof.
  destruct (found (proceed c e targets)) as [|d ds] eqn:Hf.
  - left. rewrite RunFacts.proceed_found in Hf.
    rewrite proceed_eq. cbv zeta. cbn [dirsToDelete]. now rewrite Hf.
  - right. rewrite <- Hf. apply RunFacts.proceed_sized. rewrite Hf. discriminate.
Qed.

(** A run that reached its final report went through both phases. *)
Lemma reported_run c e :
  exit (main c e) = Reported ->
  found (main c e) <> [] /\
  sized (main c e) =
    sizePhase c (rootName e) (found (main c e)) (disk e) (sizeSched e) /\
  collectDeletes (found (main c e)) (dirSizes (sized (main c e)))
    (resultsChan (deletePool c (found (main c e)) (disk e) (deleteSched e)))
    deleteTally0 = Some (deleted (main c e)) /\
  after (main c e) =
    t_fs (world (deletePool c (found (main c e)) (disk e) (deleteSched e))) /\
  removeCalls (main c e) =
    t_calls (world (deletePool c (found (main c e)) (disk e) (deleteSched e))).
Proof.
  unfold main.
  destruct (absErr e); [discriminate|].
  destruct (IsNotExist (statErr [] (disk e))); [discriminate|].
  destruct (readTargets (targetsFile e)) as [err|targets]; [discriminate|].
  rewrite proceed_eq. cbv zeta. cbn [dirsToDelete scanErrors].
  destruct (ScanFacts.matchedFrom targets (rootName e) (disk e)) as [|d ds];
    [discriminate|].
  destruct (dryRun c); [discriminate|].
  destruct (negb (skipPrompt c) && negb (affirmative (stdin e))); [discriminate|].
  destruct (collectDeletes _ _ _ _) as [t|] eqn:Hc; [|discriminate].
  intros _. cbn [found sized deleted after removeCalls].
  repeat split; try reflexivity; [discriminate|exact Hc].
Qed.

(** Each result adds one to the count of deleted directories or one entry
    to the list of errors. *)
Lemma collectDeletes_count dirs sizes rs : forall t t',
  collectDeletes dirs sizes rs t = Some t' ->
  deletedCount t' + List.length (deleteErrors t') =
  deletedCount t + List.length (deleteErrors t) + List.length rs.
Proof.
  induction rs as [|r rs IH]; intros t t' H; simpl in H.
  - inversion H. simpl. lia.
  - destruct (collectDelete dirs sizes t r) as [t1|] eqn:Hc; [|discriminate].
    rewrite (IH _ _ H). unfold collectDelete in Hc.
    destruct (nth_error dirs (dr_index r)); [|discriminate].
    destruct (dr_err r).
    + inversion Hc; subst. simpl. rewrite length_app. simpl. lia.
    + destruct (nth_error sizes (dr_index r)); [|discriminate].
      inversion Hc; subst. simpl. lia.
Qed.

(** The errors listed name candidates. *)
Lemma collectDeletes_errors dirs sizes rs : forall t t',
  collectDeletes dirs sizes rs t = Some t' ->
  incl (map fst (deleteErrors t)) dirs ->
  incl (map fst (deleteErrors t')) dirs.
Proof.
  induction rs as [|r rs IH]; intros t t' H Hin; simpl in H.
  - now inversion H; subst.
  - destruct (collectDelete dirs sizes t r) as [t1|] eqn:Hc; [|discriminate].
    apply (IH _ _ H). unfold collectDelete in Hc.
    destruct (nth_error dirs (dr_index r)) as [dir|] eqn:Hd; [|discriminate].
    destruct (dr_err r).
    + inversion Hc; subst. simpl. rewrite map_app. simpl.
      apply incl_app; [exact Hin|].
      intros x [<-|[]]. eapply nth_error_In; eauto.
    + destruct (nth_error sizes (dr_index r)); [|discriminate].
      inversion Hc; subst. exact Hin.
Qed.

(** The calls of [os.RemoveAll] made by workers that process the indices
    of [order] one after the other. *)
Lemma delete_serial_calls dirs order : forall w w' rs,
  serial (deleteWorker dirs) order w = Some (w', rs) ->
  exists ps,
    t_calls w' = t_calls w ++ ps /\
    Forall2 (fun i p => nth_error dirs i = Some p) order ps.
Proof.
  induction order as [|x order IH]; intros w w' rs H; simpl in H.
  - inversion H; subst. exists []. rewrite app_nil_r. split; [reflexivity|constructor].
  - destruct (deleteWorker dirs x w) as [[w1 r]|] eqn:Hd; [|discriminate].
    destruct (serial _ order w1) as [[w2 rs2]|] eqn:Hs; [|discriminate].
    inversion H; subst. destruct (IH _ _ _ Hs) as (ps & Hcalls & Hall).
    unfold deleteWorker in Hd.
    destruct (nth_error dirs x) as [dir|] eqn:Hn; [|discriminate].
    destruct (RemoveAll dir (t_fs w)) as [w1' err]. inversion Hd; subst.
    exists (dir :: ps). simpl in Hcalls. rewrite Hcalls, <- app_assoc.
    split; [reflexivity|]. constructor; assumption.
Qed.

Lemma map_nth_seq {X : Type} (d : X) (l : list X) : forall k,
  map (fun i => nth (i - k) l d) (seq k (List.length l)) = l.
Proof.
  induction l as [|x l IH]; intros k; simpl; [reflexivity|].
  rewrite Nat.sub_diag. f_equal. rewrite <- (IH (S k)) at 2.
  apply map_ext_in. intros i Hi. apply in_seq in Hi.
  replace (i - k) with (S (i - S k)) by lia. reflexivity.
Qed.

(** With at least one worker, [os.RemoveAll] is called once for every
    candidate and for nothing else. *)
Lemma delete_calls_permutation c dirs w sched :
  (1 <= maxWorkers c)%Z ->
  Permutation (t_calls (world (deletePool c dirs w sched))) dirs.
Proof.
  intros HW.
  destruct (deletePool_workers c dirs w sched HW)
    as (_ & order & Hperm & _ & Hser).
  destruct (delete_serial_calls _ _ _ _ _ Hser) as (ps & Hcalls & Hall).
  rewrite Hcalls. simpl.
  assert (Hps : ps = map (fun i => nth (i - 0) dirs []) order).
  { clear -Hall. induction Hall as [|i p order ps Hi _ IH]; [reflexivity|].
    simpl. rewrite <- IH. f_equal. rewrite Nat.sub_0_r.
    symmetry. now apply nth_error_nth. }
  rewrite Hps.
  apply Permutation_trans
    with (map (fun i => nth (i - 0) dirs []) (seq 0 (List.length dirs))).
  - now apply Permutation_map.
  - now rewrite map_nth_seq.
Qed.

End ReportFacts.

Lemma terminal_eq_Reported (t : terminal) : {t = Reported} + {t <> Reported}.
Proof. destruct t; (now left) || (right; discriminate). Qed.

(** X6: no run panics and no run dies on "Error walking directory".  The
    scan callback never returns an error, so [filepath.WalkDir] never
    does; [dirsToDelete[index]] and [dirSizes[result.index]] are in range
    for every worker count and every schedule.  A run ends with one of
    the three fatal checks before the scan, or at one of the four
    [return]s of [main]. *)
Theorem run_ends_without_panic :
  forall (c : config) (e : env),
    exit (main c e) <> Panic /\
    (forall err, exit (main c e) <> Fatal (WalkFailed err)) /\
    (forall (dirs : list path) (s1 s2 : list nat),
        panicked (deletePool c dirs (disk e) s2) = false /\
        exists d,
          collectDeletes dirs
            (dirSizes (sizePhase c (rootName e) dirs (disk e) s1))
            (resultsChan (deletePool c dirs (disk e) s2)) deleteTally0 = Some d).
Proof.
  intros c e.
  assert (Hp : forall targets,
             exit (proceed c e targets) <> Panic /\
             forall err, exit (proceed c e targets) <> Fatal (WalkFailed err)).
  { intros targets.
    destruct (ReportFacts.proceed_ends c e targets) as [H|[H|[H|H]]];
      rewrite H; split; try discriminate; intros err; discriminate. }
  split; [|split].
  - unfold main. destruct (absErr e); [discriminate|].
    destruct (IsNotExist _); [discriminate|].
    destruct (readTargets _) as [err|targets]; [discriminate|apply Hp].
  - intros err. unfold main. destruct (absErr e); [discriminate|].
    destruct (IsNotExist _); [discriminate|].
    destruct (readTargets _) as [err'|targets]; [discriminate|apply Hp].
  - intros dirs s1 s2. apply MainFacts.collect_safe.
Qed.

(** X7: when the scan finds no candidate the run stops there, whatever the
    flags and the response: it ends with "No target directories found"
    (or was fatal before the scan), nothing is sized, [os.RemoveAll] is
    never called and the file system is left as it was. *)
Theorem no_candidate_no_deletion :
  forall (c : config) (e : env),
    found (main c e) = [] ->
    (exit (main c e) = NoneFound \/ exists f, exit (main c e) = Fatal f) /\
    sized (main c e) = sizeTally0 /\
    deleted (main c e) = deleteTally0 /\
    removeCalls (main c e) = [] /\
    after (main c e) = disk e.
Proof.
  intros c e. unfold main.
  destruct (absErr e); [intros _; simpl; eauto 10|].
  destruct (IsNotExist _); [intros _; simpl; eauto 10|].
  destruct (readTargets _) as [err|targets]; [intros _; simpl; eauto 10|].
  rewrite RunFacts.proceed_found. intros Hnone.
  assert (Hexit : exit (proceed c e targets) = NoneFound)
    by (rewrite RunFacts.proceed_exit; now rewrite Hnone).
  destruct (RunFacts.proceed_untouched c e targets) as (Ha & Hr & Hd);
    [rewrite Hexit; discriminate|].
  split; [now left|]. split; [|auto].
  rewrite MainFacts.proceed_eq. cbv zeta. cbn [dirsToDelete]. now rewrite Hnone.
Qed.

Lemma no_candidate_no_deletion_witness :
  found (main (Samples.flags false true true 4)
           (Samples.surroundings (Some (Samples.folder [("src", Samples.folder [])]))
              "y" [] [])) = [] /\
  (exit (main (Samples.flags false true true 4)
           (Samples.surroundings (Some (Samples.folder [("src", Samples.folder [])]))
              "y" [] [])) = NoneFound \/
   exists f,
     exit (main (Samples.flags false true true 4)
             (Samples.surroundings (Some (Samples.folder [("src", Samples.folder [])]))
                "y" [] [])) = Fatal f) /\
  removeCalls (main (Samples.flags false true true 4)
                 (Samples.surroundings (Some (Samples.folder [("src", Samples.folder [])]))
                    "y" [] [])) = [].
Proof.
  split; [reflexivity|].
  destruct (no_candidate_no_deletion
              (Samples.flags false true true 4)
              (Samples.surroundings (Some (Samples.folder [("src", Samples.folder [])]))
                 "y" [] [])
              eq_refl) as (Hexit & _ & _ & Hcalls & _).
  split; [exact Hexit|exact Hcalls].
Defined.

(** X8: no size error is ever collected: every result of a size worker
    carries a [nil] error, so the branch that sets a size to 0 and
    records "Could not calculate size" is never taken and the list of
    size errors stays empty, with or without the verbose flag. *)
Theorem size_errors_never_collected :
  forall (c : config) (e : env),
    sizeErrors (sized (main c e)) = [] /\
    forall (rootName : string) (dirs : list path) (w : fs)
           (sched : list nat) (r : sizeResult),
      In r (resultsChan (runPool (sizeWorker rootName) (maxWorkers c) dirs w sched)) ->
      sr_err r = None /\ sr_size r = fst (dirSize rootName (sr_path r) w).
Proof.
  intros c e. split.
  - unfold main. destruct (absErr e); [reflexivity|].
    destruct (IsNotExist _); [reflexivity|].
    destruct (readTargets _) as [err|targets]; [reflexivity|].
    destruct (ReportFacts.proceed_sized_any c e targets) as [H|H]; rewrite H.
    + reflexivity.
    + apply ReportFacts.sizePhase_no_error.
  - intros rootName dirs w sched r Hr.
    destruct (Z_le_gt_dec 1 (maxWorkers c)) as [HW|HW].
    + destruct (PoolFacts.runPool_serial (sizeWorker rootName) dirs w
                  (fun x w' _ => ltac:(rewrite MainFacts.sizeWorker_answer; discriminate))
                  (maxWorkers c) sched HW) as (_ & _ & order & _ & Hser).
      rewrite MainFacts.sizeWorker_serial in Hser. injection Hser as Hw Hrs.
      rewrite <- Hrs in Hr. apply in_map_iff in Hr as (p & <- & _).
      split; reflexivity.
    + rewrite PoolFacts.runPool_no_worker in Hr by lia. contradiction.
Qed.

(** X9: in a run that reaches the final report with at least one worker,
    every candidate is accounted for exactly once: the number of
    directories counted as deleted plus the number of deletion errors
    listed is the number of candidates, and every error listed names a
    candidate. *)
Theorem every_candidate_deleted_or_listed :
  forall (c : config) (e : env),
    (1 <= maxWorkers c)%Z ->
    exit (main c e) = Reported ->
    deletedCount (deleted (main c e)) +
      List.length (deleteErrors (deleted (main c e))) =
      List.length (found (main c e)) /\
    incl (map fst (deleteErrors (deleted (main c e)))) (found (main c e)).
Proof.
  intros c e HW Hrep.
  destruct (ReportFacts.reported_run c e Hrep) as (_ & _ & Hcol & _ & _).
  split.
  - rewrite (ReportFacts.collectDeletes_count _ _ _ _ _ Hcol). simpl.
    destruct (MainFacts.deletePool_workers c (found (main c e)) (disk e)
                (deleteSched e) HW) as (_ & order & Hperm & Hidx & _).
    rewrite <- (length_map dr_index), Hidx, (Permutation_length Hperm).
    apply length_seq.
  - apply (ReportFacts.collectDeletes_errors _ _ _ _ _ Hcol).
    intros x [].
Qed.

Lemma every_candidate_deleted_or_listed_witness :
  (1 <= maxWorkers (Samples.flags false true false 2))%Z /\
  exit (main (Samples.flags false true false 2)
          (Samples.surroundings Samples.twoSizes "" Samples.secondFirst [1; 0]))
  = Reported /\
  deletedCount (deleted (main (Samples.flags false true false 2)
                           (Samples.surroundings Samples.twoSizes ""
                              Samples.secondFirst [1; 0]))) +
    List.length (deleteErrors (deleted (main (Samples.flags false true false 2)
                                         (Samples.surroundings Samples.twoSizes ""
                                            Samples.secondFirst [1; 0])))) =
    List.length (found (main (Samples.flags false true false 2)
                          (Samples.surroundings Samples.twoSizes ""
                             Samples.secondFirst [1; 0]))) /\
  incl (map fst (deleteErrors (deleted (main (Samples.flags false true false 2)
                                          (Samples.surroundings Samples.twoSizes ""
                                             Samples.secondFirst [1; 0])))))
       (found (main (Samples.flags false true false 2)
                 (Samples.surroundings Samples.twoSizes "" Samples.secondFirst [1; 0]))).
Proof.
  split; [vm_compute; discriminate|]. split; [reflexivity|].
  apply (every_candidate_deleted_or_listed
           (Samples.flags false true false 2)
           (Samples.surroundings Samples.twoSizes "" Samples.secondFirst [1; 0]));
    [vm_compute; discriminate|reflexivity].
Defined.

(** X10: [os.RemoveAll] is only ever called on candidates: in every run
    the paths it is called on are candidates found by the scan, and in a
    run that reaches the final report with at least one worker it is
    called exactly once on each candidate. *)
Theorem RemoveAll_called_on_candidates_only :
  forall (c : config) (e : env),
    incl (removeCalls (main c e)) (found (main c e)) /\
    ((1 <= maxWorkers c)%Z ->
     exit (main c e) = Reported ->
     Permutation (removeCalls (main c e)) (found (main c e))).
Proof.
  intros c e.
  assert (Hperm : (1 <= maxWorkers c)%Z -> exit (main c e) = Reported ->
                  Permutation (removeCalls (main c e)) (found (main c e))).
  { intros HW Hrep.
    destruct (ReportFacts.reported_run c e Hrep) as (_ & _ & _ & _ & Hcalls).
    rewrite Hcalls. now apply ReportFacts.delete_calls_permutation. }
  split; [|exact Hperm].
  destruct (terminal_eq_Reported (exit (main c e))) as [Hrep|Hrep].
  - destruct (Z_le_gt_dec 1 (maxWorkers c)) as [HW|HW].
    + intros p Hp. eapply Permutation_in; [apply Hperm; assumption|exact Hp].
    + destruct (ReportFacts.reported_run c e Hrep) as (_ & _ & _ & _ & Hcalls).
      rewrite Hcalls, MainFacts.deletePool_idle by lia. intros p [].
  - assert (Hnone : removeCalls (main c e) = []).
    { revert Hrep. unfold main. destruct (absErr e); [reflexivity|].
      destruct (IsNotExist _); [reflexivity|].
      destruct (readTargets _) as [err|targets]; [reflexivity|].
      intros Hrep. now apply RunFacts.proceed_untouched. }
    rewrite Hnone. intros p [].
Qed.

(* ------------------------------------------------------------------ *)
(** ** What a removal changes *)

Module DeleteFacts.

Import RemoveFacts.

(** [q] is [p] or lies beneath [p]. *)
Definition within (p q : path) : Prop := exists r, q = p ++ r.

(** Neither path is or lies beneath the other. *)
Definition apart (p q : path) : Prop := ~ within p q /\ ~ within q p.

Lemma apart_sym p q : apart p q -> apart q p.
Proof. intros [H1 H2]. split; assumption. Qed.

Lemma apart_cons nm p q : apart (nm :: p) (nm :: q) -> apart p q.
Proof.
  intros [H1 H2]. split; intros [r ->]; [apply H1|apply H2]; exists r; reflexivity.
Qed.

Lemma apart_nil_l q : ~ apart [] q.
Proof. intros [H _]. apply H. exists q. reflexivity. Qed.

Lemma apart_nil_r p : ~ apart p [].
Proof. intros [_ H]. apply H. exists p. reflexivity. Qed.

(** [lstat] below a directory, by its entries. *)
Definition lstat_in (q : path) (nm : string) (es : list (string * node)) : errno + node :=
  match find_entry nm es with
  | Some c => lstat_at q c
  | None => inl ENOENT
  end.

Lemma lstat_at_Dir nm q a rd es :
  lstat_at (nm :: q) (Dir a rd es) = lstat_in q nm es.
Proof. reflexivity. Qed.

(** Removing at [p] leaves every path apart from [p] as it was. *)
Lemma rmAt_frame p : forall n q,
  apart p q ->
  exists n1 err, rmAt p n = (Some n1, err) /\ lstat_at q n1 = lstat_at q n.
Proof.
  induction p as [|nm p IH]; intros n q Hap; [now elim (apart_nil_l q)|].
  destruct q as [|nm' q]; [now elim (apart_nil_r (nm :: p))|].
  destruct n as [a|a rd es|d e].
  - simpl. eauto.
  - rewrite rmAt_Dir.
    assert (Hs : forall es', fst (seek nm p es) = es' ->
                 lstat_in q nm' es' = lstat_in q nm' es).
    { intros es' <-. induction es as [|[n0 c0] tl IHtl]; [reflexivity|].
      cbn [seek]. destruct (String.eqb_spec nm n0) as [->|Hne].
      - destruct (String.eqb_spec nm' n0) as [->|Hne'].
        + destruct (IH c0 q (apart_cons _ _ _ Hap)) as (k & err & Hrm & Hl).
          rewrite Hrm. cbn [fst]. unfold lstat_in. simpl.
          rewrite String.eqb_refl. exact Hl.
        + destruct (rmAt p c0) as [[k|] err]; cbn [fst]; unfold lstat_in; simpl;
            apply String.eqb_neq in Hne'; rewrite Hne'; reflexivity.
      - destruct (seek nm p tl) as [tl' err] eqn:Htl. cbn [fst] in *.
        unfold lstat_in in *. simpl.
        destruct (String.eqb nm' n0); [reflexivity|exact IHtl]. }
    destruct (seek nm p es) as [es' err] eqn:Hseek.
    exists (Dir a rd es'), err. split; [reflexivity|].
    rewrite !lstat_at_Dir. now apply Hs.
  - simpl. eauto.
Qed.

Lemma RemoveAll_frame p q w :
  apart p q -> lstat q (fst (RemoveAll p w)) = lstat q w.
Proof.
  intros Hap. destruct w as [n|]; [|reflexivity]. simpl.
  destruct (rmAt_frame p n q Hap) as (n1 & err & Hrm & Hl).
  rewrite Hrm. exact Hl.
Qed.

(** A whole entry removed without error is gone. *)
Lemma rmTree_success n n' :
  rmTree n = (n', None) -> lstat [] n' = inl ENOENT.
Proof.
  destruct n as [a|a rd es|d e]; simpl.
  - destruct (a_rm a); intros H; inversion H. reflexivity.
  - set (each := fix each (l : list (string * node)) := _).
    destruct es as [|e0 tl].
    + simpl. destruct (a_rm a); intros H; inversion H. reflexivity.
    + destruct rd; [discriminate|].
      destruct (each (e0 :: tl)) as [[|k es'] err].
      * destruct (a_rm a); intros H; inversion H. reflexivity.
      * destruct err; discriminate.
  - destruct e; simpl; intros H; inversion H; reflexivity.
Qed.

(** Along the path [p], every directory lists each name once. *)
Fixpoint uniqueAlong (p : path) (n : node) : Prop :=
  match p, n with
  | nm :: q, Dir _ _ es =>
      NoDup (map fst es) /\
      match find_entry nm es with
      | Some c => uniqueAlong q c
      | None => True
      end
  | _, _ => True
  end.

Definition uniqueAlongFs (p : path) (w : fs) : Prop :=
  match w with
  | Some n => uniqueAlong p n
  | None => True
  end.

Lemma uniqueNames_along n : forall p,
  ScanFacts.uniqueNames n = true -> uniqueAlong p n.
Proof.
  induction n as [a|d e|a rd es IH] using node_ind'; intros p Hu;
    destruct p as [|nm q]; try exact I.
  destruct (ScanFacts.uniqueNames_Dir _ _ _ Hu) as [Hnd Hall].
  split; [exact Hnd|].
  destruct (find_entry nm es) as [c|] eqn:Hf; [|exact I].
  apply ScanFacts.In_find_entry in Hf.
  rewrite Forall_forall in IH, Hall.
  apply (IH (nm, c) Hf). apply (Hall (nm, c) Hf).
Qed.

Lemma find_entry_not_In nm es : ~ In nm (map fst es) -> find_entry nm es = None.
Proof.
  induction es as [|[n0 c0] tl IH]; simpl; intros H; [reflexivity|].
  destruct (String.eqb_spec nm n0) as [->|Hne]; [elim H; now left|].
  apply IH. intros Hin. apply H. now right.
Qed.

(** Removing at [p] without error leaves nothing at [p]. *)
Lemma rmAt_success p : forall n n',
  uniqueAlong p n -> rmAt p n = (n', None) -> lstat p n' = inl ENOENT.
Proof.
  induction p as [|nm p IH]; intros n n' Hu H.
  - now apply rmTree_success with (n := n).
  - destruct n as [a|a rd es|d e].
    + discriminate.
    + rewrite rmAt_Dir in H. destruct Hu as [Hnd Hu].
      destruct (seek nm p es) as [es' err] eqn:Hseek.
      inversion H; subst. simpl. fold (lstat_in p nm es').
      clear H. revert es' Hseek.
      induction es as [|[n0 c0] tl IHtl]; intros es' Hseek; cbn [seek] in Hseek.
      * inversion Hseek. reflexivity.
      * simpl in Hu. inversion Hnd as [|? ? Hnot Hnd']; subst.
        destruct (String.eqb_spec nm n0) as [->|Hne].
        -- destruct (rmAt p c0) as [c' e1] eqn:Hrm. inversion Hseek; subst.
           specialize (IH c0 c' Hu Hrm). unfold lstat_in.
           destruct c' as [k|]; simpl.
           ++ rewrite String.eqb_refl. exact IH.
           ++ simpl in Hnot. now rewrite (find_entry_not_In n0 tl Hnot).
        -- destruct (seek nm p tl) as [tl' e1] eqn:Htl. inversion Hseek; subst.
           unfold lstat_in. simpl. apply String.eqb_neq in Hne. rewrite Hne.
           apply (IHtl Hnd' Hu tl' eq_refl).
    + simpl in H. destruct e; inversion H. reflexivity.
Qed.

Lemma RemoveAll_success p w w' :
  uniqueAlongFs p w -> RemoveAll p w = (w', None) -> absent p w'.
Proof.
  unfold absent. destruct w as [n|]; simpl.
  - apply rmAt_success.
  - intros _ H. inversion H. reflexivity.
Qed.

(** What the search of [rmAt] does to the entries of a directory. *)
Lemma seek_names nm q es :
  incl (map fst (fst (seek nm q es))) (map fst es).
Proof.
  induction es as [|[n0 c0] tl IH]; cbn [seek]; [apply incl_refl|].
  destruct (String.eqb nm n0).
  - destruct (rmAt q c0) as [[k|] e]; simpl.
    + apply incl_refl.
    + apply incl_tl, incl_refl.
  - destruct (seek nm q tl) as [tl' e]. simpl in *.
    apply incl_cons; [now left|]. now apply incl_tl.
Qed.

Lemma seek_NoDup nm q es :
  NoDup (map fst es) -> NoDup (map fst (fst (seek nm q es))).
Proof.
  induction es as [|[n0 c0] tl IH]; cbn [seek]; intros Hnd; [constructor|].
  inversion Hnd as [|? ? Hnot Hnd']; subst.
  destruct (String.eqb nm n0).
  - destruct (rmAt q c0) as [[k|] e]; simpl; [constructor|]; assumption.
  - pose proof (seek_names nm q tl) as Hin.
    destruct (seek nm q tl) as [tl' e]. simpl in *.
    constructor; [|now apply IH]. intros H. apply Hnot. now apply Hin.
Qed.

Lemma seek_find_other nm nm' q es :
  nm' <> nm -> find_entry nm' (fst (seek nm q es)) = find_entry nm' es.
Proof.
  intros Hne. induction es as [|[n0 c0] tl IH]; cbn [seek]; [reflexivity|].
  destruct (String.eqb_spec nm n0) as [->|Hn0].
  - apply String.eqb_neq in Hne.
    destruct (rmAt q c0) as [[k|] e]; simpl; now rewrite Hne.
  - destruct (seek nm q tl) as [tl' e]. simpl in *.
    destruct (String.eqb nm' n0); [reflexivity|exact IH].
Qed.

Lemma seek_find_same nm q es c k e :
  find_entry nm es = Some c -> rmAt q c = (Some k, e) ->
  find_entry nm (fst (seek nm q es)) = Some k.
Proof.
  induction es as [|[n0 c0] tl IH]; cbn [seek find_entry]; [discriminate|].
  destruct (String.eqb nm n0) eqn:Hn0.
  - intros Hc Hrm. inversion Hc; subst. rewrite Hrm. simpl. now rewrite Hn0.
  - intros Hc Hrm. specialize (IH Hc Hrm).
    destruct (seek nm q tl) as [tl' e']. simpl in *. now rewrite Hn0.
Qed.

Lemma seek_find_none nm q es :
  find_entry nm es = None -> find_entry nm (fst (seek nm q es)) = None.
Proof.
  induction es as [|[n0 c0] tl IH]; cbn [seek find_entry]; [reflexivity|].
  destruct (String.eqb nm n0) eqn:Hn0; [discriminate|].
  intros Hc. specialize (IH Hc).
  destruct (seek nm q tl) as [tl' e']. simpl in *. now rewrite Hn0.
Qed.

(** Removing at [q] keeps the names along a path apart from [q]
    distinct. *)
Lemma rmAt_keeps_unique q : forall n p n1 err,
  apart q p -> uniqueAlong p n -> rmAt q n = (Some n1, err) -> uniqueAlong p n1.
Proof.
  induction q as [|nm q IH]; intros n p n1 err Hap Hu H;
    [now elim (apart_nil_l p)|].
  destruct p as [|nm' p]; [now elim (apart_nil_r (nm :: q))|].
  destruct n as [a|a rd es|d e].
  - inversion H; subst. exact I.
  - rewrite rmAt_Dir in H. destruct Hu as [Hnd Hu].
    pose proof (seek_NoDup nm q es Hnd) as Hnd'.
    destruct (String.eqb_spec nm' nm) as [->|Hne].
    + apply apart_cons in Hap.
      destruct (find_entry nm es) as [c|] eqn:Hf.
      * destruct (rmAt_frame q c p Hap) as (k & e1 & Hrm & _).
        pose proof (seek_find_same nm q es c k e1 Hf Hrm) as Hk.
        destruct (seek nm q es) as [es' e2]. inversion H; subst.
        simpl in *. split; [exact Hnd'|]. rewrite Hk. eapply IH; eauto.
      * pose proof (seek_find_none nm q es Hf) as Hk.
        destruct (seek nm q es) as [es' e2]. inversion H; subst.
        simpl in *. split; [exact Hnd'|]. now rewrite Hk.
    + pose proof (seek_find_other nm nm' q es Hne) as Hk.
      destruct (seek nm q es) as [es' e2]. inversion H; subst.
      simpl in *. split; [exact Hnd'|]. now rewrite Hk.
  - inversion H; subst. exact I.
Qed.

Lemma RemoveAll_keeps_unique q p w :
  apart q p -> uniqueAlongFs p w -> uniqueAlongFs p (fst (RemoveAll q w)).
Proof.
  intros Hap Hu. destruct w as [n|]; [|exact I]. simpl.
  destruct (rmAt_frame q n p Hap) as (n1 & err & Hrm & _).
  rewrite Hrm. simpl. eapply rmAt_keeps_unique; eauto.
Qed.

End DeleteFacts.

(* ------------------------------------------------------------------ *)
(** ** The deletion phase on the file system *)

Module GoneFacts.

Import DeleteFacts.

(** Under distinct names no candidate is listed twice. *)
Lemma matchedFrom_NoDup targets rootName w :
  ScanFacts.uniqueNamesFs w = true ->
  NoDup (ScanFacts.matchedFrom targets rootName w).
Proof.
  intros Hu. unfold ScanFacts.matchedFrom.
  destruct (lstat [] w) as [e|n] eqn:Hl; [constructor|].
  apply lstat_root_ok in Hl. subst w. now apply ScanFacts.matched_NoDup.
Qed.

(** Two different candidates lie apart. *)
Lemma candidates_apart targets rootName w p q :
  ScanFacts.uniqueNamesFs w = true ->
  In p (ScanFacts.matchedFrom targets rootName w) ->
  In q (ScanFacts.matchedFrom targets rootName w) ->
  p <> q -> apart p q.
Proof.
  intros Hu Hp Hq Hne.
  apply (ScanFacts.matchedFrom_reportable targets rootName w p Hu) in Hp.
  apply (ScanFacts.matchedFrom_reportable targets rootName w q Hu) in Hq.
  destruct Hp as (_ & Htp & Hnp). destruct Hq as (_ & Htq & Hnq).
  assert (Hno : forall a b,
            In (baseName rootName a) targets ->
            (forall q', ScanFacts.above q' b ->
                        ~ In (baseName rootName q') targets) ->
            a <> b -> ~ within a b).
  { intros a b Ha Hb Hab [r ->].
    assert (Hr : r <> []) by (intros ->; apply Hab; now rewrite app_nil_r).
    apply (Hb a); [|exact Ha]. exists r. auto. }
  split; [now apply Hno|apply Hno; auto].
Qed.

Section Serial.
Variable dirs : list path.

(** Deletions at indices whose candidates lie apart from [q] leave [q] as
    it was. *)
Lemma serial_frame order : forall w w' rs q,
  serial (deleteWorker dirs) order w = Some (w', rs) ->
  (forall y p, In y order -> nth_error dirs y = Some p -> apart p q) ->
  lstat q (t_fs w') = lstat q (t_fs w) /\
  (uniqueAlongFs q (t_fs w) -> uniqueAlongFs q (t_fs w')).
Proof.
  induction order as [|x order IH]; intros w w' rs q H Hap; simpl in H.
  - inversion H; subst. auto.
  - destruct (deleteWorker dirs x w) as [[w1 r]|] eqn:Hd; [|discriminate].
    destruct (serial _ order w1) as [[w2 rs2]|] eqn:Hs; [|discriminate].
    inversion H; subst. unfold deleteWorker in Hd.
    destruct (nth_error dirs x) as [dir|] eqn:Hn; [|discriminate].
    destruct (RemoveAll dir (t_fs w)) as [w1' err] eqn:Hrm. inversion Hd; subst.
    assert (Hx : apart dir q) by (apply (Hap x); [now left|exact Hn]).
    destruct (IH _ _ _ q Hs) as [Hl Hu];
      [intros y p Hy; apply Hap; now right|].
    simpl in Hl, Hu. split.
    + rewrite Hl. pose proof (RemoveAll_frame dir q (t_fs w) Hx) as Hf.
      now rewrite Hrm in Hf.
    + intros Huq. apply Hu.
      pose proof (RemoveAll_keeps_unique dir q (t_fs w) Hx Huq) as Hk.
      now rewrite Hrm in Hk.
Qed.

Hypothesis distinct_apart : forall x y p q,
  x <> y -> nth_error dirs x = Some p -> nth_error dirs y = Some q -> apart p q.

(** A candidate whose removal was answered without error is absent when
    all workers are done. *)
Lemma serial_gone order : forall w w' rs,
  NoDup order ->
  (forall y p, In y order -> nth_error dirs y = Some p -> uniqueAlongFs p (t_fs w)) ->
  serial (deleteWorker dirs) order w = Some (w', rs) ->
  forall r p,
    In r rs -> dr_err r = None -> nth_error dirs (dr_index r) = Some p ->
    absent p (t_fs w').
Proof.
  induction order as [|x order IH]; intros w w' rs Hnd Hu H r p Hr Herr Hp;
    simpl in H.
  - inversion H; subst. contradiction.
  - destruct (deleteWorker dirs x w) as [[w1 r1]|] eqn:Hd; [|discriminate].
    destruct (serial _ order w1) as [[w2 rs2]|] eqn:Hs; [|discriminate].
    inversion H; subst. unfold deleteWorker in Hd.
    destruct (nth_error dirs x) as [dir|] eqn:Hn; [|discriminate].
    destruct (RemoveAll dir (t_fs w)) as [w1' err] eqn:Hrm. inversion Hd; subst.
    inversion Hnd as [|? ? Hnot Hnd']; subst.
    assert (Hrest : forall y q, In y order -> nth_error dirs y = Some q -> apart dir q).
    { intros y q Hy Hq. apply (distinct_apart x y); auto.
      intros ->. now apply Hnot. }
    destruct Hr as [<-|Hr].
    + simpl in Herr, Hp. subst err. rewrite Hn in Hp. inversion Hp; subst p.
      unfold absent.
      destruct (serial_frame order _ _ _ dir Hs) as [Hl _].
      { intros y q Hy Hq. apply apart_sym. now apply Hrest with (y := y). }
      rewrite Hl. simpl.
      apply (RemoveAll_success dir (t_fs w)); [|exact Hrm].
      apply (Hu x); [now left|exact Hn].
    + refine (IH _ _ _ Hnd' _ Hs r p Hr Herr Hp).
      intros y q Hy Hq. simpl.
      pose proof (RemoveAll_keeps_unique dir q (t_fs w)) as Hk.
      rewrite Hrm in Hk. apply Hk.
      * now apply Hrest with (y := y).
      * apply (Hu y); [now right|exact Hq].
Qed.

End Serial.

(** Every failed deletion is listed with its candidate. *)
Lemma collectDeletes_lists dirs sizes rs : forall t t',
  collectDeletes dirs sizes rs t = Some t' ->
  incl (deleteErrors t) (deleteErrors t') /\
  forall r e p,
    In r rs -> dr_err r = Some e -> nth_error dirs (dr_index r) = Some p ->
    In (p, e) (deleteErrors t').
Proof.
  induction rs as [|r0 rs IH]; intros t t' H; simpl in H.
  - inversion H; subst. split; [apply incl_refl|]. intros r e p [].
  - destruct (collectDelete dirs sizes t r0) as [t1|] eqn:Hc; [|discriminate].
    destruct (IH _ _ H) as [Hinc Hall].
    assert (H1 : incl (deleteErrors t) (deleteErrors t1) /\
                 forall e p, dr_err r0 = Some e ->
                             nth_error dirs (dr_index r0) = Some p ->
                             In (p, e) (deleteErrors t1)).
    { unfold collectDelete in Hc.
      destruct (nth_error dirs (dr_index r0)) as [dir|]; [|discriminate].
      destruct (dr_err r0) as [e0|].
      - inversion Hc; subst. simpl. split.
        + apply incl_appl, incl_refl.
        + intros e p He Hp. inversion He; inversion Hp; subst.
          apply in_or_app. right. now left.
      - destruct (nth_error sizes (dr_index r0)); [|discriminate].
        inversion Hc; subst. simpl. split; [apply incl_refl|discriminate]. }
    destruct H1 as [Hinc1 Hhead]. split.
    + eapply incl_tran; eauto.
    + intros r e p [<-|Hr] He Hp; [apply Hinc; eauto|eauto].
Qed.

(** Unless the final report is reached the file system is untouched. *)
Lemma untouched_unless_reported c e :
  exit (main c e) <> Reported -> after (main c e) = disk e.
Proof.
  unfold main. destruct (absErr e); [reflexivity|].
  destruct (IsNotExist _); [reflexivity|].
  destruct (readTargets _) as [err|targets]; [reflexivity|].
  intros H. now apply RunFacts.proceed_untouched.
Qed.

End GoneFacts.

(** X11: deletion stays inside the candidates: a path that is neither a
    candidate, nor beneath one, nor above one is found after the run
    exactly as it was before (same entry with all that is beneath it, or
    same error), in every run, for every worker count and schedule. *)
Theorem deletion_leaves_other_paths_alone :
  forall (c : config) (e : env) (q : path),
    (forall p, In p (found (main c e)) -> DeleteFacts.apart p q) ->
    lstat q (after (main c e)) = lstat q (disk e).
Proof.
  intros c e q Hap.
  destruct (terminal_eq_Reported (exit (main c e))) as [Hrep|Hrep];
    [|now rewrite GoneFacts.untouched_unless_reported].
  destruct (ReportFacts.reported_run c e Hrep) as (_ & _ & _ & Hafter & _).
  rewrite Hafter.
  destruct (Z_le_gt_dec 1 (maxWorkers c)) as [HW|HW].
  - destruct (MainFacts.deletePool_workers c (found (main c e)) (disk e)
                (deleteSched e) HW) as (_ & order & _ & _ & Hser).
    destruct (GoneFacts.serial_frame _ order _ _ _ q Hser) as [Hl _]; [|exact Hl].
    intros y p _ Hp. apply Hap. eapply nth_error_In; eauto.
  - rewrite MainFacts.deletePool_idle by lia. reflexivity.
Qed.

Lemma deletion_leaves_other_paths_alone_witness :
  (forall p,
      In p (found (main (Samples.flags false true false 2)
                     (Samples.surroundings Samples.unreadable "" [] []))) ->
      DeleteFacts.apart p ["secret"]) /\
  lstat ["secret"]
    (after (main (Samples.flags false true false 2)
              (Samples.surroundings Samples.unreadable "" [] [])))
  = lstat ["secret"] (disk (Samples.surroundings Samples.unreadable "" [] [])).
Proof.
  assert (Hap : forall p,
            In p (found (main (Samples.flags false true false 2)
                           (Samples.surroundings Samples.unreadable "" [] []))) ->
            DeleteFacts.apart p ["secret"]).
  { intros p [<-|[]]; split; intros [r Hr]; discriminate Hr. }
  split; [exact Hap|].
  apply (deletion_leaves_other_paths_alone
           (Samples.flags false true false 2)
           (Samples.surroundings Samples.unreadable "" [] [])
           ["secret"] Hap).
Defined.

(** X12: on a tree whose directories list each name once, in a run that
    reaches the final report with at least one worker, every candidate
    that is not listed among the deletion errors no longer exists when the
    run ends, whatever the schedule. *)
Theorem deleted_candidates_are_gone :
  forall (c : config) (e : env),
    ScanFacts.uniqueNamesFs (disk e) = true ->
    (1 <= maxWorkers c)%Z ->
    exit (main c e) = Reported ->
    forall p,
      In p (found (main c e)) ->
      ~ In p (map fst (deleteErrors (deleted (main c e)))) ->
      absent p (after (main c e)).
Proof.
  intros c e Hu HW Hrep p Hp Hnoerr.
  destruct (ReportFacts.reported_run c e Hrep) as (_ & _ & Hcol & Hafter & _).
  destruct (RunFacts.found_proceeds c e) as (targets & _ & _ & _ & Hmain).
  { intros H. rewrite H in Hp. contradiction. }
  assert (Hfound : found (main c e) =
                   ScanFacts.matchedFrom targets (rootName e) (disk e))
    by (rewrite Hmain; apply RunFacts.proceed_found).
  destruct (MainFacts.deletePool_workers c (found (main c e)) (disk e) (deleteSched e) HW)
    as (_ & order & Hperm & Hidx & Hser).
  apply In_nth_error in Hp as [i Hi].
  assert (Hlt : i < List.length (found (main c e))) by (apply nth_error_Some; congruence).
  assert (Hin : In i (map dr_index (resultsChan (deletePool c (found (main c e)) (disk e) (deleteSched e))))).
  { rewrite Hidx. apply (Permutation_in _ (Permutation_sym Hperm)).
    apply in_seq. lia. }
  apply in_map_iff in Hin as (r & Hri & Hr).
  destruct (dr_err r) as [err|] eqn:Herr.
  - exfalso. apply Hnoerr.
    destruct (GoneFacts.collectDeletes_lists _ _ _ _ _ Hcol) as [_ Hall].
    apply (in_map fst) with (x := (p, err)).
    apply (Hall r err p Hr Herr). now rewrite Hri.
  - rewrite Hafter.
    refine (GoneFacts.serial_gone (found (main c e)) _ order _ _ _ _ _ Hser r p Hr Herr _).
    + intros x y a b Hxy Ha Hb. rewrite Hfound in Ha, Hb.
      apply (GoneFacts.candidates_apart targets (rootName e) (disk e)); auto.
      * eapply nth_error_In; eauto.
      * eapply nth_error_In; eauto.
      * intros ->. apply Hxy.
        apply (proj1 (NoDup_nth_error
                        (ScanFacts.matchedFrom targets (rootName e) (disk e)))
                 (GoneFacts.matchedFrom_NoDup targets (rootName e) (disk e) Hu)).
        -- apply nth_error_Some. congruence.
        -- congruence.
    + apply (Permutation_NoDup (Permutation_sym Hperm)), seq_NoDup.
    + intros y a _ _. simpl.
      destruct (disk e) as [n|]; [|exact I]. simpl.
      now apply DeleteFacts.uniqueNames_along.
    + now rewrite Hri.
Qed.

Lemma deleted_candidates_are_gone_witness :
  ScanFacts.uniqueNamesFs
    (disk (Samples.surroundings Samples.twoSizes "" Samples.secondFirst [1; 0])) = true /\
  (1 <= maxWorkers (Samples.flags false true false 2))%Z /\
  exit (main (Samples.flags false true false 2)
          (Samples.surroundings Samples.twoSizes "" Samples.secondFirst [1; 0]))
  = Reported /\
  In ["node_modules"]
     (found (main (Samples.flags false true false 2)
               (Samples.surroundings Samples.twoSizes "" Samples.secondFirst [1; 0]))) /\
  ~ In ["node_modules"]
       (map fst (deleteErrors
                   (deleted (main (Samples.flags false true false 2)
                               (Samples.surroundings Samples.twoSizes ""
                                  Samples.secondFirst [1; 0]))))) /\
  absent ["node_modules"]
    (after (main (Samples.flags false true false 2)
              (Samples.surroundings Samples.twoSizes "" Samples.secondFirst [1; 0]))).
Proof.
  assert (Hno : ~ In ["node_modules"]
                  (map fst (deleteErrors
                     (deleted (main (Samples.flags false true false 2)
                                 (Samples.surroundings Samples.twoSizes ""
                                    Samples.secondFirst [1; 0]))))))
    by (intros [H|[]]; discriminate H).
  split; [reflexivity|]. split; [vm_compute; discriminate|].
  split; [reflexivity|]. split; [right; now left|]. split; [exact Hno|].
  apply (deleted_candidates_are_gone
           (Samples.flags false true false 2)
           (Samples.surroundings Samples.twoSizes "" Samples.secondFirst [1; 0]));
    [reflexivity|vm_compute; discriminate|reflexivity|right; now left|exact Hno].
Defined.

(* ------------------------------------------------------------------ *)
(** ** A pool with a single worker *)

Module SingleFacts.

Section Single.
Context {A R W : Type}.
Variable process : A -> W -> option (W * R).
Variable items : list A.
Variable w0 : W.
Hypothesis safe : forall x w, In x items -> process x w <> None.

(** With one goroutine the items are answered in the order they were
    sent. *)
Definition Inv1 (st : @pool A R W) : Prop :=
  panicked st = false /\
  exists slot done,
    workers st = [slot] /\
    done ++ PoolFacts.held [slot] ++ workChan st = items /\
    serial process done w0 = Some (world st, resultsChan st).

Lemma step_Inv1 st i :
  Inv1 st -> In i (enabled st) -> Inv1 (step process i st).
Proof.
  intros (Hp & slot & done & Hw & Hitems & Hser) Hin.
  unfold enabled in Hin. rewrite Hp in Hin.
  destruct (PoolFacts.readyFrom_In _ _ _ _ Hin) as (s & Hnth & _ & Hready).
  rewrite Nat.sub_0_r, Hw in Hnth.
  destruct i as [|i]; [|destruct i; discriminate Hnth].
  simpl in Hnth. inversion Hnth; subst s. clear Hnth.
  unfold step. rewrite Hw. cbn [nth_error].
  destruct slot as [x|].
  - assert (Hx : In x items).
    { rewrite <- Hitems. apply in_or_app. right. now left. }
    destruct (process x (world st)) as [[w1 r]|] eqn:Hpx;
      [|exfalso; eapply safe; eauto].
    split; [exact Hp|]. exists None, (done ++ [x]). cbn [workers workChan].
    split; [reflexivity|]. split.
    + rewrite <- Hitems. simpl. now rewrite <- app_assoc.
    + eapply PoolFacts.serial_snoc; eauto.
  - destruct (workChan st) as [|x q] eqn:Hq; [discriminate|].
    split; [exact Hp|]. exists (Some x), done. cbn [workers workChan].
    split; [reflexivity|]. split; [|exact Hser].
    rewrite <- Hitems. reflexivity.
Qed.

Lemma run_Inv1 fuel : forall sched st,
  Inv1 st -> Inv1 (run process fuel sched st).
Proof.
  induction fuel as [|fuel IH]; intros sched st HI; [exact HI|].
  simpl. destruct (enabled st) as [|i en] eqn:He; [exact HI|].
  apply IH. apply step_Inv1; [exact HI|].
  rewrite He. apply PoolFacts.pick_In.
Qed.

Lemma runPool_single sched :
  serial process items w0 =
  Some (world (runPool process 1 items w0 sched),
        resultsChan (runPool process 1 items w0 sched)).
Proof.
  assert (H1 : Inv1 (runPool process 1 items w0 sched)).
  { apply run_Inv1. split; [reflexivity|]. exists None, [].
    split; [reflexivity|]. split; reflexivity. }
  destruct (PoolFacts.runPool_serial process items w0 safe 1 sched)
    as (_ & Hen & _); [lia|].
  destruct H1 as (Hp & slot & done & Hw & Hitems & Hser).
  unfold enabled in Hen. rewrite Hp, Hw in Hen. simpl in Hen.
  destruct slot as [x|]; [discriminate|].
  destruct (workChan (runPool process 1 items w0 sched)); [|discriminate].
  simpl in Hitems. rewrite app_nil_r in Hitems. now subst done.
Qed.

End Single.

End SingleFacts.

(* ------------------------------------------------------------------ *)
(** ** Bytes freed *)

Module FreedFacts.

Import MainFacts.

(** The candidates of the results without error, and of those with one,
    in the order of arrival. *)
Definition okPaths (dirs : list path) (rs : list deleteResult) : list path :=
  flat_map (fun r => match dr_err r, nth_error dirs (dr_index r) with
                     | None, Some p => [p]
                     | _, _ => []
                     end) rs.

Definition errPaths (dirs : list path) (rs : list deleteResult) : list path :=
  flat_map (fun r => match dr_err r, nth_error dirs (dr_index r) with
                     | Some _, Some p => [p]
                     | _, _ => []
                     end) rs.

(** What the collector of the deletion phase computes when [dirSizes]
    holds the size of each candidate at the index of the candidate. *)
Lemma collectDeletes_sum (size : path -> Z) dirs rs : forall t t',
  collectDeletes dirs (map size dirs) rs t = Some t' ->
  deletedSize t' = fold_left add64 (map size (okPaths dirs rs)) (deletedSize t) /\
  map fst (deleteErrors t') = map fst (deleteErrors t) ++ errPaths dirs rs.
Proof.
  induction rs as [|r rs IH]; intros t t' H; simpl in H.
  - inversion H; subst. simpl. now rewrite app_nil_r.
  - destruct (collectDelete dirs (map size dirs) t r) as [t1|] eqn:Hc;
      [|discriminate].
    destruct (IH _ _ H) as [Hsum Herrs]. rewrite Hsum, Herrs.
    unfold collectDelete in Hc. unfold okPaths, errPaths. cbn [flat_map].
    destruct (nth_error dirs (dr_index r)) as [dir|] eqn:Hd; [|discriminate].
    destruct (dr_err r) as [e|].
    + inversion Hc; subst. simpl. rewrite map_app, <- app_assoc. auto.
    + rewrite nth_error_map, Hd in Hc. simpl in Hc. inversion Hc; subst.
      simpl. auto.
Qed.

Lemma NoDup_map_inj {X Y : Type} (f : X -> Y) l a b :
  NoDup (map f l) -> In a l -> In b l -> f a = f b -> a = b.
Proof.
  induction l as [|x l IH]; simpl; intros Hnd Ha Hb Hf; [contradiction|].
  inversion Hnd as [|? ? Hnot Hnd']; subst.
  destruct Ha as [->|Ha], Hb as [->|Hb]; auto.
  - exfalso. apply Hnot. rewrite Hf. now apply in_map.
  - exfalso. apply Hnot. rewrite <- Hf. now apply in_map.
Qed.

Lemma In_okPaths dirs rs p :
  In p (okPaths dirs rs) <->
  exists r, In r rs /\ dr_err r = None /\ nth_error dirs (dr_index r) = Some p.
Proof.
  unfold okPaths. rewrite in_flat_map. split.
  - intros (r & Hr & Hp). exists r. split; [exact Hr|].
    destruct (dr_err r); [contradiction|].
    destruct (nth_error dirs (dr_index r)); [|contradiction].
    destruct Hp as [->|[]]. auto.
  - intros (r & Hr & He & Hn). exists r. split; [exact Hr|].
    rewrite He, Hn. now left.
Qed.

Lemma In_errPaths dirs rs p :
  In p (errPaths dirs rs) <->
  exists r e, In r rs /\ dr_err r = Some e /\ nth_error dirs (dr_index r) = Some p.
Proof.
  unfold errPaths. rewrite in_flat_map. split.
  - intros (r & Hr & Hp). exists r.
    destruct (dr_err r) as [e|]; [|contradiction]. exists e.
    destruct (nth_error dirs (dr_index r)); [|contradiction].
    destruct Hp as [->|[]]. auto.
  - intros (r & e & Hr & He & Hn). exists r. split; [exact Hr|].
    rewrite He, Hn. now left.
Qed.

Lemma NoDup_okPaths dirs rs :
  NoDup dirs -> NoDup (map dr_index rs) -> NoDup (okPaths dirs rs).
Proof.
  intros Hd. induction rs as [|r rs IH]; intros Hnd; [constructor|].
  inversion Hnd as [|? ? Hnot Hnd']; subst.
  unfold okPaths. cbn [flat_map]. fold (okPaths dirs rs).
  destruct (dr_err r); [now apply IH|].
  destruct (nth_error dirs (dr_index r)) as [p|] eqn:Hp; [|now apply IH].
  simpl. constructor; [|now apply IH].
  intros Hin. apply In_okPaths in Hin as (r' & Hr' & _ & Hp').
  apply Hnot. apply in_map_iff. exists r'. split; [|exact Hr'].
  apply (proj1 (NoDup_nth_error dirs) Hd).
  - apply nth_error_Some. congruence.
  - congruence.
Qed.

(** When every index is answered once and no candidate is listed twice,
    the candidates answered without error are, up to their order, the
    candidates that are not among the errors. *)
Lemma okPaths_succeeded dirs rs :
  NoDup dirs ->
  Permutation (map dr_index rs) (seq 0 (List.length dirs)) ->
  Permutation (okPaths dirs rs)
    (filter (fun p => negb (existsb (Stated.path_eqb p) (errPaths dirs rs))) dirs).
Proof.
  intros Hd Hperm.
  assert (Hnd : NoDup (map dr_index rs))
    by (apply (Permutation_NoDup (Permutation_sym Hperm)), seq_NoDup).
  apply NoDup_Permutation.
  - now apply NoDup_okPaths.
  - now apply NoDup_filter.
  - intros p. rewrite filter_In, negb_true_iff.
    assert (Hmem : existsb (Stated.path_eqb p) (errPaths dirs rs) = true <->
                   In p (errPaths dirs rs)).
    { rewrite existsb_exists. split.
      - intros (x & Hx & Heq). unfold Stated.path_eqb in Heq.
        destruct (list_eq_dec string_dec p x); [now subst|discriminate].
      - intros Hin. exists p. split; [exact Hin|]. unfold Stated.path_eqb.
        destruct (list_eq_dec string_dec p p); [reflexivity|congruence]. }
    split.
    + intros Hin. apply In_okPaths in Hin as (r & Hr & He & Hp).
      split; [eapply nth_error_In; eauto|].
      apply not_true_is_false. intros Hex.
      apply Hmem, In_errPaths in Hex as (r' & e & Hr' & He' & Hp').
      assert (r = r').
      { apply (NoDup_map_inj dr_index rs); auto.
        apply (proj1 (NoDup_nth_error dirs) Hd).
        - apply nth_error_Some. congruence.
        - congruence. }
      subst r'. congruence.
    + intros [Hin Hex]. apply In_nth_error in Hin as [i Hi].
      assert (Hidx : In i (map dr_index rs)).
      { apply (Permutation_in _ (Permutation_sym Hperm)), in_seq.
        assert (i < List.length dirs) by (apply nth_error_Some; congruence). lia. }
      apply in_map_iff in Hidx as (r & Hri & Hr). subst i.
      destruct (dr_err r) as [e|] eqn:He.
      * exfalso. assert (Hp : In p (errPaths dirs rs))
          by (apply In_errPaths; eauto).
        apply Hmem in Hp. congruence.
      * apply In_okPaths. eauto.
Qed.

End FreedFacts.

(** X13: the deletion phase pairs by index whatever the schedule.  In a
    run that reaches the final report with at least one worker, on a tree
    whose directories list each name once: if the sizes recorded by the
    size phase stand at the indices of their candidates, the bytes
    reported as freed are the sum (on 64 bits) of the sizes of exactly the
    candidates deleted without error. *)
Theorem freed_bytes_right_when_sizes_follow_index :
  forall (c : config) (e : env),
    ScanFacts.uniqueNamesFs (disk e) = true ->
    (1 <= maxWorkers c)%Z ->
    exit (main c e) = Reported ->
    Stated.sizes_follow_index c e ->
    Stated.freed_is_size_of_deleted c e.
Proof.
  intros c e Hu HW Hrep Hsizes.
  unfold Stated.freed_is_size_of_deleted, Stated.succeeded.
  unfold Stated.sizes_follow_index in Hsizes.
  destruct (ReportFacts.reported_run c e Hrep) as (Hne & _ & Hcol & _ & _).
  destruct (RunFacts.found_proceeds c e Hne) as (targets & _ & _ & _ & Hmain).
  assert (Hnd : NoDup (found (main c e))).
  { rewrite Hmain, RunFacts.proceed_found.
    now apply GoneFacts.matchedFrom_NoDup. }
  rewrite Hsizes in Hcol.
  destruct (FreedFacts.collectDeletes_sum _ _ _ _ _ Hcol) as [Hsum Herrs].
  simpl in Hsum, Herrs. rewrite Hsum, Herrs.
  destruct (MainFacts.deletePool_workers c (found (main c e)) (disk e)
              (deleteSched e) HW) as (_ & order & Hperm & Hidx & _).
  rewrite !fold_add64_zero. f_equal. apply zsum_perm, Permutation_map.
  apply FreedFacts.okPaths_succeeded; [exact Hnd|]. now rewrite Hidx.
Qed.

(** X14: with a single worker the results arrive in the order the items
    were sent: the sizes recorded stand at the indices of their
    candidates, and the deletion results come in the order of the
    indices. *)
Theorem single_worker_keeps_order :
  forall (c : config) (e : env),
    maxWorkers c = 1%Z ->
    (found (main c e) <> [] -> Stated.sizes_follow_index c e) /\
    forall (dirs : list path) (w : fs) (sched : list nat),
      map sr_path (resultsChan (runPool (sizeWorker (rootName e)) 1 dirs w sched))
      = dirs /\
      map dr_index (resultsChan (deletePool c dirs w sched))
      = seq 0 (List.length dirs).
Proof.
  intros c e HW.
  assert (Hsize : forall dirs w sched,
            resultsChan (runPool (sizeWorker (rootName e)) 1 dirs w sched) =
            map (MainFacts.answer (rootName e) w) dirs).
  { intros dirs w sched.
    pose proof (SingleFacts.runPool_single (sizeWorker (rootName e)) dirs w
                  (fun x w' _ => ltac:(rewrite MainFacts.sizeWorker_answer; discriminate))
                  sched) as Hser.
    rewrite MainFacts.sizeWorker_serial in Hser. now injection Hser. }
  split.
  - intros Hne. unfold Stated.sizes_follow_index.
    destruct (RunFacts.found_proceeds c e Hne) as (targets & _ & _ & _ & Hmain).
    rewrite Hmain in *. rewrite RunFacts.proceed_sized by exact Hne.
    unfold sizePhase. rewrite HW, Hsize, MainFacts.collectSize_answers.
    reflexivity.
  - intros dirs w sched. split.
    + rewrite Hsize, map_map. simpl. apply map_id.
    + unfold deletePool. rewrite HW.
      pose proof (SingleFacts.runPool_single (deleteWorker dirs)
                    (seq 0 (List.length dirs)) {| t_fs := w; t_calls := [] |}
                    (fun x w' Hin => MainFacts.deleteWorker_safe dirs x w' Hin)
                    sched) as Hser.
      eapply MainFacts.delete_serial_index; eauto.
Qed.

Lemma freed_bytes_right_when_sizes_follow_index_witness :
  ScanFacts.uniqueNamesFs
    (disk (Samples.surroundings Samples.twoSizes "" [] [1; 0])) = true /\
  (1 <= maxWorkers (Samples.flags false true false 2))%Z /\
  exit (main (Samples.flags false true false 2)
          (Samples.surroundings Samples.twoSizes "" [] [1; 0])) = Reported /\
  Stated.sizes_follow_index (Samples.flags false true false 2)
    (Samples.surroundings Samples.twoSizes "" [] [1; 0]) /\
  Stated.freed_is_size_of_deleted (Samples.flags false true false 2)
    (Samples.surroundings Samples.twoSizes "" [] [1; 0]).
Proof.
  split; [reflexivity|]. split; [vm_compute; discriminate|].
  split; [reflexivity|]. split; [reflexivity|].
  apply (freed_bytes_right_when_sizes_follow_index
           (Samples.flags false true false 2)
           (Samples.surroundings Samples.twoSizes "" [] [1; 0]));
    [reflexivity|vm_compute; discriminate|reflexivity|reflexivity].
Defined.

Lemma single_worker_keeps_order_witness :
  maxWorkers (Samples.flags false true false 1) = 1%Z /\
  found (main (Samples.flags false true false 1)
           (Samples.surroundings Samples.twoSizes "" Samples.secondFirst [1; 0])) <> [] /\
  Stated.sizes_follow_index (Samples.flags false true false 1)
    (Samples.surroundings Samples.twoSizes "" Samples.secondFirst [1; 0]).
Proof.
  split; [reflexivity|]. split; [vm_compute; discriminate|].
  destruct (single_worker_keeps_order
              (Samples.flags false true false 1)
              (Samples.surroundings Samples.twoSizes "" Samples.secondFirst [1; 0])
              eq_refl) as [Hsizes _].
  apply Hsizes. vm_compute. discriminate.
Defined.

Lemma RemoveAll_called_on_candidates_only_witness :
  (1 <= maxWorkers (Samples.flags false true false 2))%Z /\
  exit (main (Samples.flags false true false 2)
          (Samples.surroundings Samples.project "" [1; 0] [1; 1; 0])) = Reported /\
  incl (removeCalls (main (Samples.flags false true false 2)
                       (Samples.surroundings Samples.project "" [1; 0] [1; 1; 0])))
       (found (main (Samples.flags false true false 2)
                 (Samples.surroundings Samples.project "" [1; 0] [1; 1; 0]))) /\
  Permutation
    (removeCalls (main (Samples.flags false true false 2)
                    (Samples.surroundings Samples.project "" [1; 0] [1; 1; 0])))
    (found (main (Samples.flags false true false 2)
              (Samples.surroundings Samples.project "" [1; 0] [1; 1; 0]))).
Proof.
  assert (HW : (1 <= maxWorkers (Samples.flags false true false 2))%Z)
    by (vm_compute; discriminate).
  split; [exact HW|]. split; [reflexivity|].
  destruct (RemoveAll_called_on_candidates_only
              (Samples.flags false true false 2)
              (Samples.surroundings Samples.project "" [1; 0] [1; 1; 0]))
    as [Hincl Hperm].
  split; [exact Hincl|exact (Hperm HW eq_refl)].
Defined.

(* ------------------------------------------------------------------ *)
(** ** The targets as a set *)

Module TargetSetFacts.

Lemma isTarget_same ts ts' :
  (forall name, In name ts <-> In name ts') ->
  forall name, isTarget ts name = isTarget ts' name.
Proof.
  intros H name. apply eq_true_iff_eq. rewrite !ScanFacts.isTarget_iff. apply H.
Qed.

Lemma matched_same ts ts' n :
  (forall name, isTarget ts name = isTarget ts' name) ->
  forall p name,
    ScanFacts.matched ts p name n = ScanFacts.matched ts' p name n /\
    ScanFacts.accessErrors ts p name n = ScanFacts.accessErrors ts' p name n.
Proof.
  intros Hsame. induction n as [a|d e|a rd es IH] using node_ind'; intros p name;
    try (split; reflexivity).
  { destruct d; simpl; rewrite ?Hsame; split; reflexivity. }
  rewrite !ScanFacts.matched_Dir, !ScanFacts.accessErrors_Dir, Hsame.
  destruct (isTarget ts' name); [split; reflexivity|].
  assert (Hes : ScanFacts.matchedEntries ts p es = ScanFacts.matchedEntries ts' p es /\
                ScanFacts.accessErrorsEntries ts p es =
                ScanFacts.accessErrorsEntries ts' p es).
  { induction IH as [|[nm c] tl Hc _ IHtl]; [split; reflexivity|].
    simpl in Hc. destruct (Hc (p ++ [nm]) nm) as [H1 H2].
    destruct IHtl as [H3 H4]. simpl. now rewrite H1, H2, H3, H4. }
  destruct Hes as [H1 H2]. now rewrite H1, H2.
Qed.

End TargetSetFacts.

(** X15: the scan depends on the targets only as a set: two lists of
    targets with the same names, in any order and with any repetitions,
    give the same candidates, the same notices and the same result of the
    walk. *)
Theorem scan_depends_on_the_set_of_targets :
  forall (verbose : bool) (targets targets' : list string)
         (rootName : string) (w : fs),
    (forall name, In name targets <-> In name targets') ->
    scan verbose targets rootName w = scan verbose targets' rootName w.
Proof.
  intros verbose targets targets' rootName w Hset.
  rewrite !ScanFacts.scan_spec.
  unfold ScanFacts.matchedFrom, ScanFacts.accessErrorsFrom.
  destruct (lstat [] w) as [e|n]; [reflexivity|].
  destruct (TargetSetFacts.matched_same targets targets' n
              (TargetSetFacts.isTarget_same targets targets' Hset) [] rootName)
    as [H1 H2].
  now rewrite H1, H2.
Qed.

Lemma scan_depends_on_the_set_of_targets_witness :
  (forall name, In name ["dist"; "node_modules"; "dist"] <->
                In name ["node_modules"; "dist"]) /\
  scan true ["dist"; "node_modules"; "dist"] "proj" Samples.project =
  scan true ["node_modules"; "dist"] "proj" Samples.project.
Proof.
  assert (Hset : forall name, In name ["dist"; "node_modules"; "dist"] <->
                              In name ["node_modules"; "dist"]).
  { intros name. simpl. split.
    - intros [H|[H|[H|[]]]]; auto.
    - intros [H|[H|[]]]; auto. }
  split; [exact Hset|].
  apply (scan_depends_on_the_set_of_targets
           true ["dist"; "node_modules"; "dist"] ["node_modules"; "dist"]
           "proj" Samples.project Hset).
Defined.

(* ------------------------------------------------------------------ *)
(** ** [dirSize] without traversal errors *)

Module ExactFacts.

(** The sizes of all non-directory entries of a tree. *)
Fixpoint allSizes (n : node) : list Z :=
  match n with
  | File a => [a_size a]
  | Broken _ _ => []
  | Dir _ _ es =>
      (fix each (l : list (string * node)) : list Z :=
         match l with
         | [] => []
         | (_, c) :: tl => allSizes c ++ each tl
         end) es
  end.

Fixpoint allEntries (l : list (string * node)) : list Z :=
  match l with
  | [] => []
  | (_, c) :: tl => allSizes c ++ allEntries tl
  end.

Lemma allSizes_Dir a rd es : allSizes (Dir a rd es) = allEntries es.
Proof.
  simpl. induction es as [|[nm c] tl IH]; simpl; [reflexivity|]. now rewrite IH.
Qed.

(** The errors the walk of [dirSize] meets, read off the tree. *)
Fixpoint errorsOf (n : node) : list errno :=
  match n with
  | File _ => []
  | Broken _ e => [e]
  | Dir _ (Some e) _ => [e]
  | Dir _ None es =>
      (fix each (l : list (string * node)) : list errno :=
         match l with
         | [] => []
         | (_, c) :: tl => errorsOf c ++ each tl
         end) es
  end.

Fixpoint errorsEntries (l : list (string * node)) : list errno :=
  match l with
  | [] => []
  | (_, c) :: tl => errorsOf c ++ errorsEntries tl
  end.

Lemma errorsOf_Dir a es : errorsOf (Dir a None es) = errorsEntries es.
Proof.
  simpl. induction es as [|[nm c] tl IH]; simpl; [reflexivity|]. now rewrite IH.
Qed.

Lemma walk_errFn_list n : forall p name l,
  walk errFn p name n l = (l ++ errorsOf n, None).
Proof.
  induction n as [a|d e|a rd es IH] using node_ind'; intros p name l.
  - simpl. now rewrite app_nil_r.
  - reflexivity.
  - rewrite walk_Dir. destruct rd as [e|]; [reflexivity|].
    cbn [errFn]. rewrite errorsOf_Dir.
    revert l. induction IH as [|[nm c] tl Hc _ IHtl]; intros l.
    + simpl. now rewrite app_nil_r.
    + cbn [walkEntries errorsEntries]. simpl in Hc.
      destruct c as [a'|a' rd' es'|d' e'].
      * rewrite Hc. cbn [isDir]. rewrite IHtl. now rewrite <- app_assoc.
      * rewrite Hc. rewrite IHtl. now rewrite <- app_assoc.
      * cbn [errFn errorsOf]. rewrite IHtl. now rewrite <- app_assoc.
Qed.

Lemma no_error_all_accessible n :
  errorsOf n = [] -> accessibleSizes n = allSizes n.
Proof.
  induction n as [a|d e|a rd es IH] using node_ind'; intros H.
  - reflexivity.
  - discriminate.
  - destruct rd as [e|]; [discriminate|].
    rewrite errorsOf_Dir in H.
    rewrite SizeFacts.accessibleSizes_Dir, allSizes_Dir.
    induction IH as [|[nm c] tl Hc _ IHtl]; [reflexivity|].
    simpl in *. apply app_eq_nil in H as [H1 H2].
    now rewrite (Hc H1), (IHtl H2).
Qed.

End ExactFacts.

(** X16: when the traversal of [dirSize] meets no error, the size returned
    is the sum (on 64 bits) of the sizes of all non-directory entries
    beneath the path, at any depth; the sizes of the directories
    themselves are not counted. *)
Theorem dirSize_exact_without_errors :
  forall (rootName : string) (p : path) (w : fs) (n : node),
    lstat p w = inr n ->
    traversalErrors rootName p w = [] ->
    dirSize rootName p w = (wrap64 (zsum (ExactFacts.allSizes n)), None).
Proof.
  intros rootName p w n Hl Herr.
  rewrite SizeFacts.dirSize_spec, Hl. cbn [accessibleSizesOf].
  unfold traversalErrors, Walk in Herr. rewrite Hl in Herr.
  rewrite ExactFacts.walk_errFn_list in Herr. simpl in Herr.
  rewrite (ExactFacts.no_error_all_accessible n Herr).
  now rewrite fold_add64_zero.
Qed.

Lemma dirSize_exact_without_errors_witness :
  lstat ["sub"] Samples.project =
    inr (Samples.folder
           [("dist", Samples.folder [("inner", Samples.folder [("dist", Samples.folder [])]);
                                     ("out.js", File (Samples.plain 200))])]) /\
  traversalErrors "proj" ["sub"] Samples.project = [] /\
  dirSize "proj" ["sub"] Samples.project =
    (wrap64 (zsum (ExactFacts.allSizes
       (Samples.folder
          [("dist", Samples.folder [("inner", Samples.folder [("dist", Samples.folder [])]);
                                    ("out.js", File (Samples.plain 200))])]))),
     None).
Proof.
  split; [reflexivity|]. split; [reflexivity|].
  apply (dirSize_exact_without_errors "proj" ["sub"] Samples.project);
    reflexivity.
Defined.

Lemma pools_answer_every_item_once_witness :
  (1 <= maxWorkers (Samples.flags false true false 2))%Z /\
  (exists order,
      Permutation order [["dist"]; ["node_modules"]] /\
      resultsChan (runPool (sizeWorker "proj")
                     (maxWorkers (Samples.flags false true false 2))
                     [["dist"]; ["node_modules"]] Samples.twoSizes Samples.secondFirst) =
      map (MainFacts.answer "proj" Samples.twoSizes) order) /\
  Permutation
    (map dr_index
       (resultsChan (deletePool (Samples.flags false true false 2)
                       [["dist"]; ["node_modules"]] Samples.twoSizes Samples.secondFirst)))
    (seq 0 (List.length [["dist"]; ["node_modules"]])).
Proof.
  split; [vm_compute; discriminate|].
  apply (pools_answer_every_item_once
           (Samples.flags false true false 2) "proj"
           [["dist"]; ["node_modules"]] Samples.twoSizes Samples.secondFirst).
  vm_compute. discriminate.
Defined.

Lemma total_size_for_every_schedule_witness :
  (1 <= maxWorkers (Samples.flags false true false 2))%Z /\
  totalSize (sizePhase (Samples.flags false true false 2) "proj"
               [["dist"]; ["node_modules"]] Samples.twoSizes Samples.secondFirst) =
    wrap64 (zsum (map (MainFacts.sizeOf "proj" Samples.twoSizes)
                      [["dist"]; ["node_modules"]])) /\
  Permutation
    (dirSizes (sizePhase (Samples.flags false true false 2) "proj"
                 [["dist"]; ["node_modules"]] Samples.twoSizes Samples.secondFirst))
    (map (MainFacts.sizeOf "proj" Samples.twoSizes) [["dist"]; ["node_modules"]]) /\
  sizeErrors (sizePhase (Samples.flags false true false 2) "proj"
                [["dist"]; ["node_modules"]] Samples.twoSizes Samples.secondFirst) = [].
Proof.
  split; [vm_compute; discriminate|].
  apply (total_size_for_every_schedule
           (Samples.flags false true false 2) "proj"
           [["dist"]; ["node_modules"]] Samples.twoSizes Samples.secondFirst).
  vm_compute. discriminate.
Defined.

(* ------------------------------------------------------------------ *)
(** ** Flags that only change what is shown *)

Module FlagFacts.

Definition withDryRun (b : bool) (c : config) : config :=
  {| dryRun := b; skipPrompt := skipPrompt c;
     verbose := verbose c; maxWorkers := maxWorkers c |}.

Definition withVerbose (b : bool) (c : config) : config :=
  {| dryRun := dryRun c; skipPrompt := skipPrompt c;
     verbose := b; maxWorkers := maxWorkers c |}.

(** A size phase in which no result carries an error does not look at the
    verbose flag. *)
Lemma collectSize_quiet v v' rs : forall t,
  Forall (fun r => sr_err r = None) rs ->
  fold_left (collectSize v) rs t = fold_left (collectSize v') rs t.
Proof.
  induction rs as [|r rs IH]; intros t Hall; [reflexivity|].
  inversion Hall as [|? ? Hr Hrs]; subst. simpl.
  assert (Hstep : collectSize v t r = collectSize v' t r)
    by (unfold collectSize; now rewrite Hr).
  rewrite Hstep. now apply IH.
Qed.

Lemma size_results_clean rootName W dirs w sched :
  Forall (fun r => sr_err r = None)
    (resultsChan (runPool (sizeWorker rootName) W dirs w sched)).
Proof.
  destruct (Z_le_gt_dec 1 W) as [HW|HW].
  - destruct (PoolFacts.runPool_serial (sizeWorker rootName) dirs w
                (fun x w' _ => ltac:(rewrite MainFacts.sizeWorker_answer; discriminate))
                W sched HW) as (_ & _ & order & _ & Hser).
    rewrite MainFacts.sizeWorker_serial in Hser. injection Hser as _ Hrs.
    rewrite <- Hrs. apply Forall_forall. intros r Hr.
    apply in_map_iff in Hr as (p & <- & _). reflexivity.
  - rewrite PoolFacts.runPool_no_worker by lia. constructor.
Qed.

Lemma sizePhase_verbose b c rootName dirs w sched :
  sizePhase (withVerbose b c) rootName dirs w sched =
  sizePhase c rootName dirs w sched.
Proof.
  unfold sizePhase. cbn [withVerbose verbose maxWorkers].
  apply collectSize_quiet, size_results_clean.
Qed.

End FlagFacts.

(** X19: the dry run previews the real run: on the same file system and
    with the same flags otherwise, the run with [-dry-run] finds the same
    candidates, records the same notices and computes the same sizes and
    total as the run without it; and whatever the run without it removes
    is among the candidates the dry run listed. *)
Theorem dry_run_previews_the_real_run :
  forall (c : config) (e : env),
    found (main (FlagFacts.withDryRun true c) e) =
      found (main (FlagFacts.withDryRun false c) e) /\
    notices (main (FlagFacts.withDryRun true c) e) =
      notices (main (FlagFacts.withDryRun false c) e) /\
    sized (main (FlagFacts.withDryRun true c) e) =
      sized (main (FlagFacts.withDryRun false c) e) /\
    incl (removeCalls (main (FlagFacts.withDryRun false c) e))
         (found (main (FlagFacts.withDryRun true c) e)).
Proof.
  intros c e.
  assert (Hsame : found (main (FlagFacts.withDryRun true c) e) =
                    found (main (FlagFacts.withDryRun false c) e) /\
                  notices (main (FlagFacts.withDryRun true c) e) =
                    notices (main (FlagFacts.withDryRun false c) e) /\
                  sized (main (FlagFacts.withDryRun true c) e) =
                    sized (main (FlagFacts.withDryRun false c) e)).
  { unfold main. destruct (absErr e); [auto|].
    destruct (IsNotExist _); [auto|].
    destruct (readTargets _) as [err|targets]; [auto|].
    rewrite !MainFacts.proceed_eq. cbv zeta.
    cbn [FlagFacts.withDryRun dryRun skipPrompt verbose dirsToDelete scanErrors].
    destruct (ScanFacts.matchedFrom targets (rootName e) (disk e)) as [|d ds];
      [auto|].
    assert (Hz : sizePhase (FlagFacts.withDryRun true c) (rootName e) (d :: ds)
                   (disk e) (sizeSched e) =
                 sizePhase (FlagFacts.withDryRun false c) (rootName e) (d :: ds)
                   (disk e) (sizeSched e)) by reflexivity.
    destruct (negb (skipPrompt c) && negb (affirmative (stdin e))).
    - cbn [stopped found notices sized]. auto.
    - destruct (collectDeletes _ _ _ _); cbn [stopped found notices sized]; auto. }
  destruct Hsame as (Hf & Hn & Hz). repeat split; try assumption.
  rewrite Hf. intros p Hp.
  destruct (terminal_eq_Reported (exit (main (FlagFacts.withDryRun false c) e)))
    as [Hrep|Hrep].
  - destruct (ReportFacts.reported_run _ e Hrep) as (_ & _ & _ & _ & Hcalls).
    rewrite Hcalls in Hp.
    destruct (Z_le_gt_dec 1 (maxWorkers (FlagFacts.withDryRun false c))) as [HW|HW].
    + eapply Permutation_in; [|exact Hp].
      now apply ReportFacts.delete_calls_permutation.
    + rewrite MainFacts.deletePool_idle in Hp by lia. contradiction.
  - assert (Hnone : removeCalls (main (FlagFacts.withDryRun false c) e) = []).
    { revert Hrep. unfold main. destruct (absErr e); [reflexivity|].
      destruct (IsNotExist _); [reflexivity|].
      destruct (readTargets _) as [err|targets]; [reflexivity|].
      intros Hrep. now apply RunFacts.proceed_untouched. }
    rewrite Hnone in Hp. contradiction.
Qed.

(** X20: the verbose flag only adds notices: with and without [-v] a run
    ends the same way, finds the same candidates, records the same sizes
    and total, makes the same calls of [os.RemoveAll], reports the same
    deletions and errors and leaves the same file system; only the list
    of scan notices differs, and it is empty without [-v]. *)
Theorem verbose_only_adds_notices :
  forall (b : bool) (c : config) (e : env),
    exit (main (FlagFacts.withVerbose b c) e) = exit (main c e) /\
    found (main (FlagFacts.withVerbose b c) e) = found (main c e) /\
    sized (main (FlagFacts.withVerbose b c) e) = sized (main c e) /\
    removeCalls (main (FlagFacts.withVerbose b c) e) = removeCalls (main c e) /\
    deleted (main (FlagFacts.withVerbose b c) e) = deleted (main c e) /\
    after (main (FlagFacts.withVerbose b c) e) = after (main c e) /\
    notices (main (FlagFacts.withVerbose false c) e) = [].
Proof.
  intros b c e. unfold main. destruct (absErr e); [repeat split|].
  destruct (IsNotExist _); [repeat split|].
  destruct (readTargets _) as [err|targets]; [repeat split|].
  rewrite !MainFacts.proceed_eq. cbv zeta.
  cbn [FlagFacts.withVerbose dryRun skipPrompt verbose dirsToDelete scanErrors].
  destruct (ScanFacts.matchedFrom targets (rootName e) (disk e)) as [|d ds];
    [repeat split|].
  rewrite !FlagFacts.sizePhase_verbose.
  destruct (dryRun c); [repeat split|].
  destruct (negb (skipPrompt c) && negb (affirmative (stdin e))); [repeat split|].
  change (deletePool (FlagFacts.withVerbose b c)) with (deletePool c).
  change (deletePool (FlagFacts.withVerbose false c)) with (deletePool c).
  destruct (collectDeletes _ _ _ _); repeat split.
Qed.

(* ------------------------------------------------------------------ *)
(** ** The sequential [main] of the earlier version *)

Module Sequential.

(** The variables the walk callback of the earlier [main] updates; a
    failure of [dirSize] is kept as the path and the error of the line
    printed for it. *)
Record walkState := {
  o_totalSize : Z;
  o_dirsToDelete : list path;
  o_dirSizes : list Z;
  o_scanErrors : list (path * errno);
  o_sizeErrors : list (path * errno)
}.

Definition walk0 : walkState :=
  {| o_totalSize := 0; o_dirsToDelete := []; o_dirSizes := [];
     o_scanErrors := []; o_sizeErrors := [] |}.

(** The names the earlier version looks for. *)
Definition names : list string := ["node_modules"; "vendor"].

(** The function literal handed to [filepath.WalkDir]: a directory called
    [node_modules] or [vendor] is sized at once with [dirSize], recorded
    with its size, and skipped. *)
Definition walkFn (verbose : bool) (rootName : string) (w : fs) : WalkFunc walkState :=
  fun p d err s =>
    match err with
    | Some e =>
        (if verbose
         then {| o_totalSize := o_totalSize s;
                 o_dirsToDelete := o_dirsToDelete s;
                 o_dirSizes := o_dirSizes s;
                 o_scanErrors := o_scanErrors s ++ [(p, e)];
                 o_sizeErrors := o_sizeErrors s |}
         else s,
         None)
    | None =>
        match d with
        | None => (s, None)
        | Some d =>
            if negb (i_isDir d) then (s, None)
            else if String.eqb (i_name d) "node_modules" || String.eqb (i_name d) "vendor"
                 then
                   let '(size0, serr) := dirSize rootName p w in
                   let size := match serr with Some _ => 0%Z | None => size0 end in
                   ({| o_totalSize := add64 (o_totalSize s) size;
                       o_dirsToDelete := o_dirsToDelete s ++ [p];
                       o_dirSizes := o_dirSizes s ++ [size];
                       o_scanErrors := o_scanErrors s;
                       o_sizeErrors :=
                         match serr with
                         | Some e => if verbose then o_sizeErrors s ++ [(p, e)]
                                     else o_sizeErrors s
                         | None => o_sizeErrors s
                         end |},
                    Some SkipDir)
                 else (s, None)
        end
    end.

(** [for i, dir := range dirsToDelete { err := os.RemoveAll(dir) ... }]
    from index [i] on; [dirSizes[i]] out of range is a panic, which ends
    the loop after the call of [os.RemoveAll]. *)
Fixpoint deleteLoop (rest : list path) (i : nat) (sizes : list Z)
    (w : traced) (t : deleteTally) : traced * option deleteTally :=
  match rest with
  | [] => (w, Some t)
  | dir :: rest' =>
      let '(w', err) := RemoveAll dir (t_fs w) in
      let w1 := {| t_fs := w'; t_calls := t_calls w ++ [dir] |} in
      match err with
      | Some e =>
          deleteLoop rest' (S i) sizes w1
            {| deletedSize := deletedSize t;
               deletedCount := deletedCount t;
               deleteErrors := deleteErrors t ++ [(dir, e)] |}
      | None =>
          match nth_error sizes i with
          | None => (w1, None)
          | Some size =>
              deleteLoop rest' (S i) sizes w1
                {| deletedSize := add64 (deletedSize t) size;
                   deletedCount := S (deletedCount t);
                   deleteErrors := deleteErrors t |}
          end
      end
  end.

Definition tally (s : walkState) : sizeTally :=
  {| totalSize := o_totalSize s; dirSizes := o_dirSizes s;
     sizeErrors := o_sizeErrors s |}.

Definition stoppedAt (t : terminal) (w : fs) (s : walkState) : outcome :=
  {| exit := t; after := w; removeCalls := [];
     found := o_dirsToDelete s; notices := o_scanErrors s;
     sized := tally s; deleted := deleteTally0 |}.

(** The earlier [main]: it reads no targets file and starts no worker. *)
Definition main (c : config) (e : env) : outcome :=
  match absErr e with
  | Some err => stoppedAt (Fatal (InvalidPath err)) (disk e) walk0
  | None =>
      if IsNotExist (statErr [] (disk e))
      then stoppedAt (Fatal PathDoesNotExist) (disk e) walk0
      else
        let '(s, werr) :=
          WalkDir (walkFn (verbose c) (rootName e) (disk e)) (rootName e) []
                  (disk e) walk0 in
        match werr with
        | Some err => stoppedAt (Fatal (WalkFailed err)) (disk e) s
        | None =>
            match o_dirsToDelete s with
            | [] => stoppedAt NoneFound (disk e) s
            | _ :: _ =>
                if dryRun c then stoppedAt DryRunDone (disk e) s
                else if negb (skipPrompt c) && negb (affirmative (stdin e))
                then stoppedAt Cancelled (disk e) s
                else
                  let '(w', r) :=
                    deleteLoop (o_dirsToDelete s) 0 (o_dirSizes s)
                               {| t_fs := disk e; t_calls := [] |} deleteTally0 in
                  match r with
                  | None =>
                      {| exit := Panic; after := t_fs w'; removeCalls := t_calls w';
                         found := o_dirsToDelete s; notices := o_scanErrors s;
                         sized := tally s; deleted := deleteTally0 |}
                  | Some d =>
                      {| exit := Reported; after := t_fs w'; removeCalls := t_calls w';
                         found := o_dirsToDelete s; notices := o_scanErrors s;
                         sized := tally s; deleted := d |}
                  end
            end
        end
  end.

End Sequential.

Module SequentialFacts.

Import MainFacts.

Lemma isTarget_names name :
  String.eqb name "node_modules" || String.eqb name "vendor" =
  isTarget Sequential.names name.
Proof.
  unfold Sequential.names. cbn [isTarget].
  destruct (String.eqb name "node_modules"); [reflexivity|].
  destruct (String.eqb name "vendor"); reflexivity.
Qed.

(** What the walk has recorded after the candidates [ds] and the access
    errors [es]. *)
Definition recorded (verbose : bool) (rootName : string) (w : fs)
    (s : Sequential.walkState) (ds : list path) (es : list (path * errno))
    : Sequential.walkState :=
  {| Sequential.o_totalSize :=
       fold_left add64 (map (sizeOf rootName w) ds) (Sequential.o_totalSize s);
     Sequential.o_dirsToDelete := Sequential.o_dirsToDelete s ++ ds;
     Sequential.o_dirSizes := Sequential.o_dirSizes s ++ map (sizeOf rootName w) ds;
     Sequential.o_scanErrors :=
       Sequential.o_scanErrors s ++ (if verbose then es else []);
     Sequential.o_sizeErrors := Sequential.o_sizeErrors s |}.

Lemma recorded_nil verbose rootName w s : recorded verbose rootName w s [] [] = s.
Proof.
  destruct s. unfold recorded. destruct verbose; simpl; now rewrite !app_nil_r.
Qed.

Lemma recorded_recorded verbose rootName w s d1 e1 d2 e2 :
  recorded verbose rootName w (recorded verbose rootName w s d1 e1) d2 e2 =
  recorded verbose rootName w s (d1 ++ d2) (e1 ++ e2).
Proof.
  unfold recorded. simpl. rewrite !map_app, fold_left_app, <- !app_assoc.
  destruct verbose; reflexivity.
Qed.

(** The earlier walk lists what the scan of the later version lists for
    the two names, and records for each candidate the size [dirSize]
    returns for it. *)
Lemma walkDir_walkFn verbose rootName w n : forall p name s,
  walkDir (Sequential.walkFn verbose rootName w) p name n s =
  (recorded verbose rootName w s
     (ScanFacts.matched Sequential.names p name n)
     (ScanFacts.accessErrors Sequential.names p name n),
   None).
Proof.
  induction n as [a|d e|a rd es IH] using node_ind'; intros p name s.
  - cbn [walkDir Sequential.walkFn info_of i_isDir negb
         ScanFacts.matched ScanFacts.accessErrors].
    now rewrite recorded_nil.
  - destruct d.
    + cbn [walkDir Sequential.walkFn info_of i_isDir i_name negb
           ScanFacts.matched ScanFacts.accessErrors].
      rewrite isTarget_names.
      destruct (isTarget Sequential.names name) eqn:Ht.
      * rewrite SizeFacts.dirSize_spec. unfold recorded. cbn [map fold_left].
        unfold sizeOf. rewrite SizeFacts.dirSize_spec. cbn [fst].
        destruct verbose; now rewrite app_nil_r.
      * unfold recorded. destruct s.
        destruct verbose; simpl; now rewrite ?app_nil_r.
    + cbn [walkDir Sequential.walkFn info_of i_isDir negb
           ScanFacts.matched ScanFacts.accessErrors].
      now rewrite recorded_nil.
  - rewrite walkDir_Dir, ScanFacts.matched_Dir, ScanFacts.accessErrors_Dir.
    cbn [Sequential.walkFn info_of i_isDir i_name negb].
    rewrite isTarget_names.
    destruct (isTarget Sequential.names name) eqn:Ht.
    + rewrite SizeFacts.dirSize_spec. unfold recorded. cbn [map fold_left].
      unfold sizeOf. rewrite SizeFacts.dirSize_spec. cbn [fst].
      destruct verbose; now rewrite app_nil_r.
    + assert (Hes : forall s0,
        walkDirEntries (Sequential.walkFn verbose rootName w) p es s0 =
        (recorded verbose rootName w s0
           (ScanFacts.matchedEntries Sequential.names p es)
           (ScanFacts.accessErrorsEntries Sequential.names p es), None)).
      { induction IH as [|[nm c] tl Hc _ IHtl]; intros s0.
        - simpl. now rewrite recorded_nil.
        - cbn [walkDirEntries ScanFacts.matchedEntries ScanFacts.accessErrorsEntries].
          simpl in Hc. rewrite Hc, IHtl, recorded_recorded. reflexivity. }
      destruct rd as [e|].
      * cbn [Sequential.walkFn]. rewrite Hes. f_equal.
        replace (if verbose then _ else s)
          with (recorded verbose rootName w s [] [(p, e)]).
        -- now rewrite recorded_recorded.
        -- unfold recorded. destruct s. simpl.
           destruct verbose; simpl; now rewrite ?app_nil_r.
      * rewrite Hes. reflexivity.
Qed.

(** The walk of the earlier [main] as a whole. *)
Lemma walk_spec verbose rootName w :
  WalkDir (Sequential.walkFn verbose rootName w) rootName [] w Sequential.walk0 =
  ({| Sequential.o_totalSize :=
        fold_left add64
          (map (sizeOf rootName w) (ScanFacts.matchedFrom Sequential.names rootName w))
          0%Z;
      Sequential.o_dirsToDelete := ScanFacts.matchedFrom Sequential.names rootName w;
      Sequential.o_dirSizes :=
        map (sizeOf rootName w) (ScanFacts.matchedFrom Sequential.names rootName w);
      Sequential.o_scanErrors :=
        if verbose then ScanFacts.accessErrorsFrom Sequential.names rootName w else [];
      Sequential.o_sizeErrors := [] |},
   None).
Proof.
  unfold WalkDir, ScanFacts.matchedFrom, ScanFacts.accessErrorsFrom.
  destruct (lstat [] w) as [e|n].
  - simpl. destruct verbose; reflexivity.
  - rewrite walkDir_walkFn. reflexivity.
Qed.

(** The loop of the earlier version does, index by index, what one
    worker and the collector of the later version do. *)
Lemma deleteLoop_serial dirs sizes rest : forall k w t w' rs d,
  (forall j, nth_error rest j = nth_error dirs (k + j)) ->
  serial (deleteWorker dirs) (seq k (List.length rest)) w = Some (w', rs) ->
  collectDeletes dirs sizes rs t = Some d ->
  Sequential.deleteLoop rest k sizes w t = (w', Some d).
Proof.
  induction rest as [|dir rest IH]; intros k w t w' rs d Hnth H Hc; simpl in H.
  - inversion H; subst. simpl in Hc. inversion Hc. reflexivity.
  - destruct (deleteWorker dirs k w) as [[w1 r]|] eqn:Hd; [|discriminate].
    destruct (serial _ (seq (S k) (List.length rest)) w1) as [[w2 rs2]|] eqn:Hs;
      [|discriminate].
    inversion H; subst. unfold deleteWorker in Hd.
    pose proof (Hnth 0) as H0. rewrite Nat.add_0_r in H0. simpl in H0.
    rewrite <- H0 in Hd.
    destruct (RemoveAll dir (t_fs w)) as [w1' err] eqn:Hrm. inversion Hd; subst.
    cbn [Sequential.deleteLoop]. rewrite Hrm.
    cbn [collectDeletes] in Hc. unfold collectDelete in Hc.
    cbn [dr_index dr_err] in Hc. rewrite <- H0 in Hc.
    assert (Hnth' : forall j, nth_error rest j = nth_error dirs (S k + j)).
    { intros j. specialize (Hnth (S j)). simpl in Hnth.
      rewrite Hnth. f_equal. lia. }
    destruct err as [e|].
    + apply (IH (S k) _ _ _ _ _ Hnth' Hs Hc).
    + destruct (nth_error sizes k); [|discriminate].
      apply (IH (S k) _ _ _ _ _ Hnth' Hs Hc).
Qed.

(** With as many sizes as candidates the loop ends without panic. *)
Lemma deleteLoop_run dirs sizes w :
  List.length sizes = List.length dirs ->
  exists w' rs d,
    serial (deleteWorker dirs) (seq 0 (List.length dirs)) w = Some (w', rs) /\
    collectDeletes dirs sizes rs deleteTally0 = Some d /\
    Sequential.deleteLoop dirs 0 sizes w deleteTally0 = (w', Some d).
Proof.
  intros Hlen.
  pose proof (SingleFacts.runPool_single (deleteWorker dirs)
                (seq 0 (List.length dirs)) w
                (fun x w' Hin => deleteWorker_safe dirs x w' Hin) []) as Hser.
  set (p := runPool (deleteWorker dirs) 1 (seq 0 (List.length dirs)) w []) in Hser.
  pose proof (delete_serial_index _ _ _ _ _ Hser) as Hidx.
  destruct (collectDeletes_safe dirs sizes (resultsChan p) deleteTally0 Hlen)
    as [d Hd].
  { apply Forall_forall. intros r Hr.
    assert (Hin : In (dr_index r) (map dr_index (resultsChan p)))
      by now apply in_map.
    rewrite Hidx in Hin. apply in_seq in Hin. lia. }
  exists (world p), (resultsChan p), d. split; [exact Hser|]. split; [exact Hd|].
  eapply deleteLoop_serial; eauto.
Qed.

(** The earlier [main] in terms of the tree. *)
Lemma main_eq c e :
  Sequential.main c e =
  let dirs := ScanFacts.matchedFrom Sequential.names (rootName e) (disk e) in
  let s :=
    {| Sequential.o_totalSize :=
         fold_left add64 (map (sizeOf (rootName e) (disk e)) dirs) 0%Z;
       Sequential.o_dirsToDelete := dirs;
       Sequential.o_dirSizes := map (sizeOf (rootName e) (disk e)) dirs;
       Sequential.o_scanErrors :=
         if verbose c
         then ScanFacts.accessErrorsFrom Sequential.names (rootName e) (disk e)
         else [];
       Sequential.o_sizeErrors := [] |} in
  match absErr e with
  | Some err =>
      Sequential.stoppedAt (Fatal (InvalidPath err)) (disk e) Sequential.walk0
  | None =>
      if IsNotExist (statErr [] (disk e))
      then Sequential.stoppedAt (Fatal PathDoesNotExist) (disk e) Sequential.walk0
      else
        match dirs with
        | [] => Sequential.stoppedAt NoneFound (disk e) s
        | _ :: _ =>
            if dryRun c then Sequential.stoppedAt DryRunDone (disk e) s
            else if negb (skipPrompt c) && negb (affirmative (stdin e))
            then Sequential.stoppedAt Cancelled (disk e) s
            else
              let '(w', r) :=
                Sequential.deleteLoop dirs 0 (map (sizeOf (rootName e) (disk e)) dirs)
                  {| t_fs := disk e; t_calls := [] |} deleteTally0 in
              match r with
              | None =>
                  {| exit := Panic; after := t_fs w'; removeCalls := t_calls w';
                     found := dirs; notices := Sequential.o_scanErrors s;
                     sized := Sequential.tally s; deleted := deleteTally0 |}
              | Some d =>
                  {| exit := Reported; after := t_fs w'; removeCalls := t_calls w';
                     found := dirs; notices := Sequential.o_scanErrors s;
                     sized := Sequential.tally s; deleted := d |}
              end
        end
  end.
Proof.
  unfold Sequential.main. rewrite walk_spec. cbv zeta.
  cbn [Sequential.o_dirsToDelete Sequential.o_dirSizes Sequential.o_scanErrors].
  reflexivity.
Qed.

(** The size phase with one worker. *)
Lemma sizePhase_single c rootName dirs w sched :
  maxWorkers c = 1%Z ->
  sizePhase c rootName dirs w sched =
  {| totalSize := fold_left add64 (map (sizeOf rootName w) dirs) 0%Z;
     dirSizes := map (sizeOf rootName w) dirs;
     sizeErrors := [] |}.
Proof.
  intros HW. unfold sizePhase. rewrite HW.
  pose proof (SingleFacts.runPool_single (sizeWorker rootName) dirs w
                (fun x w' _ => ltac:(rewrite sizeWorker_answer; discriminate))
                sched) as Hser.
  rewrite sizeWorker_serial in Hser. injection Hser as _ Hrs.
  rewrite <- Hrs. now rewrite collectSize_answers.
Qed.

(** A tree with one directory of each of the two names, the second of
    which cannot be removed; the targets file names the same two. *)
Definition vendored : fs :=
  Some (Samples.folder
    [("node_modules", Samples.folder [("index.js", File (Samples.plain 10))]);
     ("src", Samples.folder [("main.go", File (Samples.plain 3))]);
     ("vendor", Samples.folder [("dep.go", File (Samples.busy 20))])]).

Definition bothNames (w : fs) (s1 s2 : list nat) : env :=
  {| absErr := None;
     rootName := "proj";
     disk := w;
     targetsFile := inr (["node_modules"; "vendor"], None);
     stdin := "";
     sizeSched := s1;
     deleteSched := s2 |}.

End SequentialFacts.

(** X21: in the earlier, sequential version the sizes stand at the
    indices of their candidates: every run records for each candidate, in
    the order of the walk, the size [dirSize] computes for it, the total
    is their sum on 64 bits, no size error is recorded, and no run ends
    with a panic or with "Error walking directory". *)
Theorem sequential_sizes_follow_index :
  forall (c : config) (e : env),
    dirSizes (sized (Sequential.main c e)) =
      map (MainFacts.sizeOf (rootName e) (disk e)) (found (Sequential.main c e)) /\
    totalSize (sized (Sequential.main c e)) =
      wrap64 (zsum (dirSizes (sized (Sequential.main c e)))) /\
    sizeErrors (sized (Sequential.main c e)) = [] /\
    exit (Sequential.main c e) <> Panic /\
    (forall err, exit (Sequential.main c e) <> Fatal (WalkFailed err)).
Proof.
  intros c e. rewrite SequentialFacts.main_eq. cbv zeta.
  destruct (absErr e);
    [repeat split; try reflexivity; try discriminate; intros; discriminate|].
  destruct (IsNotExist (statErr [] (disk e)));
    [repeat split; try reflexivity; try discriminate; intros; discriminate|].
  destruct (ScanFacts.matchedFrom Sequential.names (rootName e) (disk e))
    as [|d ds] eqn:Hm;
    [repeat split; try reflexivity; try discriminate; intros; discriminate|].
  assert (Hsum :
    fold_left add64 (map (MainFacts.sizeOf (rootName e) (disk e)) (d :: ds)) 0%Z =
    wrap64 (zsum (map (MainFacts.sizeOf (rootName e) (disk e)) (d :: ds))))
    by apply fold_add64_zero.
  destruct (dryRun c);
    [repeat split; try exact Hsum; try discriminate; intros; discriminate|].
  destruct (negb (skipPrompt c) && negb (affirmative (stdin e)));
    [repeat split; try exact Hsum; try discriminate; intros; discriminate|].
  destruct (SequentialFacts.deleteLoop_run (d :: ds)
              (map (MainFacts.sizeOf (rootName e) (disk e)) (d :: ds))
              {| t_fs := disk e; t_calls := [] |})
    as (w' & rs & t & _ & _ & Hloop); [apply length_map|].
  rewrite Hloop.
  repeat split; try exact Hsum; try discriminate; intros; discriminate.
Qed.

(** X22: the earlier version reports the right number of freed bytes.
    In a run that reaches the final report, on a tree whose directories
    list each name once, the bytes reported as freed are the sum (on 64
    bits) of the sizes of exactly the candidates deleted without
    error. *)
Theorem sequential_freed_bytes_of_the_deleted :
  forall (c : config) (e : env),
    ScanFacts.uniqueNamesFs (disk e) = true ->
    exit (Sequential.main c e) = Reported ->
    deletedSize (deleted (Sequential.main c e)) =
    fold_left add64
      (map (MainFacts.sizeOf (rootName e) (disk e))
           (Stated.succeeded (Sequential.main c e))) 0%Z.
Proof.
  intros c e Hu. rewrite SequentialFacts.main_eq. cbv zeta.
  destruct (absErr e); [discriminate|].
  destruct (IsNotExist (statErr [] (disk e))); [discriminate|].
  pose proof (GoneFacts.matchedFrom_NoDup Sequential.names (rootName e) (disk e) Hu)
    as Hnd.
  destruct (ScanFacts.matchedFrom Sequential.names (rootName e) (disk e))
    as [|d ds] eqn:Hm; [discriminate|].
  destruct (dryRun c); [discriminate|].
  destruct (negb (skipPrompt c) && negb (affirmative (stdin e))); [discriminate|].
  destruct (SequentialFacts.deleteLoop_run (d :: ds)
              (map (MainFacts.sizeOf (rootName e) (disk e)) (d :: ds))
              {| t_fs := disk e; t_calls := [] |})
    as (w' & rs & t & Hser & Hcol & Hloop); [apply length_map|].
  rewrite Hloop. intros _. unfold Stated.succeeded. cbn [deleted found].
  destruct (FreedFacts.collectDeletes_sum _ _ _ _ _ Hcol) as [Hsum Herrs].
  simpl in Hsum, Herrs. rewrite Hsum, Herrs.
  rewrite !fold_add64_zero. f_equal. apply zsum_perm, Permutation_map.
  apply FreedFacts.okPaths_succeeded; [exact Hnd|].
  now rewrite (MainFacts.delete_serial_index _ _ _ _ _ Hser).
Qed.

Lemma sequential_freed_bytes_of_the_deleted_witness :
  ScanFacts.uniqueNamesFs
    (disk (SequentialFacts.bothNames SequentialFacts.vendored [] [])) = true /\
  exit (Sequential.main (Samples.flags false true false 1)
          (SequentialFacts.bothNames SequentialFacts.vendored [] [])) = Reported /\
  deletedSize (deleted (Sequential.main (Samples.flags false true false 1)
          (SequentialFacts.bothNames SequentialFacts.vendored [] []))) = 10%Z /\
  Stated.succeeded (Sequential.main (Samples.flags false true false 1)
          (SequentialFacts.bothNames SequentialFacts.vendored [] []))
    = [["node_modules"]].
Proof.
  split; [reflexivity|]. split; [reflexivity|].
  pose proof (sequential_freed_bytes_of_the_deleted
                (Samples.flags false true false 1)
                (SequentialFacts.bothNames SequentialFacts.vendored [] [])
                eq_refl eq_refl) as H.
  split; [rewrite H; reflexivity|reflexivity].
Defined.

(** X23: with one worker and a targets file that names [node_modules]
    and [vendor], the run of the concurrent [main] is the run of the
    earlier sequential [main]: the same exit, the same candidates,
    notices and sizes, the same calls of [os.RemoveAll] in the same
    order, the same tree afterwards and the same deletion report,
    whatever the schedule. *)
Theorem single_worker_run_is_the_sequential_run :
  forall (c : config) (e : env),
    maxWorkers c = 1%Z ->
    readTargets (targetsFile e) = inr Sequential.names ->
    main c e = Sequential.main c e.
Proof.
  intros c e HW Hrt. rewrite SequentialFacts.main_eq. unfold main. cbv zeta.
  destruct (absErr e); [reflexivity|].
  destruct (IsNotExist (statErr [] (disk e))); [reflexivity|].
  rewrite Hrt, MainFacts.proceed_eq. cbv zeta. cbn [dirsToDelete scanErrors].
  destruct (ScanFacts.matchedFrom Sequential.names (rootName e) (disk e))
    as [|d ds] eqn:Hm; [reflexivity|].
  rewrite (SequentialFacts.sizePhase_single c _ _ _ _ HW).
  destruct (dryRun c); [reflexivity|].
  destruct (negb (skipPrompt c) && negb (affirmative (stdin e))); [reflexivity|].
  cbn [dirSizes].
  pose proof (SingleFacts.runPool_single (deleteWorker (d :: ds))
                (seq 0 (List.length (d :: ds))) {| t_fs := disk e; t_calls := [] |}
                (fun x w' Hin => MainFacts.deleteWorker_safe (d :: ds) x w' Hin)
                (deleteSched e)) as Hser.
  unfold deletePool. rewrite HW.
  set (p := runPool (deleteWorker (d :: ds)) 1 (seq 0 (List.length (d :: ds)))
              {| t_fs := disk e; t_calls := [] |} (deleteSched e)) in *.
  destruct (MainFacts.collectDeletes_safe (d :: ds)
              (map (MainFacts.sizeOf (rootName e) (disk e)) (d :: ds))
              (resultsChan p) deleteTally0) as [t Ht].
  { apply length_map. }
  { apply Forall_forall. intros r Hr.
    assert (Hin : In (dr_index r) (map dr_index (resultsChan p)))
      by now apply in_map.
    rewrite (MainFacts.delete_serial_index _ _ _ _ _ Hser) in Hin.
    apply in_seq in Hin. lia. }
  rewrite Ht.
  rewrite (SequentialFacts.deleteLoop_serial (d :: ds) _ (d :: ds) 0 _ _ _ _ _
             (fun j => eq_refl) Hser Ht).
  reflexivity.
Qed.

Lemma single_worker_run_is_the_sequential_run_witness :
  maxWorkers (Samples.flags false true true 1) = 1%Z /\
  readTargets
    (targetsFile (SequentialFacts.bothNames SequentialFacts.vendored [0] [0; 0]))
    = inr Sequential.names /\
  main (Samples.flags false true true 1)
       (SequentialFacts.bothNames SequentialFacts.vendored [0] [0; 0]) =
  Sequential.main (Samples.flags false true true 1)
       (SequentialFacts.bothNames SequentialFacts.vendored [0] [0; 0]) /\
  removeCalls (Sequential.main (Samples.flags false true true 1)
       (SequentialFacts.bothNames SequentialFacts.vendored [0] [0; 0])) =
  [["node_modules"]; ["vendor"]].
Proof.
  split; [reflexivity|]. split; [reflexivity|].
  split; [|reflexivity].
  apply (single_worker_run_is_the_sequential_run
           (Samples.flags false true true 1)
           (SequentialFacts.bothNames SequentialFacts.vendored [0] [0; 0])
           eq_refl eq_refl).
Defined.
